(** * CasparCG ffmpeg module: video decoder and ffmpeg consumer

    A shallow embedding of
    - [modules/ffmpeg/producer/video/video_decoder.cpp]
      (pixel format resolver, [video_decoder::implementation]), and
    - [src/modules/ffmpeg/consumer/ffmpeg_consumer.cpp]
      ([Stream], [ffmpeg_consumer]).

    Calls into libav (avcodec, avfilter, avformat, swscale), TBB and the
    CasparCG core are the environment of the code: they appear as section
    variables or as fields of an interface record, and every theorem is
    proved for all of them.  Exceptions are explicit results. *)

From Stdlib Require Import ZArith List Lia Bool Arith Sorted.
From Stdlib Require String.
Import ListNotations.
Import String.StringSyntax.
Open Scope string_scope.
Open Scope list_scope.
Open Scope Z_scope.

(** ** Machine integers *)

(** [size_t] on the 64-bit targets of the server: unsigned, modulo 2^64. *)
Definition to_size_t (z : Z) : Z := z mod 2 ^ 64.

(** [int]: 32-bit two's complement. *)
Definition to_int (z : Z) : Z := (z + 2 ^ 31) mod 2 ^ 32 - 2 ^ 31.

(** [int64_t]: 64-bit two's complement. *)
Definition to_int64 (z : Z) : Z := (z + 2 ^ 63) mod 2 ^ 64 - 2 ^ 63.

Definition INT_MAX : Z := 2 ^ 31 - 1.

(** ** libav data shared by both pipelines *)

(** [AVFrame]: plane pointers are modelled by the bytes they point to. *)
Record AVFrame := mkAVFrame {
  frame_data : list (list Z);
  frame_linesize : list Z;
  frame_pts : Z;
  nb_samples : Z
}.

Record AVPacket := mkAVPacket {
  packet_data : list Z;
  stream_index : Z;
  packet_pts : Z;
  packet_dts : Z
}.

Definition set_frame_pts (f : AVFrame) (p : Z) : AVFrame :=
  mkAVFrame (frame_data f) (frame_linesize f) p (nb_samples f).

Definition set_stream_index (p : AVPacket) (i : Z) : AVPacket :=
  mkAVPacket (packet_data p) i (packet_pts p) (packet_dts p).

(** [AVERROR(e)] negates a POSIX code; [AVERROR_EOF] is
    [FFERRTAG('E','O','F',' ')]. *)
Definition AVERROR (e : Z) : Z := - e.
Definition AVUNERROR (e : Z) : Z := - e.
Definition EAGAIN : Z := 11.
Definition EINVAL : Z := 22.
Definition ENOMEM : Z := 12.
Definition AVERROR_EOF : Z :=
  - (Z.lor (Z.lor 69 (Z.shiftl 79 8)) (Z.lor (Z.shiftl 70 16) (Z.shiftl 32 24))).

(** * Video decoder *)

Module video_decoder.

(** The members of libav's [PixelFormat] that the decoder names, a few of the
    ones it does not, and the rest of the enumeration by number. *)
Inductive PixelFormat :=
| PIX_FMT_GRAY8 | PIX_FMT_BGRA | PIX_FMT_ARGB | PIX_FMT_RGBA | PIX_FMT_ABGR
| PIX_FMT_YUV444P | PIX_FMT_YUV422P | PIX_FMT_YUV420P | PIX_FMT_YUV411P
| PIX_FMT_YUV410P | PIX_FMT_YUVA420P
| PIX_FMT_NONE | PIX_FMT_YUYV422 | PIX_FMT_RGB24 | PIX_FMT_BGR24
| PIX_FMT_UYVY422 | PIX_FMT_YUVJ420P | PIX_FMT_NV12 | PIX_FMT_PAL8
| PIX_FMT_unlisted (n : nat).

(** [core::pixel_format::type]. *)
Inductive pixel_format :=
| gray | bgra | argb | rgba | abgr | ycbcr | ycbcra | invalid.

Definition pixel_format_eqb (a b : pixel_format) : bool :=
  match a, b with
  | gray, gray | bgra, bgra | argb, argb | rgba, rgba | abgr, abgr
  | ycbcr, ycbcr | ycbcra, ycbcra | invalid, invalid => true
  | _, _ => false
  end.

(** Modelled from the spec: [core::pixel_format_desc::plane] is declared in
    core/producer/frame/pixel_format.h, which is not part of the sources at
    hand.  A plane is [{ lineSizeBytes, heightRows, channelsPerPixel }].  The
    resolver builds one as [plane(width, height, channels)] from a width in
    pixels (for a packed row of [linesize[0]] bytes it passes [linesize[0]/4]
    and 4 channels), so the line size in bytes is the width times the
    channels; all of it is [size_t] arithmetic. *)
Record plane := mkPlane {
  linesize : Z;
  height : Z;
  channels : Z
}.

Definition plane_ctor (a b c : Z) : plane :=
  mkPlane (to_size_t (to_size_t a * to_size_t c)) (to_size_t b) (to_size_t c).

(** [core::pixel_format_desc]. *)
Record pixel_format_desc := mkDesc {
  pix_fmt : pixel_format;
  planes : list plane
}.

(** [AVPicture]: four plane pointers and four line sizes.  The decoder fills
    it against a null base pointer, so [pict_data] holds byte offsets.  The
    resolver declares the picture without initialising it: a field that
    [avpicture_fill] did not write holds no value ([None]). *)
Record AVPicture := mkAVPicture {
  pict_data : list (option Z);
  pict_linesize : list (option Z)
}.

Definition data_at (p : AVPicture) (n : nat) : option Z := nth n (pict_data p) None.
Definition linesize_at (p : AVPicture) (n : nat) : option Z :=
  nth n (pict_linesize p) None.

(** Reading a field: the rest of the computation has a value only when the
    field has one. *)
Definition read {A : Type} (field : option Z) (k : Z -> option A) : option A :=
  match field with
  | Some v => k v
  | None => None
  end.

Definition get_pixel_format (pix : PixelFormat) : pixel_format :=
  match pix with
  | PIX_FMT_GRAY8 => gray
  | PIX_FMT_BGRA => bgra
  | PIX_FMT_ARGB => argb
  | PIX_FMT_RGBA => rgba
  | PIX_FMT_ABGR => abgr
  | PIX_FMT_YUV444P => ycbcr
  | PIX_FMT_YUV422P => ycbcr
  | PIX_FMT_YUV420P => ycbcr
  | PIX_FMT_YUV411P => ycbcr
  | PIX_FMT_YUV410P => ycbcr
  | PIX_FMT_YUVA420P => ycbcra
  | _ => invalid
  end.

(** The native formats the resolver has a case for. *)
Definition supported_formats : list PixelFormat :=
  [PIX_FMT_GRAY8; PIX_FMT_BGRA; PIX_FMT_ARGB; PIX_FMT_RGBA; PIX_FMT_ABGR;
   PIX_FMT_YUV444P; PIX_FMT_YUV422P; PIX_FMT_YUV420P; PIX_FMT_YUV411P;
   PIX_FMT_YUV410P; PIX_FMT_YUVA420P].

(** The plane count the data model documents for each descriptor kind. *)
Definition documented_plane_count (k : pixel_format) : nat :=
  match k with
  | gray | bgra | argb | rgba | abgr => 1
  | ycbcr => 3
  | ycbcra => 4
  | invalid => 0
  end%nat.

Section Resolver.

(** [avpicture_fill(&pict, nullptr, pix_fmt, width, height)] of libavcodec,
    called on the uninitialised [dummy_pict]: the picture as the call leaves
    it.  The resolver does not look at the code the call returns. *)
Variable avpicture_fill : PixelFormat -> Z -> Z -> AVPicture.

(** [linesize[0]/4] is an [int] division (truncating); [size2/linesize[1]] is
    a [size_t] division.  The C++ has no defined result ([None]) when it
    reads a field of the picture that was not written or divides by a zero
    [linesize[1]]. *)
Definition get_pixel_format_desc (pix : PixelFormat) (width height : Z)
  : option pixel_format_desc :=
  let dummy_pict := avpicture_fill pix (to_int width) (to_int height) in
  let fmt := get_pixel_format pix in
  match fmt with
  | gray =>
      read (linesize_at dummy_pict 0) (fun l0 =>
      Some (mkDesc fmt [plane_ctor (Z.quot l0 4) height 1]))
  | bgra | argb | rgba | abgr =>
      read (linesize_at dummy_pict 0) (fun l0 =>
      Some (mkDesc fmt [plane_ctor (Z.quot l0 4) height 4]))
  | ycbcr | ycbcra =>
      read (data_at dummy_pict 2) (fun d2 =>
      read (data_at dummy_pict 1) (fun d1 =>
      let size2 := to_size_t (d2 - d1) in
      read (linesize_at dummy_pict 1) (fun l1 =>
      if to_size_t l1 =? 0 then None else
      let h2 := size2 / to_size_t l1 in
      read (linesize_at dummy_pict 0) (fun l0 =>
      read (linesize_at dummy_pict 2) (fun l2 =>
      let yuv :=
        [plane_ctor l0 height 1; plane_ctor l1 h2 1; plane_ctor l2 h2 1] in
      if pixel_format_eqb fmt ycbcra
      then read (linesize_at dummy_pict 3) (fun l3 =>
           Some (mkDesc fmt (yuv ++ [plane_ctor l3 height 1])))
      else Some (mkDesc fmt yuv))))))
  | invalid => Some (mkDesc invalid [])
  end.

(** Heights of the chroma planes (planes 1 and 2) of a planar descriptor. *)
Definition chroma_heights (d : pixel_format_desc) : list Z :=
  map height (firstn 2 (skipn 1 (planes d))).

Definition luma_height (d : pixel_format_desc) : Z :=
  height (nth 0 (planes d) (mkPlane 0 0 0)).

End Resolver.


(** [CodecID], as far as the decoder looks at it. *)
Inductive CodecID := CODEC_ID_DVVIDEO | CODEC_ID_other (n : nat).

Definition is_dvvideo (c : CodecID) : bool :=
  match c with CODEC_ID_DVVIDEO => true | CODEC_ID_other _ => false end.

(** [core::video_mode]. *)
Inductive video_mode := progressive | lower | upper.

Definition is_upper (m : video_mode) : bool :=
  match m with upper => true | _ => false end.

(** Modelled from the spec: [core::write_frame] is declared in
    core/mixer/write_frame.h, which is not among the sources at hand.  It
    holds the plane buffers, here with the commits issued so far and the fill
    translation of its image transform as an exact fraction.  The commits of
    single planes are issued from parallel tasks, in no order the source
    fixes, so they are counted by plane: [plane_commits] holds, for plane
    [n], how often [commit(n)] was called, and [frame_commits] how often the
    whole-frame [commit()] was. *)
Record write_frame := mkWriteFrame {
  image_data : list (list Z);
  plane_commits : list nat;
  frame_commits : nat;
  fill_translation : option (Z * (Z * Z))
}.

Inductive exn :=
| invalid_operation (errn : Z) (api : String.string) (errno : Z)
| operation_failed (msg : String.string) (api : String.string).

Section Decoder.

Variable avpicture_fill : PixelFormat -> Z -> Z -> AVPicture.

(** The upstream packet source ([input]).  [try_pop_video_packet] reports
    either "none available" or a popped packet, where a popped null packet is
    the end-of-stream sentinel. *)
Context {input : Type}.
Variable try_pop_video_packet : input -> option (option AVPacket) * input.

(** The state libavcodec keeps behind an [AVCodecContext]. *)
Context {decoder : Type}.
Variable avcodec_decode_video2 : decoder -> AVPacket -> (Z * Z * AVFrame) * decoder.
Variable avcodec_flush_buffers : decoder -> decoder.

(** libswscale. *)
Context {SwsContext : Type}.
Variable sws_getContext :
  Z -> Z -> PixelFormat -> Z -> Z -> PixelFormat -> option SwsContext.
Variable sws_scale : SwsContext -> AVFrame -> Z -> list Z.

Record AVCodecContext := mkCodecContext {
  ctx_width : Z;
  ctx_height : Z;
  ctx_pix_fmt : PixelFormat;
  codec_id : CodecID;
  ctx_state : decoder
}.

Variable get_video_codec_context : input -> AVCodecContext.

(** [core::frame_factory], as far as the decoder asks it. *)
Record frame_factory := mkFrameFactory {
  video_format_mode : video_mode
}.

(** [video_decoder::implementation].  The codec context is a reference into
    the input in the source; the decoder is its only user, so the state it
    mutates is kept here. *)
Record implementation := mkImpl {
  input_ : input;
  sws_context_ : option SwsContext;
  frame_factory_ : frame_factory;
  codec_context_ : AVCodecContext;
  width_ : Z;
  height_ : Z;
  pix_fmt_ : PixelFormat;
  desc_ : pixel_format_desc;
  frame_number_ : Z
}.

Definition set_input (d : implementation) (i : input) : implementation :=
  mkImpl i (sws_context_ d) (frame_factory_ d) (codec_context_ d) (width_ d)
         (height_ d) (pix_fmt_ d) (desc_ d) (frame_number_ d).

Definition set_codec_state (d : implementation) (c : decoder) (n : Z)
  : implementation :=
  let cc := codec_context_ d in
  mkImpl (input_ d) (sws_context_ d) (frame_factory_ d)
         (mkCodecContext (ctx_width cc) (ctx_height cc) (ctx_pix_fmt cc)
                         (codec_id cc) c)
         (width_ d) (height_ d) (pix_fmt_ d) (desc_ d) n.

(** The constructor: member initialisers, then the fallback to BGRA.  It
    has a defined outcome, a decoder or an exception, when the descriptors
    it asks the resolver for have one. *)
Definition implementation_ctor (inp : input) (ff : frame_factory)
  : option (exn + implementation) :=
  let cc := get_video_codec_context inp in
  let w := to_int (ctx_width cc) in
  let h := to_int (ctx_height cc) in
  let pf := ctx_pix_fmt cc in
  match get_pixel_format_desc avpicture_fill pf (to_size_t w) (to_size_t h) with
  | None => None
  | Some desc =>
      if pixel_format_eqb (pix_fmt desc) invalid then
        match get_pixel_format_desc avpicture_fill PIX_FMT_BGRA
                (to_size_t w) (to_size_t h) with
        | None => None
        | Some desc' =>
            match sws_getContext w h pf w h PIX_FMT_BGRA with
            | Some ctx => Some (inr (mkImpl inp (Some ctx) ff cc w h pf desc' 0))
            | None =>
                Some (inl (operation_failed
                             "Could not create software scaling context."
                             "sws_getContext"))
            end
        end
      else Some (inr (mkImpl inp None ff cc w h pf desc 0))
  end.

(** One row of a plane: [memcpy(result + y*plane.linesize,
    decoded + y*decoded_linesize, plane.linesize)]. *)
Definition copy_row (decoded : list Z) (decoded_linesize : Z) (pl : plane) (y : nat)
  : list Z :=
  firstn (Z.to_nat (linesize pl))
         (skipn (Z.to_nat (Z.of_nat y * decoded_linesize)) decoded).

(** The rows of the inner loop: [blocked_range<size_t>(0,
    static_cast<int>(height))], the height narrowed to [int] and widened
    again for the range. *)
Definition row_count (pl : plane) : nat := Z.to_nat (to_size_t (to_int (height pl))).

(** The planes of the outer loop: [parallel_for(0,
    static_cast<int>(planes.size()), 1, ...)]. *)
Definition plane_count (desc : pixel_format_desc) : nat :=
  Z.to_nat (to_int (Z.of_nat (length (planes desc)))).

Definition copy_plane (decoded_frame : AVFrame) (pl : plane) (n : nat) : list Z :=
  let decoded := nth n (frame_data decoded_frame) [] in
  let decoded_linesize := nth n (frame_linesize decoded_frame) 0 in
  concat (map (copy_row decoded decoded_linesize pl) (seq 0 (row_count pl))).

(** The two loops of the direct path are [tbb::parallel_for]s: their
    iterations run in an order TBB picks.  Every iteration of the outer loop
    writes the buffer of its own plane and every iteration of the inner loop
    a row of its own, so the buffers they leave do not depend on that order;
    the commits are counted by plane. *)
Definition make_write_frame (d : implementation) (decoded_frame : AVFrame)
  : write_frame :=
  let n_planes := plane_count (desc_ d) in
  let w :=
    match sws_context_ d with
    | None =>
        mkWriteFrame
          (map (fun n => copy_plane decoded_frame
                           (nth n (planes (desc_ d)) (mkPlane 0 0 0)) n)
               (seq 0 n_planes))
          (repeat 1%nat n_planes)
          0
          None
    | Some ctx =>
        mkWriteFrame [sws_scale ctx decoded_frame (height_ d)] [] 1 None
    end in
  if is_dvvideo (codec_id (codec_context_ d))
     && is_upper (video_format_mode (frame_factory_ d))
  then mkWriteFrame (image_data w) (plane_commits w) (frame_commits w)
                    (Some (0, (1, 2 * height_ d)))
  else w.

(** [decode]: a null packet is the end of the stream. *)
Definition decode (video_packet : option AVPacket) (d : implementation)
  : (exn + list (Z * write_frame)) * implementation :=
  match video_packet with
  | None =>
      (inr [], set_codec_state d
                 (avcodec_flush_buffers (ctx_state (codec_context_ d))) 0)
  | Some pkt =>
      let '(errn, frame_finished, decoded_frame, c) :=
        avcodec_decode_video2 (ctx_state (codec_context_ d)) pkt in
      let d1 := set_codec_state d c (frame_number_ d) in
      if errn <? 0 then
        (inl (invalid_operation errn "avcodec_decode_video" (AVUNERROR errn)), d1)
      else if negb (frame_finished =? 0) then
        (inr [(to_int (frame_number_ d), make_write_frame d1 decoded_frame)],
         set_codec_state d c (to_size_t (frame_number_ d + 1)))
      else (inr [], d1)
  end.

(** What [receive] does to the packet source, as a ghost trace: a packet
    popped, with the number of frames [decode] returned for it, or the source
    reporting that none is available. *)
Inductive pop_event :=
| popped (pkt : option AVPacket) (frames : nat)
| none_available.

Definition frames_of (e : pop_event) : nat :=
  match e with popped _ n => n | none_available => 0%nat end.

Definition is_popped (e : pop_event) : bool :=
  match e with popped _ _ => true | none_available => false end.

(** One run of [receive]'s loop for the remaining [budget] iterations. *)
Fixpoint receive_loop (budget : nat) (result : list (Z * write_frame))
    (d : implementation)
  : (exn + list (Z * write_frame)) * implementation * list pop_event :=
  match budget with
  | O => (inr result, d, [])
  | S budget' =>
      match result with
      | _ :: _ => (inr result, d, [])
      | [] =>
          match try_pop_video_packet (input_ d) with
          | (None, i) => (inr result, set_input d i, [none_available])
          | (Some pkt, i) =>
              match decode pkt (set_input d i) with
              | (inl e, d') => (inl e, d', [popped pkt 0])
              | (inr frames, d') =>
                  let '(r, d'', tr) := receive_loop budget' (result ++ frames) d' in
                  (r, d'', popped pkt (length frames) :: tr)
              end
          end
      end
  end.

Definition receive (d : implementation)
  : (exn + list (Z * write_frame)) * implementation * list pop_event :=
  receive_loop 32 [] d.

(** Every event of a trace but the last is a packet whose [decode] call
    returned no frame: nothing is asked of the source after a frame was
    returned or after the source had none. *)
Fixpoint stops_at_first_frame (tr : list pop_event) : Prop :=
  match tr with
  | [] => True
  | [_] => True
  | e :: rest => e <> none_available /\ frames_of e = 0%nat /\ stops_at_first_frame rest
  end.

(** Decoding a list of packets one after the other, stopping at the first
    exception; the frames are collected in order. *)
Fixpoint decode_all (pkts : list (option AVPacket)) (d : implementation)
  : (exn + list (Z * write_frame)) * implementation :=
  match pkts with
  | [] => (inr [], d)
  | pkt :: rest =>
      match decode pkt d with
      | (inl e, d') => (inl e, d')
      | (inr frames, d') =>
          match decode_all rest d' with
          | (inl e, d'') => (inl e, d'')
          | (inr more, d'') => (inr (frames ++ more), d'')
          end
      end
  end.

(** A packet "yields a complete frame" in a codec state when the decode step
    neither fails nor leaves the frame unfinished. *)
Definition yields_frame (c : decoder) (pkt : AVPacket) : Prop :=
  let '(errn, frame_finished, _, _) := avcodec_decode_video2 c pkt in
  0 <= errn /\ frame_finished <> 0.

Fixpoint all_yield_frames (c : decoder) (pkts : list AVPacket) : Prop :=
  match pkts with
  | [] => True
  | pkt :: rest =>
      yields_frame c pkt /\
      all_yield_frames (snd (avcodec_decode_video2 c pkt)) rest
  end.

End Decoder.

Arguments AVCodecContext : clear implicits.
Arguments implementation : clear implicits.

End video_decoder.

(** * ffmpeg consumer *)

Module ffmpeg_consumer.

(** ** Exceptions and the monad the constructor and [send] run in *)

(** [ffmpeg_error_t] with its [errinfo_errno] and message, the
    [invalid_operation] of [initialize], and the [boost::bad_rational] of
    [boost::rational]. *)
Inductive exn :=
| ffmpeg_error_t (errno : Z) (msg : String.string)
| invalid_operation (msg : String.string)
| bad_rational.

(** How a call ends: it returns, it throws, or (for the loops that libav
    alone can stop) the iterations allowed were not enough. *)
Inductive result (A : Type) :=
| Ok (a : A)
| Throw (e : exn)
| OutOfFuel.
Arguments Ok {A}.
Arguments Throw {A}.
Arguments OutOfFuel {A}.

(** The ways a part of the constructor that only calls libav ends: with its
    result, or with an [ffmpeg_error_t]. *)
Definition settled {A : Type} (r : result A) : Prop :=
  match r with
  | Ok _ => True
  | Throw (ffmpeg_error_t _ _) => True
  | _ => False
  end.

(** A computation over a state [W] that survives the exception. *)
Definition M (W A : Type) : Type := W -> result A * W.

Definition ret {W A : Type} (a : A) : M W A := fun w => (Ok a, w).

Definition bind {W A B : Type} (c : M W A) (k : A -> M W B) : M W B :=
  fun w =>
    match c w with
    | (Ok a, w') => k a w'
    | (Throw e, w') => (Throw e, w')
    | (OutOfFuel, w') => (OutOfFuel, w')
    end.

Definition throw {W A : Type} (e : exn) : M W A := fun w => (Throw e, w).

Definition out_of_fuel {W A : Type} : M W A := fun w => (OutOfFuel, w).

Definition gets {W A : Type} (f : W -> A) : M W A := fun w => (Ok (f w), w).

Definition modify {W : Type} (f : W -> W) : M W unit := fun w => (Ok tt, f w).

Notation "x <- c ;; k" := (bind c (fun x => k))
  (at level 61, c at next level, right associativity).
Notation "' p <- c ;; k" := (bind c (fun x => match x with p => k end))
  (at level 61, p pattern, c at next level, right associativity).
Notation "c ;;; k" := (bind c (fun _ => k))
  (at level 61, right associativity).

(** Modelled from the spec: [FF_RET(ret, func)] and [FF(ret)] are macros of
    util/av_assert.h, which is not among the sources at hand.  Every libav
    call they wrap is a hard failure point: a negative return code is thrown
    as an [ffmpeg_error_t], anything else falls through. *)
Definition FF_RET {W : Type} (r : Z) (func : String.string) : M W unit :=
  if r <? 0 then throw (ffmpeg_error_t (AVUNERROR r) func) else ret tt.

Definition FF {W : Type} (r : Z) : M W unit := FF_RET r "".

(** ** Option maps *)

(** [std::map<std::string, std::string>]: an association list with unique
    keys, which is not kept in the order of the keys.  An [AVDictionary] is
    the list of its entries, in the order libav keeps them. *)
Definition options := list (String.string * String.string).

Fixpoint map_find (k : String.string) (m : options) : option String.string :=
  match m with
  | [] => None
  | (k', v) :: rest => if String.eqb k k' then Some v else map_find k rest
  end.

Fixpoint map_erase (k : String.string) (m : options) : options :=
  match m with
  | [] => []
  | (k', v) :: rest =>
      if String.eqb k k' then map_erase k rest else (k', v) :: map_erase k rest
  end.

(** [emplace] and [insert] keep an entry that is already there. *)
Definition map_emplace (k v : String.string) (m : options) : options :=
  match map_find k m with
  | Some _ => m
  | None => m ++ [(k, v)]
  end.

(** [m[k] = v]. *)
Fixpoint map_assign (k v : String.string) (m : options) : options :=
  match m with
  | [] => [(k, v)]
  | (k', v') :: rest =>
      if String.eqb k k' then (k, v) :: rest else (k', v') :: map_assign k v rest
  end.

(** [m[k]] read for its side effect: a missing key is inserted, empty. *)
Definition map_index (k : String.string) (m : options) : options :=
  map_emplace k "" m.

Definition ends_with (s suffix : String.string) : bool :=
  let n := String.length s in
  let k := String.length suffix in
  Nat.leb k n && String.eqb (String.substring (n - k) k s) suffix.

Definition is_empty (s : String.string) : bool := String.eqb s "".

(** [s.c_str()] as a C function reads it: up to the first NUL. *)
Fixpoint c_str (s : String.string) : String.string :=
  match s with
  | String.EmptyString => String.EmptyString
  | String.String c rest =>
      if Ascii.eqb c Ascii.zero then String.EmptyString
      else String.String c (c_str rest)
  end.

(** [av_toupper]: the ASCII letters only. *)
Definition av_toupper (c : Ascii.ascii) : Ascii.ascii :=
  let n := Ascii.nat_of_ascii c in
  if Nat.leb 97 n && Nat.leb n 122 then Ascii.ascii_of_nat (n - 32) else c.

(** The comparison of [av_dict_get] without [AV_DICT_MATCH_CASE] and
    without [AV_DICT_IGNORE_SUFFIX]: the whole key, up to case. *)
Fixpoint av_key_match (s key : String.string) : bool :=
  match s, key with
  | String.EmptyString, String.EmptyString => true
  | String.String x s', String.String y key' =>
      Ascii.eqb (av_toupper x) (av_toupper y) && av_key_match s' key'
  | _, _ => false
  end.

(** [av_dict_get(m, key, NULL, 0)]: the position of the first entry whose
    key matches. *)
Fixpoint av_dict_get (m : options) (key : String.string) : option nat :=
  match m with
  | [] => None
  | (k, _) :: rest =>
      if av_key_match k key then Some O else option_map S (av_dict_get rest key)
  end.

(** [*tag = m->elems[--m->count]]: the entry found is dropped and the last
    entry takes its place. *)
Definition av_dict_drop (i : nat) (m : options) : options :=
  let body := removelast m in
  if Nat.eqb (S i) (length m) then body
  else firstn i body ++ [last m ("", "")] ++ skipn (S i) body.

(** [av_dict_set(&m, key, value, 0)] with a value: an entry whose key
    matches, without regard to case, is replaced; the new entry is the last. *)
Definition av_dict_set (m : options) (key value : String.string) : options :=
  match av_dict_get m key with
  | Some i => av_dict_drop i m ++ [(key, value)]
  | None => m ++ [(key, value)]
  end.

(** The order a [std::map] is gone through in: by key. *)
Fixpoint insert_by_key (e : String.string * String.string) (m : options)
  : options :=
  match m with
  | [] => [e]
  | e' :: rest =>
      if String.leb (fst e) (fst e') then e :: m else e' :: insert_by_key e rest
  end.

Definition in_key_order (m : options) : options := fold_right insert_by_key [] m.

Definition to_dict (m : options) : options :=
  fold_left (fun dict p =>
               if is_empty (snd p) then dict
               else av_dict_set dict (c_str (fst p)) (c_str (snd p)))
            (in_key_order m) [].

Definition to_map (dict : options) : options :=
  fold_left (fun m p => map_assign (fst p) (snd p) m) dict [].

(** The keys of a [std::map] are unique. *)
Definition unique_keys (m : options) : Prop := NoDup (map fst m).

(** The keys and values are C strings as they are: none holds a NUL. *)
Definition c_strings (m : options) : Prop :=
  forall e, In e m -> c_str (fst e) = fst e /\ c_str (snd e) = snd e.

(** No two options that have a value have keys that differ only in case. *)
Definition keys_apart (m : options) : Prop :=
  forall e e', In e m -> In e' m ->
    is_empty (snd e) = false -> is_empty (snd e') = false ->
    av_key_match (fst e) (fst e') = true -> fst e = fst e'.

(** The first loop of the [Stream] constructor: entries whose key ends in
    [suffix] move to the stream's own map, the key cut short; the others go
    back to [options]. *)
Fixpoint partition_options (suffix : String.string) (tmp : options)
    (stream_options opts : options) : options * options :=
  match tmp with
  | [] => (stream_options, opts)
  | (k, v) :: rest =>
      if ends_with k suffix then
        let key := String.substring 0 (String.length k - String.length suffix) k in
        partition_options suffix rest (map_emplace key v stream_options) opts
      else partition_options suffix rest stream_options (map_emplace k v opts)
  end.

(** ** libav and core data *)

Inductive AVMediaType :=
| AVMEDIA_TYPE_UNKNOWN | AVMEDIA_TYPE_VIDEO | AVMEDIA_TYPE_AUDIO
| AVMEDIA_TYPE_DATA | AVMEDIA_TYPE_SUBTITLE | AVMEDIA_TYPE_ATTACHMENT.

Definition media_type_eqb (a b : AVMediaType) : bool :=
  match a, b with
  | AVMEDIA_TYPE_UNKNOWN, AVMEDIA_TYPE_UNKNOWN
  | AVMEDIA_TYPE_VIDEO, AVMEDIA_TYPE_VIDEO
  | AVMEDIA_TYPE_AUDIO, AVMEDIA_TYPE_AUDIO
  | AVMEDIA_TYPE_DATA, AVMEDIA_TYPE_DATA
  | AVMEDIA_TYPE_SUBTITLE, AVMEDIA_TYPE_SUBTITLE
  | AVMEDIA_TYPE_ATTACHMENT, AVMEDIA_TYPE_ATTACHMENT => true
  | _, _ => false
  end.

(** [AVCodecID]; 0 is [AV_CODEC_ID_NONE]. *)
Definition AVCodecID := Z.
Definition AV_CODEC_ID_NONE : AVCodecID := 0.

Definition AV_CODEC_FLAG_GLOBAL_HEADER : Z := Z.shiftl 1 22.

(** [AVRational]. *)
Definition AVRational := (Z * Z)%type.
Definition av_inv_q (q : AVRational) : AVRational := (snd q, fst q).

Record AVCodec := mkAVCodec {
  codec_name : String.string;
  type : AVMediaType;
  variable_frame_size : bool;
  pix_fmts : list Z;
  sample_fmts : list Z;
  channel_layouts : list Z;
  supported_samplerates : list Z
}.

(** One element of an [AVFilterInOut] list: an open pad of the parsed graph.
    Filter contexts are named by their handle; [pad_type] is what
    [avfilter_pad_get_type] reads for the pad from the pad table of its
    filter context. *)
Record AVFilterInOut := mkInOut {
  filter_ctx : nat;
  pad_idx : Z;
  pad_type : AVMediaType
}.

(** [AVOutputFormat]: the constant description of a container format, with
    its default codecs and its [AVFMT_*] flags. *)
Record AVOutputFormat := mkOutputFormat {
  video_codec : AVCodecID;
  audio_codec : AVCodecID;
  format_flags : Z
}.

Definition AVFMT_NOFILE : Z := 1.
Definition AVFMT_GLOBALHEADER : Z := 64.

(** [AVFormatContext]: the format it was allocated for and the state libav
    keeps behind it (tracks, I/O). *)
Record AVFormatContext (OC : Type) := mkFormatContext {
  oformat : AVOutputFormat;
  oc_state : OC
}.
Arguments mkFormatContext {OC}.
Arguments oformat {OC}.
Arguments oc_state {OC}.

(** [oc->oformat->flags & flag]. *)
Definition has_flag {OC : Type} (oc : AVFormatContext OC) (flag : Z) : bool :=
  negb (Z.land (format_flags (oformat oc)) flag =? 0).

Record AVStream := mkAVStream {
  st_index : Z;
  st_time_base : AVRational;
  codecpar_set : bool
}.

(** [core::video_format_desc], the fields the consumer reads. *)
Record video_format_desc := mkFormatDesc {
  width : Z;
  height : Z;
  square_width : Z;
  square_height : Z;
  duration : Z;
  time_scale : Z;
  framerate : AVRational;
  audio_sample_rate : Z;
  audio_channels : Z
}.

(** [boost::rational<int>]: a fraction in lowest terms with a positive
    denominator.  The constructor throws [bad_rational] for a zero
    denominator, and for a denominator no [int] can negate; the division
    throws it for a zero divisor.  [None] stands for the exception; the
    products of the division are [int] products. *)
Definition rational := (Z * Z)%type.

Definition rational_ctor (n d : Z) : option rational :=
  if d =? 0 then None
  else if n =? 0 then Some (0, 1)
  else
    let g := Z.gcd n d in
    let n := Z.quot n g in
    let d := Z.quot d g in
    if d <? - INT_MAX then None
    else if d <? 0 then Some (to_int (- n), - d)
    else Some (n, d).

Definition rational_div (a b : rational) : option rational :=
  let '(num, den) := a in
  let '(r_num, r_den) := b in
  if r_num =? 0 then None
  else if num =? 0 then Some a
  else
    let gcd1 := Z.gcd num r_num in
    let gcd2 := Z.gcd r_den den in
    let num := to_int (Z.quot num gcd1 * Z.quot r_den gcd2) in
    let den := to_int (Z.quot den gcd2 * Z.quot r_num gcd1) in
    if den <? 0 then Some (to_int (- num), to_int (- den))
    else Some (num, den).

(** [boost::rational<int>(square_width, square_height) /
    boost::rational<int>(width, height)], the sample aspect ratio of the
    video buffer source. *)
Definition format_sar (format_desc : video_format_desc) : option rational :=
  match rational_ctor (square_width format_desc) (square_height format_desc),
        rational_ctor (width format_desc) (height format_desc) with
  | Some a, Some b => rational_div a b
  | _, _ => None
  end.

(** The ways the constructor ends for an encoder and a format description:
    with a stream, with an [ffmpeg_error_t], or, for a video encoder and a
    format whose sample aspect ratio cannot be formed, with [bad_rational]. *)
Definition settled_for {A : Type} (codec : AVCodec)
    (format_desc : video_format_desc) (r : result A) : Prop :=
  match r with
  | Ok _ => True
  | Throw (ffmpeg_error_t _ _) => True
  | Throw bad_rational =>
      type codec = AVMEDIA_TYPE_VIDEO /\ format_sar format_desc = None
  | _ => False
  end.

(** Modelled from the spec: [core::const_frame] is declared in
    core/frame/frame.h, which is not among the sources at hand.  A frame is
    either the empty frame [core::const_frame{}] ([None]), the end-of-stream
    sentinel of the frame queue, or carries image and audio data. *)
Record frame_payload := mkFrame {
  image : list Z;
  audio : list Z
}.
Definition const_frame := option frame_payload.

(** [AVCodecContext] of an encoder: the fields the consumer sets or reads and
    the state libavcodec keeps behind it. *)
Record AVCodecContext (E : Type) := mkEnc {
  codec_type : AVMediaType;
  enc_width : Z;
  enc_height : Z;
  enc_framerate : AVRational;
  sample_aspect_ratio : AVRational;
  time_base : AVRational;
  enc_format : Z;
  sample_rate : Z;
  enc_channels : Z;
  channel_layout : Z;
  frame_size : Z;
  flags : Z;
  enc_state : E
}.
Arguments mkEnc {E}.
Arguments codec_type {E}.
Arguments enc_width {E}.
Arguments enc_height {E}.
Arguments enc_framerate {E}.
Arguments sample_aspect_ratio {E}.
Arguments time_base {E}.
Arguments enc_format {E}.
Arguments sample_rate {E}.
Arguments enc_channels {E}.
Arguments channel_layout {E}.
Arguments frame_size {E}.
Arguments flags {E}.
Arguments enc_state {E}.

(** ** The libav interface of the consumer

    [G] is the state of a filter graph with the filter contexts in it, [E]
    what libavcodec keeps behind an encoder context, [OC] the state of an
    [AVFormatContext] with its I/O.  Each call returns its code (or handle)
    and the state it leaves. *)
Set Implicit Arguments.
Record libav (G E OC : Type) := mkLibav {
  avcodec_find_encoder : AVCodecID -> option AVCodec;
  avcodec_find_encoder_by_name : String.string -> option AVCodec;
  avfilter_graph_alloc : option G;
  avfilter_graph_parse2 :
    G -> String.string -> Z * list AVFilterInOut * list AVFilterInOut * G;
  avfilter_graph_create_filter :
    G -> String.string -> String.string -> option String.string -> Z * nat * G;
  avfilter_link : G -> nat -> Z -> nat -> Z -> Z * G;
  av_opt_set_int_list : G -> nat -> String.string -> list Z -> Z -> Z * G;
  avfilter_graph_config : G -> Z * G;
  av_buffersink_get_frame_rate : G -> nat -> AVRational;
  av_buffersink_get_w : G -> nat -> Z;
  av_buffersink_get_h : G -> nat -> Z;
  av_buffersink_get_sample_aspect_ratio : G -> nat -> AVRational;
  av_buffersink_get_format : G -> nat -> Z;
  av_buffersink_get_sample_rate : G -> nat -> Z;
  av_buffersink_get_channels : G -> nat -> Z;
  av_buffersink_get_channel_layout : G -> nat -> Z;
  av_buffersink_set_frame_size : G -> nat -> Z -> G;
  av_get_channel_layout_nb_channels : Z -> Z;
  av_get_default_channel_layout : Z -> Z;
  avformat_new_stream : OC -> option AVStream * OC;
  avcodec_alloc_context3 : AVCodec -> option (AVCodecContext E);
  avcodec_open2 :
    AVCodecContext E -> AVCodec -> options -> Z * options * AVCodecContext E;
  avcodec_parameters_from_context : AVStream -> AVCodecContext E -> Z * AVStream;
  (* the argument strings boost::format builds for the two buffer sources *)
  video_buffer_args : video_format_desc -> rational -> String.string;
  audio_buffer_args : video_format_desc -> String.string;
  (* send *)
  make_av_video_frame : frame_payload -> video_format_desc -> AVFrame;
  make_av_audio_frame : frame_payload -> video_format_desc -> AVFrame;
  av_buffersrc_write_frame : G -> nat -> option AVFrame -> Z * G;
  av_buffersrc_close : G -> nat -> Z -> Z * G;
  av_buffersink_get_frame : G -> nat -> Z * AVFrame * G;
  avcodec_receive_packet : AVCodecContext E -> Z * AVPacket * E;
  avcodec_send_frame : AVCodecContext E -> option AVFrame -> Z * E;
  av_packet_rescale_ts : AVPacket -> AVRational -> AVRational -> AVPacket;
  (* the container *)
  avformat_alloc_output_context2 :
    option String.string -> String.string -> Z * AVOutputFormat * OC;
  avio_open2 : OC -> String.string -> options -> Z * options * OC;
  avformat_write_header : OC -> options -> Z * options * OC;
  av_interleaved_write_frame : OC -> AVPacket -> Z * OC;
  av_write_trailer : OC -> Z * OC;
  avio_closep : OC -> Z * OC
}.
Unset Implicit Arguments.

(** ** Stream *)

(** One [avfilter_link] call and the code it returned. *)
Record link_call := mkLink {
  link_src : nat;
  link_srcpad : Z;
  link_dst : nat;
  link_dstpad : Z;
  link_ret : Z
}.

(** The calls of the constructor on the whole graph and on the container,
    with the code libav returned. *)
Inductive ctor_call :=
| Call_parse (ret : Z)
| Call_link (l : link_call)
| Call_config (ret : Z)
| Call_new_stream.

(** Sums of sample counts, and the defaults of [nth]. *)
Definition sum_Z (l : list Z) : Z := fold_right Z.add 0 l.

Definition blank_frame : AVFrame := mkAVFrame [] [] 0 0.
Definition no_payload : frame_payload := mkFrame [] [].

Section Stream.

Context {G E OC : Type}.
Variable L : libav G E OC.

Record Stream := mkStream {
  graph : G;
  sink : nat;
  source : nat;
  enc : AVCodecContext E;
  st : AVStream;
  pts : Z
}.

(** What the constructor works on once the graph is allocated: the caller's
    option map, the graph, the container, and (ghost) the links made and the
    calls made on the whole graph and on the container, in order. *)
Record ctor_world := mkCtorWorld {
  cw_options : options;
  cw_graph : G;
  cw_oc : AVFormatContext OC;
  cw_links : list link_call;
  cw_calls : list ctor_call
}.

Definition on_graph {A : Type} (f : G -> A * G) : M ctor_world A :=
  fun w =>
    let '(a, g) := f (cw_graph w) in
    (Ok a, mkCtorWorld (cw_options w) g (cw_oc w) (cw_links w) (cw_calls w)).

Definition note (c : ctor_call) : M ctor_world unit :=
  modify (fun w => mkCtorWorld (cw_options w) (cw_graph w) (cw_oc w) (cw_links w)
                               (cw_calls w ++ [c])).

Definition link (src : nat) (srcpad : Z) (dst : nat) (dstpad : Z)
  : M ctor_world Z :=
  fun w =>
    let '(r, g) := avfilter_link L (cw_graph w) src srcpad dst dstpad in
    (Ok r, mkCtorWorld (cw_options w) g (cw_oc w)
                       (cw_links w ++ [mkLink src srcpad dst dstpad r])
                       (cw_calls w ++ [Call_link (mkLink src srcpad dst dstpad r)])).

Definition new_stream : M ctor_world (option AVStream) :=
  fun w =>
    let '(s, o) := avformat_new_stream L (oc_state (cw_oc w)) in
    (Ok s, mkCtorWorld (cw_options w) (cw_graph w)
                       (mkFormatContext (oformat (cw_oc w)) o) (cw_links w)
                       (cw_calls w ++ [Call_new_stream])).

Definition set_options (f : options -> options) : M ctor_world unit :=
  modify (fun w => mkCtorWorld (f (cw_options w)) (cw_graph w) (cw_oc w)
                               (cw_links w) (cw_calls w)).

Definition config_error {A : Type} (msg : String.string) : M ctor_world A :=
  throw (ffmpeg_error_t EINVAL msg).

(** The graph input: exactly one open input pad, to which the buffer source
    of the encoder's media type is linked.  The video source is described
    with the sample aspect ratio of the format, a [boost::rational] that
    throws when it cannot be formed. *)
Definition build_source (codec : AVCodec) (format_desc : video_format_desc)
    (inputs : list AVFilterInOut) : M ctor_world nat :=
  match inputs with
  | [cur] =>
      match type codec with
      | AVMEDIA_TYPE_VIDEO =>
          match format_sar format_desc with
          | None => throw bad_rational
          | Some sar =>
              '(r, source) <- on_graph (fun g =>
                  avfilter_graph_create_filter L g "buffer" "in_0"
                    (Some (video_buffer_args L format_desc sar))) ;;
              FF r ;;;
              r <- link source 0 (filter_ctx cur) (pad_idx cur) ;;
              FF r ;;;
              ret source
          end
      | AVMEDIA_TYPE_AUDIO =>
          '(r, source) <- on_graph (fun g =>
              avfilter_graph_create_filter L g "abuffer" "in_0"
                (Some (audio_buffer_args L format_desc))) ;;
          FF r ;;;
          r <- link source 0 (filter_ctx cur) (pad_idx cur) ;;
          FF r ;;;
          ret source
      | _ => config_error "invalid filter input media type"
      end
  | _ => config_error "invalid filter graph input count"
  end.

(** The sink, constrained to what the encoder supports. *)
Definition build_sink (codec : AVCodec) : M ctor_world nat :=
  match type codec with
  | AVMEDIA_TYPE_VIDEO =>
      '(r, sink) <- on_graph (fun g =>
          avfilter_graph_create_filter L g "buffersink" "out" None) ;;
      FF r ;;;
      r <- on_graph (fun g =>
          av_opt_set_int_list L g sink "pix_fmts" (pix_fmts codec) (-1)) ;;
      FF r ;;;
      ret sink
  | AVMEDIA_TYPE_AUDIO =>
      '(r, sink) <- on_graph (fun g =>
          avfilter_graph_create_filter L g "abuffersink" "out" None) ;;
      FF r ;;;
      r <- on_graph (fun g =>
          av_opt_set_int_list L g sink "sample_fmts" (sample_fmts codec) (-1)) ;;
      FF r ;;;
      r <- on_graph (fun g =>
          av_opt_set_int_list L g sink "channel_layouts" (channel_layouts codec) 0) ;;
      FF r ;;;
      r <- on_graph (fun g =>
          av_opt_set_int_list L g sink "sample_rates" (supported_samplerates codec) 0) ;;
      FF r ;;;
      ret sink
  | _ => config_error "invalid output media type"
  end.

(** The graph output: exactly one open output pad, of the encoder's media
    type, linked to the sink. *)
Definition link_sink (codec : AVCodec) (outputs : list AVFilterInOut) (sink : nat)
  : M ctor_world unit :=
  match outputs with
  | [cur] =>
      if negb (media_type_eqb (pad_type cur) (type codec)) then
        config_error "invalid filter output media type"
      else
        r <- link (filter_ctx cur) (pad_idx cur) sink 0 ;;
        FF r
  | _ => config_error "invalid filter graph output count"
  end.

(** The encoder's parameters, read back from the configured sink. *)
Definition configure_encoder (codec : AVCodec) (g : G) (sink : nat)
    (st : AVStream) (enc : AVCodecContext E) : AVStream * AVCodecContext E :=
  match type codec with
  | AVMEDIA_TYPE_VIDEO =>
      let tb := av_inv_q (av_buffersink_get_frame_rate L g sink) in
      (mkAVStream (st_index st) tb (codecpar_set st),
       mkEnc (codec_type enc)
             (av_buffersink_get_w L g sink) (av_buffersink_get_h L g sink)
             (av_buffersink_get_frame_rate L g sink)
             (av_buffersink_get_sample_aspect_ratio L g sink)
             tb (av_buffersink_get_format L g sink)
             (sample_rate enc) (enc_channels enc) (channel_layout enc)
             (frame_size enc) (flags enc) (enc_state enc))
  | AVMEDIA_TYPE_AUDIO =>
      let tb := (1, av_buffersink_get_sample_rate L g sink) in
      let ch := av_buffersink_get_channels L g sink in
      let cl := av_buffersink_get_channel_layout L g sink in
      let ch' := if ch =? 0 then av_get_channel_layout_nb_channels L cl else ch in
      let cl' :=
        if ch =? 0 then cl
        else if cl =? 0 then av_get_default_channel_layout L ch else cl in
      (mkAVStream (st_index st) tb (codecpar_set st),
       mkEnc (codec_type enc) (enc_width enc) (enc_height enc) (enc_framerate enc)
             (sample_aspect_ratio enc) tb (av_buffersink_get_format L g sink)
             (av_buffersink_get_sample_rate L g sink) ch' cl'
             (frame_size enc) (flags enc) (enc_state enc))
  | _ => (st, enc)
  end.

Definition set_global_header (enc : AVCodecContext E) : AVCodecContext E :=
  mkEnc (codec_type enc) (enc_width enc) (enc_height enc) (enc_framerate enc)
        (sample_aspect_ratio enc) (time_base enc) (enc_format enc)
        (sample_rate enc) (enc_channels enc) (channel_layout enc)
        (frame_size enc) (Z.lor (flags enc) AV_CODEC_FLAG_GLOBAL_HEADER)
        (enc_state enc).

(** The spec handed to the parser: the pass-through filter of the encoder's
    media type when the options name none. *)
Definition effective_spec (codec : AVCodec) (filter_spec : String.string)
  : String.string :=
  if is_empty filter_spec then
    match type codec with
    | AVMEDIA_TYPE_VIDEO => "null"
    | _ => "anull"
    end
  else filter_spec.

(** The constructor from [avformat_new_stream] on: the output track, the
    encoder configured from the sink and opened with what is left of the
    stream's options, the options it did not use handed back. *)
Definition open_encoder (suffix : String.string) (codec : AVCodec)
    (stream_options : options) (source sink : nat) : M ctor_world Stream :=
  st <- new_stream ;;
  match st with
  | None => throw (ffmpeg_error_t ENOMEM "avformat_new_stream")
  | Some st =>
      match avcodec_alloc_context3 L codec with
      | None => throw (ffmpeg_error_t ENOMEM "avcodec_alloc_context3")
      | Some enc =>
          g <- gets cw_graph ;;
          let '(st, enc) := configure_encoder codec g sink st enc in
          let '(r, dict, enc) := avcodec_open2 L enc codec (to_dict stream_options) in
          FF r ;;;
          set_options (fun o =>
            fold_left (fun o p => map_assign (fst p) (String.append suffix (snd p)) o)
                      (to_map dict) o) ;;;
          let '(r, st) := avcodec_parameters_from_context L st enc in
          FF r ;;;
          (if media_type_eqb (type codec) AVMEDIA_TYPE_AUDIO
              && negb (variable_frame_size codec)
           then on_graph (fun g =>
                  (tt, av_buffersink_set_frame_size L g sink (frame_size enc)))
           else ret tt) ;;;
          globalheader <- gets (fun w => has_flag (cw_oc w) AVFMT_GLOBALHEADER) ;;
          let enc := if globalheader then set_global_header enc else enc in
          g <- gets cw_graph ;;
          ret (mkStream g sink source enc st 0)
      end
  end.

(** The constructor from [avfilter_graph_parse2] on. *)
Definition build (suffix : String.string) (codec : AVCodec)
    (format_desc : video_format_desc) (filter_spec : String.string)
    (stream_options : options) : M ctor_world Stream :=
  let filter_spec := effective_spec codec filter_spec in
  '(r, inputs, outputs) <- on_graph (fun g => avfilter_graph_parse2 L g filter_spec) ;;
  note (Call_parse r) ;;;
  FF r ;;;
  source <- build_source codec format_desc inputs ;;
  sink <- build_sink codec ;;
  link_sink codec outputs sink ;;;
  r <- on_graph (avfilter_graph_config L) ;;
  note (Call_config r) ;;;
  FF r ;;;
  open_encoder suffix codec stream_options source sink.

(** The constructor up to the encoder: the options of this stream are split
    off the caller's map, the filter spec and the codec name are taken out of
    them, and the encoder is looked up.  Returns the stream's options, the
    filter spec, the encoder and what is left of the caller's map. *)
Definition stream_arguments (suffix : String.string) (codec_id : AVCodecID)
    (opts : options)
  : options * String.string * option AVCodec * options :=
  let '(stream_options, opts) := partition_options suffix opts [] [] in
  let '(filter_spec, stream_options) :=
    match map_find "filter" stream_options with
    | Some v => (v, map_erase "filter" stream_options)
    | None => ("", stream_options)
    end in
  let stream_options := map_index "filter" stream_options in
  let '(codec, stream_options) :=
    match map_find "codec" stream_options with
    | Some name =>
        (avcodec_find_encoder_by_name L name, map_erase "codec" stream_options)
    | None => (avcodec_find_encoder L codec_id, stream_options)
    end in
  (stream_options, filter_spec, codec, opts).

(** [Stream::Stream].  The caller's option map and the container are passed
    by reference in the source: what is left of them is returned beside the
    result, also when the constructor throws, with the links made. *)
Definition Stream_ctor (oc : AVFormatContext OC) (suffix : String.string)
    (codec_id : AVCodecID) (format_desc : video_format_desc) (opts : options)
  : result Stream * (options * AVFormatContext OC * list link_call) :=
  let '(stream_options, filter_spec, codec, opts) :=
    stream_arguments suffix codec_id opts in
  match codec with
  | None => (Throw (ffmpeg_error_t EINVAL "avcodec_find_encoder"), (opts, oc, []))
  | Some codec =>
      match avfilter_graph_alloc L with
      | None => (Throw (ffmpeg_error_t ENOMEM "avfilter_graph_alloc"), (opts, oc, []))
      | Some g =>
          let '(r, w) :=
            build suffix codec format_desc filter_spec stream_options
                  (mkCtorWorld opts g oc [] []) in
          (r, (cw_options w, cw_oc w, cw_links w))
      end
  end.

(** The calls [Stream::Stream] made on the whole graph and on the container,
    in order (ghost): none before the graph is allocated. *)
Definition Stream_ctor_calls (oc : AVFormatContext OC) (suffix : String.string)
    (codec_id : AVCodecID) (format_desc : video_format_desc) (opts : options)
  : list ctor_call :=
  let '(stream_options, filter_spec, codec, opts) :=
    stream_arguments suffix codec_id opts in
  match codec with
  | None => []
  | Some codec =>
      match avfilter_graph_alloc L with
      | None => []
      | Some g =>
          cw_calls (snd (build suffix codec format_desc filter_spec stream_options
                               (mkCtorWorld opts g oc [] [])))
      end
  end.

(** What one [send] shows to the outside: the frame handed to the buffer
    source, the close of the source, and each packet handed to the callback. *)
Inductive send_event :=
| Ev_write_frame (frame : option AVFrame)
| Ev_close (at_pts : Z)
| Ev_packet (pkt : AVPacket).

Definition send_world := (Stream * list send_event)%type.

Definition emit (e : send_event) : M send_world unit :=
  modify (fun w => (fst w, snd w ++ [e])).

Definition set_pts (s : Stream) (p : Z) : Stream :=
  mkStream (graph s) (sink s) (source s) (enc s) (st s) p.

Definition on_stream_graph {A : Type} (f : G -> A * G) : M send_world A :=
  fun w =>
    let s := fst w in
    let '(a, g) := f (graph s) in
    (Ok a, (mkStream g (sink s) (source s) (enc s) (st s) (pts s), snd w)).

Definition set_enc_state (c : AVCodecContext E) (e : E) : AVCodecContext E :=
  mkEnc (codec_type c) (enc_width c) (enc_height c) (enc_framerate c)
        (sample_aspect_ratio c) (time_base c) (enc_format c) (sample_rate c)
        (enc_channels c) (channel_layout c) (frame_size c) (flags c) e.

Definition on_encoder {A : Type} (f : AVCodecContext E -> A * E)
  : M send_world A :=
  fun w =>
    let s := fst w in
    let '(a, e) := f (enc s) in
    (Ok a, (mkStream (graph s) (sink s) (source s) (set_enc_state (enc s) e)
                     (st s) (pts s), snd w)).

(** The first half of [send]: the frame gets the stream's counter as its
    [pts], the counter advances by one (video) or by the frame's sample count
    (audio), and the frame goes to the buffer source; the empty frame closes
    the source at the counter instead. *)
Definition push_frame (in_frame : const_frame) (format_desc : video_format_desc)
  : M send_world unit :=
  s <- gets fst ;;
  match in_frame with
  | Some fd =>
      frame <-
        match codec_type (enc s) with
        | AVMEDIA_TYPE_VIDEO =>
            let frame := set_frame_pts (make_av_video_frame L fd format_desc) (pts s) in
            modify (fun w => (set_pts (fst w) (to_int64 (pts s + 1)), snd w)) ;;;
            ret (Some frame)
        | AVMEDIA_TYPE_AUDIO =>
            let frame := set_frame_pts (make_av_audio_frame L fd format_desc) (pts s) in
            modify (fun w =>
              (set_pts (fst w) (to_int64 (pts s + nb_samples frame)), snd w)) ;;;
            ret (Some frame)
        | _ => ret None
        end ;;
      emit (Ev_write_frame frame) ;;;
      r <- on_stream_graph (fun g => av_buffersrc_write_frame L g (source s) frame) ;;
      FF r
  | None =>
      emit (Ev_close (pts s)) ;;;
      r <- on_stream_graph (fun g => av_buffersrc_close L g (source s) (pts s)) ;;
      FF r
  end.

(** The [while (true)] loop of [send], at most [fuel] times round. *)
Fixpoint drain (fuel : nat) : M send_world unit :=
  match fuel with
  | O => out_of_fuel
  | S fuel' =>
      s <- gets fst ;;
      '(r, pkt) <- on_encoder (fun c =>
          let '(r, pkt, e') := avcodec_receive_packet L c in ((r, pkt), e')) ;;
      if r =? AVERROR EAGAIN then
        '(r, frame) <- on_stream_graph (fun g =>
            let '(r, frame, g') := av_buffersink_get_frame L g (sink s) in
            ((r, frame), g')) ;;
        if r =? AVERROR EAGAIN then ret tt
        else if r =? AVERROR_EOF then
          r <- on_encoder (fun e => avcodec_send_frame L e None) ;;
          FF r ;;;
          drain fuel'
        else
          FF_RET r "av_buffersink_get_frame" ;;;
          r <- on_encoder (fun e => avcodec_send_frame L e (Some frame)) ;;
          FF r ;;;
          drain fuel'
      else if r =? AVERROR_EOF then ret tt
      else
        FF_RET r "avcodec_receive_packet" ;;;
        let pkt := set_stream_index pkt (st_index (st s)) in
        let pkt := av_packet_rescale_ts L pkt (time_base (enc s)) (st_time_base (st s)) in
        emit (Ev_packet pkt) ;;;
        drain fuel'
  end.

(** [Stream::send]: push, then drain. *)
Definition Stream_send (fuel : nat) (in_frame : const_frame)
    (format_desc : video_format_desc) : M send_world unit :=
  push_frame in_frame format_desc ;;; drain fuel.

(** The frames a trace handed to the buffer source and the packets it handed
    to the callback. *)
Fixpoint frames_written (tr : list send_event) : list AVFrame :=
  match tr with
  | [] => []
  | Ev_write_frame (Some f) :: rest => f :: frames_written rest
  | _ :: rest => frames_written rest
  end.

Fixpoint packets_of (tr : list send_event) : list AVPacket :=
  match tr with
  | [] => []
  | Ev_packet p :: rest => p :: packets_of rest
  | _ :: rest => packets_of rest
  end.

(** [Stream::send] called for one frame after the other on the same stream,
    as the media thread does, until a call does not return. *)
Fixpoint send_all (fuel : nat) (frames : list frame_payload)
    (format_desc : video_format_desc) : M send_world unit :=
  match frames with
  | [] => ret tt
  | f :: rest =>
      Stream_send fuel (Some f) format_desc ;;; send_all fuel rest format_desc
  end.

(** What the drain loop leaves alone: the counter, the media type of the
    encoder, and the frames handed to the buffer source. *)
Definition stable (w w' : send_world) : Prop :=
  pts (fst w') = pts (fst w) /\
  codec_type (enc (fst w')) = codec_type (enc (fst w)) /\
  frames_written (snd w') = frames_written (snd w).

Definition keeps {A : Type} (c : M send_world A) : Prop :=
  forall w, stable w (snd (c w)).

(** What the counter advances by for a frame. *)
Definition advance (ct : AVMediaType) (f : AVFrame) : Z :=
  match ct with
  | AVMEDIA_TYPE_VIDEO => 1
  | AVMEDIA_TYPE_AUDIO => nb_samples f
  | _ => 0
  end.

(** The native frame [send] makes of a server frame, before it is stamped. *)
Definition native_frame (ct : AVMediaType) (fd : video_format_desc)
    (f : frame_payload) : AVFrame :=
  match ct with
  | AVMEDIA_TYPE_VIDEO => make_av_video_frame L f fd
  | _ => make_av_audio_frame L f fd
  end.

(** The frames a run of sends writes, from the counter [p] on. *)
Fixpoint stamped (ct : AVMediaType) (fd : video_format_desc) (p : Z)
    (frames : list frame_payload) : list AVFrame :=
  match frames with
  | [] => []
  | f :: rest =>
      let frame := set_frame_pts (native_frame ct fd f) p in
      frame :: stamped ct fd (to_int64 (p + advance ct frame)) rest
  end.

End Stream.

Arguments Stream : clear implicits.
Arguments mkStream {G E}.
Arguments graph {G E}.
Arguments sink {G E}.
Arguments source {G E}.
Arguments enc {G E}.
Arguments st {G E}.
Arguments pts {G E}.

(** ** Bounded queues *)

(** [tbb::concurrent_bounded_queue]: the items pushed and not yet taken by a
    pop, oldest first, and the capacity set. *)
Record bounded_queue (A : Type) := mkQueue {
  capacity : Z;
  items : list A
}.
Arguments mkQueue {A}.
Arguments capacity {A}.
Arguments items {A}.

Definition is_full {A : Type} (q : bounded_queue A) : bool :=
  capacity q <=? Z.of_nat (length (items q)).

(** [try_push]: refuses, and leaves the queue as it is, when it is full. *)
Definition try_push {A : Type} (q : bounded_queue A) (x : A)
  : bool * bounded_queue A :=
  if is_full q then (false, q)
  else (true, mkQueue (capacity q) (items q ++ [x])).

(** [pop] and [push] block; they are enabled only when they can go ahead. *)
Definition pop {A : Type} (q : bounded_queue A) : option (A * bounded_queue A) :=
  match items q with
  | [] => None
  | x :: rest => Some (x, mkQueue (capacity q) rest)
  end.

Definition push {A : Type} (q : bounded_queue A) (x : A)
  : option (bounded_queue A) :=
  if is_full q then None else Some (mkQueue (capacity q) (items q ++ [x])).

(** ** ffmpeg_consumer *)

(** Modelled from the spec: [diagnostics::graph] is declared in
    common/diagnostics/graph.h, which is not among the sources at hand.  It
    records signals: the model keeps the colours, the text and the tags set,
    in the order of the calls. *)
Inductive tag_severity := WARNING | INFO | SILENT.

Record diagnostics_graph := mkGraph {
  colors : list String.string;
  text : String.string;
  tags : list (tag_severity * String.string)
}.

Definition set_color (g : diagnostics_graph) (name : String.string) :=
  mkGraph (colors g ++ [name]) (text g) (tags g).
Definition set_text (g : diagnostics_graph) (t : String.string) :=
  mkGraph (colors g) t (tags g).
Definition set_tag (g : diagnostics_graph) (s : tag_severity) (name : String.string) :=
  mkGraph (colors g) (text g) (tags g ++ [(s, name)]).

(** [std::future<bool>]. *)
Inductive future (A : Type) := ready (a : A) | not_ready.
Arguments ready {A}.
Arguments not_ready {A}.
Definition make_ready_future {A : Type} (a : A) : future A := ready a.

(** A started [std::thread]: what the lambda captured by value. *)
Record thread := mkThread {
  thread_format_desc : video_format_desc
}.

Record consumer := mkConsumer {
  channel_index_ : Z;
  format_desc_ : video_format_desc;
  realtime_ : bool;
  graph_ : diagnostics_graph;
  path_ : String.string;
  args_ : String.string;
  frame_buffer_ : bounded_queue const_frame;
  frame_thread_ : option thread
}.

Definition joinable (t : option thread) : bool :=
  match t with Some _ => true | None => false end.

Definition default_format_desc : video_format_desc :=
  mkFormatDesc 0 0 0 0 0 0 (0, 0) 0 0.

Section Consumer.

(** [boost::crc_16_type] over the bytes of the path. *)
Variable crc_16 : String.string -> Z.

Definition ffmpeg_consumer_ctor (path args : String.string) (realtime : bool)
  : consumer :=
  mkConsumer (crc_16 path) default_format_desc realtime
             (set_color (set_color (mkGraph [] "" []) "frame-time") "dropped-frame")
             path args
             (mkQueue (if realtime then 1 else 128) [])
             None.

Definition print (c : consumer) : String.string :=
  String.append "ffmpeg[" (String.append (path_ c) "]").

(** [initialize]; the body of the thread it starts is [frame_thread] below. *)
Definition initialize (c : consumer) (format_desc : video_format_desc)
    (channel_index : Z) : result unit * consumer :=
  if joinable (frame_thread_ c) then
    (Throw (invalid_operation "Cannot reinitialize ffmpeg-consumer."), c)
  else
    let c1 := mkConsumer channel_index format_desc (realtime_ c) (graph_ c)
                         (path_ c) (args_ c) (frame_buffer_ c) (frame_thread_ c) in
    (Ok tt,
     mkConsumer (channel_index_ c1) (format_desc_ c1) (realtime_ c1)
                (set_text (graph_ c1) (print c1)) (path_ c1) (args_ c1)
                (frame_buffer_ c1) (Some (mkThread format_desc))).

(** [send]. *)
Definition send (c : consumer) (frame : const_frame) : future bool * consumer :=
  let '(pushed, q) := try_push (frame_buffer_ c) frame in
  let g :=
    if negb pushed then set_tag (graph_ c) WARNING "dropped-frame" else graph_ c in
  (make_ready_future true,
   mkConsumer (channel_index_ c) (format_desc_ c) (realtime_ c) g
              (path_ c) (args_ c) q (frame_thread_ c)).

Definition index (c : consumer) : Z := 100000 + channel_index_ c.

(** [~ffmpeg_consumer], up to the join: a started thread is offered the
    empty frame with [try_push]. *)
Definition destructor_push (c : consumer) : consumer :=
  if joinable (frame_thread_ c) then
    mkConsumer (channel_index_ c) (format_desc_ c) (realtime_ c) (graph_ c)
               (path_ c) (args_ c) (snd (try_push (frame_buffer_ c) None))
               (frame_thread_ c)
  else c.

(** [send] called for each frame in turn, with no pop in between. *)
Definition send_frames (c : consumer) (frames : list const_frame) : consumer :=
  fold_left (fun c f => snd (send c f)) frames c.

(** [boost::iequals] in the classic locale: equal up to the case of the
    ASCII letters. *)
Definition to_upper (c : Ascii.ascii) : Ascii.ascii :=
  let n := Ascii.nat_of_ascii c in
  if Nat.leb 97 n && Nat.leb n 122 then Ascii.ascii_of_nat (n - 32) else c.

Fixpoint iequals (a b : String.string) : bool :=
  match a, b with
  | String.EmptyString, String.EmptyString => true
  | String.String x a', String.String y b' =>
      Ascii.eqb (to_upper x) (to_upper y) && iequals a' b'
  | _, _ => false
  end.

(** [create_consumer].  The parameters are wide strings in the source and
    [u8] turns them into UTF-8; here they are strings from the start.
    [core::frame_consumer::empty()] is [None]. *)
Definition create_consumer (params : list String.string) : option consumer :=
  match params with
  | p0 :: p1 :: rest =>
      if negb (iequals p0 "STREAM") && negb (iequals p0 "FILE") then None
      else Some (ffmpeg_consumer_ctor p1 (String.concat " " rest)
                                      (iequals p0 "STREAM"))
  | _ => None
  end.

(** The "dropped-frame" signals recorded on the diagnostics graph. *)
Definition dropped_frames (c : consumer) : nat :=
  length (filter (fun t => String.eqb (snd t) "dropped-frame") (tags (graph_ c))).

(** The calls a client makes on a consumer. *)
Inductive call :=
| call_initialize (format_desc : video_format_desc) (channel_index : Z)
| call_send (frame : const_frame).

(** Runs the calls in order; for each [initialize], whether it returned. *)
Fixpoint run_calls (c : consumer) (calls : list call) : list bool * consumer :=
  match calls with
  | [] => ([], c)
  | call_initialize fd ci :: rest =>
      let '(r, c') := initialize c fd ci in
      let '(log, c'') := run_calls c' rest in
      (match r with Ok _ => true | _ => false end :: log, c'')
  | call_send f :: rest => run_calls (snd (send c f)) rest
  end.

End Consumer.

(** ** The thread [initialize] starts *)

Section FrameThread.

Context {G E OC : Type}.
Variable L : libav G E OC.

(** The two regular expressions over [args_] and [path_] and the file system
    calls before the [try] block are taken as given: the option map parsed
    from the arguments, and the full path. *)
Variable parse_args : String.string -> options.
Variable full_path : String.string -> String.string.

Record session := mkSession {
  oc : AVFormatContext OC;
  video_stream : option (Stream G E);
  audio_stream : option (Stream G E);
  unused_options : options
}.

Definition open_stream (o : AVFormatContext OC) (suffix : String.string)
    (codec_id : AVCodecID) (format_desc : video_format_desc) (opts : options)
  : result (option (Stream G E)) * (options * AVFormatContext OC) :=
  if codec_id =? AV_CODEC_ID_NONE then (Ok None, (opts, o))
  else
    let '(r, (opts', o', _)) := Stream_ctor L o suffix codec_id format_desc opts in
    (match r with
     | Ok s => Ok (Some s)
     | Throw e => Throw e
     | OutOfFuel => OutOfFuel
     end, (opts', o')).

(** From the [try] to the start of the packet thread: the container is
    allocated, the two streams are built, the I/O is opened unless the format
    has none, and the header is written. *)
Definition open_container (path args : String.string)
    (format_desc : video_format_desc) : result session :=
  let opts := parse_args args in
  let '(format, opts) :=
    match map_find "format" opts with
    | Some v => (v, map_erase "format" opts)
    | None => ("", opts)
    end in
  let '(r, fmt, o) :=
    avformat_alloc_output_context2 L
      (if is_empty format then None else Some format) path in
  if r <? 0 then Throw (ffmpeg_error_t (AVUNERROR r) "") else
  let o := mkFormatContext fmt o in
  let '(rv, (opts, o)) :=
    open_stream o ":v" (video_codec (oformat o)) format_desc opts in
  match rv with
  | Throw e => Throw e
  | OutOfFuel => OutOfFuel
  | Ok video =>
      let '(ra, (opts, o)) :=
        open_stream o ":a" (audio_codec (oformat o)) format_desc opts in
      match ra with
      | Throw e => Throw e
      | OutOfFuel => OutOfFuel
      | Ok audio =>
          let '(r, opts, st) :=
            if negb (has_flag o AVFMT_NOFILE) then
              let '(r, dict, st) :=
                avio_open2 L (oc_state o) (full_path path) (to_dict opts) in
              (r, to_map dict, st)
            else (0, opts, oc_state o) in
          if r <? 0 then Throw (ffmpeg_error_t (AVUNERROR r) "") else
          let '(r, dict, st) := avformat_write_header L st (to_dict opts) in
          if r <? 0 then Throw (ffmpeg_error_t (AVUNERROR r) "") else
          Ok (mkSession (mkFormatContext (oformat o) st) video audio (to_map dict))
      end
  end.

(** [stream->send(frame, format_desc, packet_cb)] on a stream that may be
    absent; the packets are the arguments of [packet_cb], in order. *)
Definition send_to (fuel : nat) (s : option (Stream G E)) (frame : const_frame)
    (format_desc : video_format_desc)
  : result unit * option (Stream G E) * list AVPacket :=
  match s with
  | None => (Ok tt, None, [])
  | Some s =>
      let '(r, (s', tr)) := Stream_send L fuel frame format_desc (s, []) in
      (r, Some s', packets_of tr)
  end.

(** How the [while (true)] loop of the media thread stands once the frames
    given are used up: left by [break], or blocked in [frame_buffer_.pop]. *)
Inductive loop_end := Exited | Waiting.

(** The loop of the media thread over the frames it pops, in order.  The
    third component lists what it pushes on the packet queue: every packet
    the callbacks get and the null packet before [break].  Neither stream
    looks at the packet queue, so the pushes can be listed ahead of the
    interleaving with the packet thread. *)
Fixpoint frame_loop (fuel : nat) (frames : list const_frame)
    (video audio : option (Stream G E)) (format_desc : video_format_desc)
  : result loop_end * (option (Stream G E) * option (Stream G E))
    * list (option AVPacket) :=
  match frames with
  | [] => (Ok Waiting, (video, audio), [])
  | frame :: rest =>
      let '(rv, video', pv) := send_to fuel video frame format_desc in
      match rv with
      | Throw e => (Throw e, (video', audio), map Some pv)
      | OutOfFuel => (OutOfFuel, (video', audio), map Some pv)
      | Ok _ =>
          let '(ra, audio', pa) := send_to fuel audio frame format_desc in
          match ra with
          | Throw e => (Throw e, (video', audio'), map Some (pv ++ pa))
          | OutOfFuel => (OutOfFuel, (video', audio'), map Some (pv ++ pa))
          | Ok _ =>
              match frame with
              | None => (Ok Exited, (video', audio'), map Some (pv ++ pa) ++ [None])
              | Some _ =>
                  let '(r, streams, ps) :=
                    frame_loop fuel rest video' audio' format_desc in
                  (r, streams, map Some (pv ++ pa) ++ ps)
              end
          end
      end
  end.

(** *** The packet thread *)

(** The container calls of the packet thread, each with the code returned. *)
Inductive writer_event :=
| W_write_frame (pkt : AVPacket) (r : Z)
| W_write_trailer (r : Z)
| W_closep (r : Z).

Inductive writer_status := Writing | Finished | Aborted.

Record packet_writer := mkWriter {
  status : writer_status;
  writer_oc : AVFormatContext OC;
  writer_log : list writer_event
}.

Definition on_container (c : AVFormatContext OC) (f : OC -> Z * OC)
  : Z * AVFormatContext OC :=
  let '(r, o) := f (oc_state c) in
  (r, mkFormatContext (oformat c) o).

(** What the packet thread does with one popped item: a packet is written; the
    null packet ends the loop, the trailer is written and the I/O is closed
    unless the format has none.  A negative code is thrown and caught by the
    thread's [catch (...)], which leaves the thread. *)
Definition writer_take (w : packet_writer) (item : option AVPacket)
  : packet_writer :=
  match status w with
  | Writing =>
      match item with
      | Some pkt =>
          let '(r, o) :=
            on_container (writer_oc w)
                         (fun o => av_interleaved_write_frame L o pkt) in
          mkWriter (if r <? 0 then Aborted else Writing) o
                   (writer_log w ++ [W_write_frame pkt r])
      | None =>
          let '(r, o) := on_container (writer_oc w) (av_write_trailer L) in
          if r <? 0 then mkWriter Aborted o (writer_log w ++ [W_write_trailer r])
          else if negb (has_flag o AVFMT_NOFILE) then
            let '(r2, o2) := on_container o (avio_closep L) in
            mkWriter (if r2 <? 0 then Aborted else Finished) o2
                     (writer_log w ++ [W_write_trailer r; W_closep r2])
          else mkWriter Finished o (writer_log w ++ [W_write_trailer r])
      end
  | _ => w
  end.

(** The packet thread fed a list of items in order. *)
Definition writer_feed (w : packet_writer) (its : list (option AVPacket))
  : packet_writer :=
  fold_left writer_take its w.

Definition trailer_calls (log : list writer_event) : nat :=
  length (filter (fun e => match e with W_write_trailer _ => true | _ => false end) log).

Definition closep_calls (log : list writer_event) : nat :=
  length (filter (fun e => match e with W_closep _ => true | _ => false end) log).

Definition eof_packets (its : list (option AVPacket)) : nat :=
  length (filter (fun i => match i with None => true | Some _ => false end) its).

(** The packets among the items pushed on the packet queue, and the packets
    the packet thread handed to [av_interleaved_write_frame], in order. *)
Definition packets_in (its : list (option AVPacket)) : list AVPacket :=
  flat_map (fun i => match i with Some p => [p] | None => [] end) its.

Definition written_packets (log : list writer_event) : list AVPacket :=
  flat_map (fun e => match e with W_write_frame p _ => [p] | _ => [] end) log.

(** *** The two threads around the packet queue *)

(** Where the media thread stands after the packet thread is started. *)
Inductive media_pc :=
| Sending (pending : list (option AVPacket)) (ending : result loop_end)
| Exit_push
| Exit_abort
| Joining
| Returned.

Record pipeline := mkPipeline {
  media : media_pc;
  packet_buffer : bounded_queue (option AVPacket);
  writer : packet_writer;
  enqueued : list (option AVPacket)
}.

(** [packet_buffer.abort()] wakes the threads blocked on the queue at that
    moment with [tbb::user_abort].  The media thread is blocked when it has a
    push to make and the queue is full; the exception leaves [send] and the
    loop, to the scope exit.  The packet thread is blocked when the queue is
    empty; its [catch (...)] ends it. *)
Definition abort_wakes_push (q : bounded_queue (option AVPacket)) (m : media_pc)
  : media_pc :=
  match m with
  | Sending (_ :: _) _ => if is_full q then Exit_push else m
  | _ => m
  end.

Definition abort_wakes_pop (q : bounded_queue (option AVPacket))
    (w : packet_writer) : packet_writer :=
  match status w, items q with
  | Writing, [] => mkWriter Aborted (writer_oc w) (writer_log w)
  | _, _ => w
  end.

Definition aborting (before after : packet_writer) : bool :=
  match status before, status after with
  | Writing, Aborted => true
  | _, _ => false
  end.

(** One atomic step of either thread. *)
Inductive step : pipeline -> pipeline -> Prop :=
| step_push : forall x rest e q q' w h,
    push q x = Some q' ->
    step (mkPipeline (Sending (x :: rest) e) q w h)
         (mkPipeline (Sending rest e) q' w (h ++ [x]))
| step_break : forall q w h,
    step (mkPipeline (Sending [] (Ok Exited)) q w h)
         (mkPipeline Joining q w h)
| step_throw : forall ex q w h,
    step (mkPipeline (Sending [] (Throw ex)) q w h)
         (mkPipeline Exit_push q w h)
| step_exit_push : forall q q' w h,
    push q None = Some q' ->
    step (mkPipeline Exit_push q w h)
         (mkPipeline Exit_abort q' w (h ++ [None]))
| step_exit_abort : forall q w h,
    step (mkPipeline Exit_abort q w h)
         (mkPipeline Joining q (abort_wakes_pop q w) h)
| step_join : forall q w h,
    status w <> Writing ->
    step (mkPipeline Joining q w h)
         (mkPipeline Returned q w h)
| step_pop : forall m x q q' w h,
    status w = Writing ->
    pop q = Some (x, q') ->
    step (mkPipeline m q w h)
         (mkPipeline (if aborting w (writer_take w x)
                      then abort_wakes_push q' m else m)
                     q' (writer_take w x) h).

(** Executions: any number of steps, in any interleaving. *)
Inductive steps : pipeline -> pipeline -> Prop :=
| steps_refl : forall s, steps s s
| steps_step : forall s t u, step s t -> steps t u -> steps s u.

(** A state no thread can leave. *)
Definition stuck (s : pipeline) : Prop := forall t, ~ step s t.

(** The state in which the media thread enters its loop: the packet queue
    holds 128 packets and is empty, the packet thread is in its first pop. *)
Definition start (o : AVFormatContext OC) (pushes : list (option AVPacket))
    (ending : result loop_end) : pipeline :=
  mkPipeline (Sending pushes ending) (mkQueue 128 [])
             (mkWriter Writing o []) [].

(** The pushes the media thread still has to make in its loop. *)
Definition pending (m : media_pc) : list (option AVPacket) :=
  match m with
  | Sending p _ => p
  | _ => []
  end.

(** What holds in every state of a run whose frame loop is left by [break]
    having pushed [pushes]: the packet thread has taken a prefix of [pushes]
    in order, the queue holds the next ones, the media thread the rest. *)
Record invariant (w0 : packet_writer) (pushes : list (option AVPacket))
    (s : pipeline) : Prop := mkInvariant {
  inv_taken : exists taken,
    taken ++ items (packet_buffer s) ++ pending (media s) = pushes /\
    writer s = writer_feed w0 taken /\
    enqueued s = taken ++ items (packet_buffer s);
  inv_capacity : capacity (packet_buffer s) = 128;
  inv_length : (length (items (packet_buffer s)) <= 128)%nat;
  inv_media : (exists p, media s = Sending p (Ok Exited)) \/
              media s = Joining \/ media s = Returned
}.

(** What holds in every state of a run, however the frame loop ended: the
    packet thread has taken what was enqueued and is no longer in the queue,
    and the media thread has enqueued the pushes of the frame loop up to where
    it stands, with the null packet of the scope exit after them on the way
    out of an exception. *)
Definition run_invariant (o : AVFormatContext OC)
    (pushes : list (option AVPacket)) (ending : result loop_end)
    (s : pipeline) : Prop :=
  capacity (packet_buffer s) = 128 /\
  (length (items (packet_buffer s)) <= 128)%nat /\
  (media s = Returned -> status (writer s) <> Writing) /\
  (exists taken,
     enqueued s = taken ++ items (packet_buffer s) /\
     writer s = writer_feed (mkWriter Writing o []) taken) /\
  match media s with
  | Sending p e => e = ending /\ enqueued s ++ p = pushes
  | Exit_push => (exists ex, ending = Throw ex) /\ enqueued s = pushes
  | Exit_abort => (exists ex, ending = Throw ex) /\ enqueued s = pushes ++ [None]
  | Joining | Returned =>
      (ending = Ok Exited /\ enqueued s = pushes) \/
      ((exists ex, ending = Throw ex) /\ enqueued s = pushes ++ [None])
  end.

(** A bound on the steps a state has left. *)
Definition measure (s : pipeline) : nat :=
  (match media s with
   | Sending p _ => 2 * length p + 5
   | Exit_push => 4
   | Exit_abort => 2
   | Joining => 1
   | Returned => 0
   end + length (items (packet_buffer s)))%nat.

(** One scheduler: the media thread when it can move, else the packet
    thread. *)
Definition pop_step (s : pipeline) : option pipeline :=
  match status (writer s), pop (packet_buffer s) with
  | Writing, Some (x, q') =>
      Some (mkPipeline
              (if aborting (writer s) (writer_take (writer s) x)
               then abort_wakes_push q' (media s) else media s)
              q' (writer_take (writer s) x) (enqueued s))
  | _, _ => None
  end.

Definition next (s : pipeline) : option pipeline :=
  match media s with
  | Sending (x :: rest) e =>
      match push (packet_buffer s) x with
      | Some q' => Some (mkPipeline (Sending rest e) q' (writer s) (enqueued s ++ [x]))
      | None => pop_step s
      end
  | Sending [] (Ok Exited) =>
      Some (mkPipeline Joining (packet_buffer s) (writer s) (enqueued s))
  | Sending [] (Throw _) =>
      Some (mkPipeline Exit_push (packet_buffer s) (writer s) (enqueued s))
  | Sending [] _ => pop_step s
  | Exit_push =>
      match push (packet_buffer s) None with
      | Some q' => Some (mkPipeline Exit_abort q' (writer s) (enqueued s ++ [None]))
      | None => pop_step s
      end
  | Exit_abort =>
      Some (mkPipeline Joining (packet_buffer s)
                       (abort_wakes_pop (packet_buffer s) (writer s)) (enqueued s))
  | Joining =>
      match status (writer s) with
      | Writing => pop_step s
      | _ => Some (mkPipeline Returned (packet_buffer s) (writer s) (enqueued s))
      end
  | Returned => pop_step s
  end.

(** The scheduler run for [n] steps. *)
Fixpoint run (n : nat) (s : pipeline) : pipeline :=
  match n with
  | O => s
  | S n' =>
      match next s with
      | Some t => run n' t
      | None => s
      end
  end.

(** The end the specification describes. *)
Definition finalized (pushes : list (option AVPacket)) (t : pipeline) : Prop :=
  media t = Returned /\
  enqueued t = pushes /\
  items (packet_buffer t) = [] /\
  status (writer t) = Finished /\
  trailer_calls (writer_log (writer t)) = 1%nat /\
  closep_calls (writer_log (writer t))
  = (if has_flag (writer_oc (writer t)) AVFMT_NOFILE then 0 else 1)%nat.

End FrameThread.

End ffmpeg_consumer.

(** * A small libav, to run the definitions on

    The picture layout of libavutil ([av_image_check_size],
    [av_image_fill_linesizes] and [av_image_fill_pointers], which
    [avpicture_fill] calls in this order), and concrete stand-ins for the
    other libav calls, used to evaluate the code on inputs: a decoder that
    finishes a frame per packet, filters that know their pad types, a filter
    graph and an encoder that pass frames through in order. *)

Module decoder_model.

Import video_decoder.

Definition ceil_shift (x : Z) (s : Z) : Z := Z.shiftr (x + Z.shiftl 1 s - 1) s.

(** Chroma shifts (horizontal, vertical) of the planar formats. *)
Definition chroma_shift (pix : PixelFormat) : Z * Z :=
  match pix with
  | PIX_FMT_YUV444P => (0, 0)
  | PIX_FMT_YUV422P => (1, 0)
  | PIX_FMT_YUV420P | PIX_FMT_YUVA420P => (1, 1)
  | PIX_FMT_YUV411P => (2, 0)
  | PIX_FMT_YUV410P => (2, 2)
  | _ => (0, 0)
  end.

(** [av_image_check_size]: the sizes libav describes a picture for. *)
Definition av_image_check_size (w h : Z) : bool :=
  (0 <? w) && (0 <? h) && ((w + 128) * (h + 128) <? INT_MAX / 8).

(** A picture with every field written, and one with none. *)
Definition filled (data linesizes : list Z) : AVPicture :=
  mkAVPicture (map Some data) (map Some linesizes).

Definition unfilled : AVPicture :=
  mkAVPicture [None; None; None; None] [None; None; None; None].

(** [avpicture_fill] for the formats the resolver reads the picture of: a
    size that [av_image_check_size] refuses makes the call return its error
    before it writes a field. *)
Definition avpicture_fill (pix : PixelFormat) (w h : Z) : AVPicture :=
  if av_image_check_size w h then
    match get_pixel_format pix with
    | gray => filled [0; 0; 0; 0] [w; 0; 0; 0]
    | bgra | argb | rgba | abgr => filled [0; 0; 0; 0] [4 * w; 0; 0; 0]
    | ycbcr =>
        let cw := ceil_shift w (fst (chroma_shift pix)) in
        let ch := ceil_shift h (snd (chroma_shift pix)) in
        filled [0; w * h; w * h + cw * ch; 0] [w; cw; cw; 0]
    | ycbcra =>
        let cw := ceil_shift w (fst (chroma_shift pix)) in
        let ch := ceil_shift h (snd (chroma_shift pix)) in
        filled [0; w * h; w * h + cw * ch; w * h + 2 * (cw * ch)] [w; cw; cw; w]
    | invalid => filled [0; 0; 0; 0] [0; 0; 0; 0]
    end
  else unfilled.

(** The packet source: a list of queued packets. *)
Definition input := (list (option AVPacket) * PixelFormat)%type.

Definition try_pop_video_packet (i : input) : option (option AVPacket) * input :=
  match fst i with
  | [] => (None, i)
  | p :: rest => (Some p, (rest, snd i))
  end.

(** The decoder: every packet is one finished frame of one plane holding the
    packet's bytes; the state counts the packets decoded since the last flush. *)
Definition avcodec_decode_video2 (c : nat) (pkt : AVPacket)
  : (Z * Z * AVFrame) * nat :=
  ((Z.of_nat (length (packet_data pkt)), 1,
    mkAVFrame [packet_data pkt] [Z.of_nat (length (packet_data pkt))]
              (packet_pts pkt) 0),
   S c).

Definition avcodec_flush_buffers (c : nat) : nat := O.

(** swscale: a context is refused for an empty picture. *)
Definition sws_getContext (w h : Z) (src : PixelFormat) (dw dh : Z)
    (dst : PixelFormat) : option unit :=
  if (0 <? w) && (0 <? h) then Some tt else None.

Definition sws_scale (_ : unit) (f : AVFrame) (h : Z) : list Z :=
  nth 0 (frame_data f) [].

Definition get_video_codec_context (i : input) : AVCodecContext nat :=
  mkCodecContext 720 576 (snd i) (CODEC_ID_other 0) O.

Definition packet (bytes : list Z) : AVPacket := mkAVPacket bytes 0 0 0.

(** A decoder as its constructor leaves it for a 720x576 BGRA stream with
    the packets [queued] waiting in the source. *)
Definition fresh_decoder (queued : list (option AVPacket))
  : implementation input nat unit :=
  mkImpl (queued, PIX_FMT_BGRA) None (mkFrameFactory progressive)
         (get_video_codec_context (queued, PIX_FMT_BGRA)) 720 576 PIX_FMT_BGRA
         (mkDesc bgra [plane_ctor 720 576 4]) 0.

(** A decoder that needs data: an empty packet completes no frame. *)
Definition avcodec_decode_nonempty (c : nat) (pkt : AVPacket)
  : (Z * Z * AVFrame) * nat :=
  match packet_data pkt with
  | [] => ((0, 0, mkAVFrame [] [] 0 0), c)
  | _ :: _ => avcodec_decode_video2 c pkt
  end.

(** A decoded picture of two rows of three bytes, each row padded to four,
    and a decoder whose only plane has rows of three bytes. *)
Definition padded_frame : AVFrame :=
  mkAVFrame [[1; 2; 3; 0; 4; 5; 6; 0]] [4] 0 0.

Definition gray_decoder : implementation input nat unit :=
  mkImpl ([], PIX_FMT_GRAY8) None (mkFrameFactory progressive)
         (mkCodecContext 12 2 PIX_FMT_GRAY8 (CODEC_ID_other 0) O) 12 2
         PIX_FMT_GRAY8 (mkDesc gray [plane_ctor 3 2 1]) 0.

End decoder_model.

Module consumer_model.

Import ffmpeg_consumer.

(** A filter context: the media types of its input and of its output pads. *)
Record filter_node := mkNode {
  in_pads : list AVMediaType;
  out_pads : list AVMediaType
}.

(** A graph: its filter contexts (the handle is the position), the frames
    between source and sink, and whether the source was closed. *)
Record graph_state := mkGraphState {
  nodes : list filter_node;
  fifo : list AVFrame;
  closed : bool
}.

Record encoder_state := mkEncoderState {
  packets : list AVPacket;
  flushing : bool
}.

Record container := mkContainer {
  n_streams : Z;
  written : list AVPacket;
  trailer_written : bool;
  io_open : bool
}.

Definition add_node (g : graph_state) (n : filter_node) : nat * graph_state :=
  (length (nodes g), mkGraphState (nodes g ++ [n]) (fifo g) (closed g)).

Definition V := AVMEDIA_TYPE_VIDEO.
Definition A := AVMEDIA_TYPE_AUDIO.

(** The filters the model knows, by name. *)
Definition filter_by_name (name : String.string) : option filter_node :=
  if String.eqb name "null" then Some (mkNode [V] [V])
  else if String.eqb name "anull" then Some (mkNode [A] [A])
  else if String.eqb name "showwaves" then Some (mkNode [A] [V])
  else if String.eqb name "split" then Some (mkNode [V] [V; V])
  else if String.eqb name "nullsrc" then Some (mkNode [] [V])
  else if String.eqb name "nullsink" then Some (mkNode [V] [])
  else if String.eqb name "buffer" then Some (mkNode [] [V])
  else if String.eqb name "abuffer" then Some (mkNode [] [A])
  else if String.eqb name "buffersink" then Some (mkNode [V] [])
  else if String.eqb name "abuffersink" then Some (mkNode [A] [])
  else None.

Definition pads_of (ctx : nat) (pads : list AVMediaType) : list AVFilterInOut :=
  map (fun i => mkInOut ctx (Z.of_nat i) (nth i pads AVMEDIA_TYPE_UNKNOWN))
      (seq 0 (length pads)).

(** A spec that names one filter: its open pads are all its pads. *)
Definition graph_parse2 (g : graph_state) (spec : String.string)
  : Z * list AVFilterInOut * list AVFilterInOut * graph_state :=
  match filter_by_name spec with
  | Some n =>
      let '(ctx, g') := add_node g n in
      (0, pads_of ctx (in_pads n), pads_of ctx (out_pads n), g')
  | None => (AVERROR EINVAL, [], [], g)
  end.

Definition graph_create_filter (g : graph_state) (name inst : String.string)
    (args : option String.string) : Z * nat * graph_state :=
  match filter_by_name name with
  | Some n => let '(ctx, g') := add_node g n in (0, ctx, g')
  | None => (AVERROR EINVAL, O, g)
  end.

Definition type_of_pad (pads : list AVMediaType) (i : Z) : AVMediaType :=
  nth (Z.to_nat i) pads AVMEDIA_TYPE_UNKNOWN.

Definition node_at (g : graph_state) (ctx : nat) : filter_node :=
  nth ctx (nodes g) (mkNode [] []).

(** [avfilter_link] refuses pads of different media types. *)
Definition graph_link (g : graph_state) (src : nat) (srcpad : Z) (dst : nat)
    (dstpad : Z) : Z * graph_state :=
  if media_type_eqb (type_of_pad (out_pads (node_at g src)) srcpad)
                    (type_of_pad (in_pads (node_at g dst)) dstpad)
     && negb (media_type_eqb (type_of_pad (out_pads (node_at g src)) srcpad)
                             AVMEDIA_TYPE_UNKNOWN)
  then (0, g) else (AVERROR EINVAL, g).

Definition rawvideo : AVCodec :=
  mkAVCodec "rawvideo" AVMEDIA_TYPE_VIDEO false [30] [] [] [].
Definition pcm_s32le : AVCodec :=
  mkAVCodec "pcm_s32le" AVMEDIA_TYPE_AUDIO true [] [2] [3] [48000].

Definition find_encoder (id : AVCodecID) : option AVCodec :=
  if id =? 13 then Some rawvideo
  else if id =? 65544 then Some pcm_s32le
  else None.

Definition find_encoder_by_name (name : String.string) : option AVCodec :=
  if String.eqb name "rawvideo" then Some rawvideo
  else if String.eqb name "pcm_s32le" then Some pcm_s32le
  else None.

Definition empty_encoder (c : AVCodec) : AVCodecContext encoder_state :=
  mkEnc (type c) 0 0 (0, 1) (0, 1) (0, 1) 0 0 0 0 0 0 (mkEncoderState [] false).

(** The frame the model makes of a server frame carries a [pts] of its own
    and, for audio, one sample per entry of the frame's audio. *)
Definition video_frame (f : frame_payload) (_ : video_format_desc) : AVFrame :=
  mkAVFrame [image f] [Z.of_nat (length (image f))] 90000 0.
Definition audio_frame (f : frame_payload) (_ : video_format_desc) : AVFrame :=
  mkAVFrame [audio f] [Z.of_nat (length (audio f))] 90000
            (Z.of_nat (length (audio f))).

Definition buffersrc_write_frame (g : graph_state) (src : nat)
    (f : option AVFrame) : Z * graph_state :=
  match f with
  | Some f => (0, mkGraphState (nodes g) (fifo g ++ [f]) (closed g))
  | None => (AVERROR EINVAL, g)
  end.

Definition buffersrc_close (g : graph_state) (src : nat) (at_pts : Z)
  : Z * graph_state :=
  (0, mkGraphState (nodes g) (fifo g) true).

Definition blank_packet : AVPacket := mkAVPacket [] 0 0 0.

Definition buffersink_get_frame (g : graph_state) (snk : nat)
  : Z * AVFrame * graph_state :=
  match fifo g with
  | f :: rest => (0, f, mkGraphState (nodes g) rest (closed g))
  | [] => (if closed g then AVERROR_EOF else AVERROR EAGAIN, blank_frame, g)
  end.

Definition receive_packet (e : AVCodecContext encoder_state)
  : Z * AVPacket * encoder_state :=
  match packets (enc_state e) with
  | p :: rest => (0, p, mkEncoderState rest (flushing (enc_state e)))
  | [] =>
      (if flushing (enc_state e) then AVERROR_EOF else AVERROR EAGAIN,
       blank_packet, enc_state e)
  end.

Definition send_frame (e : AVCodecContext encoder_state) (f : option AVFrame)
  : Z * encoder_state :=
  match f with
  | Some f =>
      (0, mkEncoderState
            (packets (enc_state e)
             ++ [mkAVPacket (nth 0 (frame_data f) []) 0 (frame_pts f) (frame_pts f)])
            (flushing (enc_state e)))
  | None => (0, mkEncoderState (packets (enc_state e)) true)
  end.

(** The container: the format named "null" has no file; [write_ret] is the
    code every [av_interleaved_write_frame] returns (0, or the error of a
    sink that no longer takes data). *)
Definition mov : AVOutputFormat := mkOutputFormat 13 65544 AVFMT_GLOBALHEADER.
Definition null_muxer : AVOutputFormat := mkOutputFormat 13 65544 AVFMT_NOFILE.

Definition alloc_output_context2 (format : option String.string)
    (path : String.string) : Z * AVOutputFormat * container :=
  match format with
  | Some f =>
      (0, if String.eqb f "null" then null_muxer else mov,
       mkContainer 0 [] false false)
  | None => (0, mov, mkContainer 0 [] false false)
  end.

Definition new_stream (o : container) : option AVStream * container :=
  (Some (mkAVStream (n_streams o) (0, 1) false),
   mkContainer (n_streams o + 1) (written o) (trailer_written o)
               (io_open o)).

Definition io_open2 (o : container) (path : String.string) (dict : options)
  : Z * options * container :=
  (0, dict, mkContainer (n_streams o) (written o) (trailer_written o) true).

Definition write_header (o : container) (dict : options)
  : Z * options * container := (0, dict, o).

Definition interleaved_write_frame (write_ret : Z) (o : container)
    (p : AVPacket) : Z * container :=
  if write_ret <? 0 then (write_ret, o)
  else (write_ret,
        mkContainer (n_streams o) (written o ++ [p])
                    (trailer_written o) (io_open o)).

Definition write_trailer (o : container) : Z * container :=
  (0, mkContainer (n_streams o) (written o) true (io_open o)).

Definition io_closep (o : container) : Z * container :=
  (0, mkContainer (n_streams o) (written o) (trailer_written o) false).

Definition libav_model (write_ret : Z)
  : libav graph_state encoder_state container :=
  mkLibav
    find_encoder find_encoder_by_name
    (Some (mkGraphState [] [] false))
    graph_parse2 graph_create_filter graph_link
    (fun g _ _ _ _ => (0, g))
    (fun g => (0, g))
    (fun _ _ => (25, 1)) (fun _ _ => 720) (fun _ _ => 576) (fun _ _ => (1, 1))
    (fun _ _ => 30) (fun _ _ => 48000) (fun _ _ => 2) (fun _ _ => 3)
    (fun g _ _ => g)
    (fun _ => 2) (fun _ => 3)
    new_stream
    (fun c => Some (empty_encoder c))
    (fun e _ dict => (0, dict, e))
    (fun s _ => (0, mkAVStream (st_index s) (st_time_base s) true))
    (fun _ _ => "video_size=720x576") (fun _ => "sample_rate=48000")
    video_frame audio_frame
    buffersrc_write_frame buffersrc_close buffersink_get_frame
    receive_packet send_frame
    (fun p _ _ => p)
    alloc_output_context2 io_open2 write_header
    (interleaved_write_frame write_ret) write_trailer io_closep.

Definition pal : video_format_desc :=
  mkFormatDesc 720 576 1024 576 1 25 (25, 1) 48000 2.

(** A QuickTime container fresh from its allocation, and the video and audio
    streams their constructors build on it with no options given. *)
Definition quicktime : AVFormatContext container :=
  mkFormatContext mov (mkContainer 0 [] false false).

Definition video_stream : Stream graph_state encoder_state :=
  mkStream (mkGraphState [mkNode [V] [V]; mkNode [] [V]; mkNode [V] []] [] false)
           2%nat 1%nat
           (mkEnc AVMEDIA_TYPE_VIDEO 720 576 (25, 1) (1, 1) (1, 25) 30 0 0 0 0
                  AV_CODEC_FLAG_GLOBAL_HEADER (mkEncoderState [] false))
           (mkAVStream 0 (1, 25) true) 0.

Definition audio_stream : Stream graph_state encoder_state :=
  mkStream (mkGraphState [mkNode [A] [A]; mkNode [] [A]; mkNode [A] []] [] false)
           2%nat 1%nat
           (mkEnc AVMEDIA_TYPE_AUDIO 0 0 (0, 1) (0, 1) (1, 48000) 30 48000 2 3 0
                  AV_CODEC_FLAG_GLOBAL_HEADER (mkEncoderState [] false))
           (mkAVStream 1 (1, 48000) true) 0.

(** Three server frames with 3, 1 and 2 audio samples. *)
Definition frame1 : frame_payload := mkFrame [1; 2] [10; 20; 30].
Definition frame2 : frame_payload := mkFrame [3] [40].
Definition frame3 : frame_payload := mkFrame [4; 5; 6] [50; 60].

Definition crc_16 (s : String.string) : Z := 0.
Definition parse_args (s : String.string) : options :=
  if is_empty s then [] else [("filter:v", s)].
Definition full_path (s : String.string) : String.string := s.


(** Two server frames and a realtime consumer fresh from its constructor. *)
Definition frame_a : const_frame := Some (mkFrame [1] [10]).
Definition frame_b : const_frame := Some (mkFrame [2] [20]).

Definition realtime_consumer : consumer :=
  ffmpeg_consumer_ctor consumer_model.crc_16 "udp://127.0.0.1:5004" "" true.


(** A QuickTime file after [avio_open2] and the header, and the "null"
    muxer, which has no file. *)
Definition opened_file : AVFormatContext container :=
  mkFormatContext mov (mkContainer 2 [] false true).
Definition opened_null : AVFormatContext container :=
  mkFormatContext null_muxer (mkContainer 2 [] false false).

(** The model with an encoder that refuses a frame without data. *)
Definition refusing_encoder : libav graph_state encoder_state container :=
  let L := libav_model 0 in
  let send_frame' :=
    fun (e : AVCodecContext encoder_state) (f : option AVFrame) =>
      match f with
      | Some (mkAVFrame ([] :: _) _ _ _) => (AVERROR EINVAL, enc_state e)
      | _ => send_frame e f
      end in
  mkLibav
    (avcodec_find_encoder L) (avcodec_find_encoder_by_name L)
    (avfilter_graph_alloc L) (avfilter_graph_parse2 L)
    (avfilter_graph_create_filter L) (avfilter_link L) (av_opt_set_int_list L)
    (avfilter_graph_config L) (av_buffersink_get_frame_rate L)
    (av_buffersink_get_w L) (av_buffersink_get_h L)
    (av_buffersink_get_sample_aspect_ratio L) (av_buffersink_get_format L)
    (av_buffersink_get_sample_rate L) (av_buffersink_get_channels L)
    (av_buffersink_get_channel_layout L) (av_buffersink_set_frame_size L)
    (av_get_channel_layout_nb_channels L) (av_get_default_channel_layout L)
    (avformat_new_stream L) (avcodec_alloc_context3 L) (avcodec_open2 L)
    (avcodec_parameters_from_context L) (video_buffer_args L)
    (audio_buffer_args L) (make_av_video_frame L) (make_av_audio_frame L)
    (av_buffersrc_write_frame L) (av_buffersrc_close L)
    (av_buffersink_get_frame L) (avcodec_receive_packet L) send_frame'
    (av_packet_rescale_ts L) (avformat_alloc_output_context2 L) (avio_open2 L)
    (avformat_write_header L) (av_interleaved_write_frame L)
    (av_write_trailer L) (avio_closep L).

End consumer_model.

(** * Properties *)

Lemma to_size_t_small z : 0 <= z < 2 ^ 64 -> to_size_t z = z.
Proof. intros H. unfold to_size_t. now apply Z.mod_small. Qed.

Lemma to_size_t_range z : 0 <= to_size_t z < 2 ^ 64.
Proof. unfold to_size_t. apply Z.mod_pos_bound. lia. Qed.

Lemma to_size_t_le z : 0 <= z -> to_size_t z <= z.
Proof. intros H. unfold to_size_t. apply Z.mod_le; lia. Qed.

Lemma to_int_small z : - 2 ^ 31 <= z < 2 ^ 31 -> to_int z = z.
Proof.
  intros H. unfold to_int.
  rewrite Z.mod_small by lia. lia.
Qed.

Lemma to_int64_small z : - 2 ^ 63 <= z < 2 ^ 63 -> to_int64 z = z.
Proof.
  intros H. unfold to_int64.
  rewrite Z.mod_small by lia. lia.
Qed.

(** ** Pixel format resolver and video decoder *)

Module decoder_properties.

Import video_decoder.

Lemma pixel_format_eqb_eq a b : pixel_format_eqb a b = true <-> a = b.
Proof. destruct a, b; simpl; split; congruence. Qed.

(** The resolver has a case for exactly the formats of [supported_formats]. *)
Lemma supported_iff pix :
  In pix supported_formats <-> get_pixel_format pix <> invalid.
Proof.
  unfold supported_formats; split.
  - simpl. intros H.
    repeat (destruct H as [<- | H]; [simpl; discriminate |]). contradiction.
  - destruct pix; simpl; intros H; try congruence; tauto.
Qed.

Section ResolverProperties.

Variable avpicture_fill : PixelFormat -> Z -> Z -> AVPicture.

Local Abbreviation resolve := (get_pixel_format_desc avpicture_fill).

Ltac resolve_cases :=
  unfold get_pixel_format_desc, read;
  repeat match goal with
         | |- context [match ?x with _ => _ end] => destruct x eqn:?
         end;
  try discriminate.

Lemma resolve_kind pix w h d :
  resolve pix w h = Some d -> pix_fmt d = get_pixel_format pix.
Proof.
  destruct (get_pixel_format pix) eqn:K; resolve_cases.
  all: rewrite ?K in *; try discriminate.
  all: intros [= <-]; cbn; congruence.
Qed.

Lemma resolve_plane_count pix w h d :
  resolve pix w h = Some d ->
  length (planes d) = documented_plane_count (get_pixel_format pix).
Proof.
  destruct (get_pixel_format pix) eqn:K; resolve_cases.
  all: rewrite ?K in *; try discriminate.
  all: intros [= <-]; cbn; congruence.
Qed.


(** The resolver reads the first line size of the picture for every format
    it has a case for: without it there is no descriptor. *)
Lemma resolve_needs_linesize pix w h :
  In pix supported_formats ->
  linesize_at (avpicture_fill pix (to_int w) (to_int h)) 0 = None ->
  resolve pix w h = None.
Proof.
  intros Hs Hl. apply supported_iff in Hs.
  unfold get_pixel_format_desc, read. rewrite Hl.
  destruct (get_pixel_format pix); try reflexivity; try contradiction.
  all: repeat match goal with
              | |- context [match ?x with _ => _ end] => destruct x
              end; reflexivity.
Qed.

End ResolverProperties.

Section DecoderProperties.

Variable avpicture_fill : PixelFormat -> Z -> Z -> AVPicture.
Context {input : Type}.
Variable try_pop_video_packet : input -> option (option AVPacket) * input.
Context {decoder : Type}.
Variable avcodec_decode_video2 : decoder -> AVPacket -> (Z * Z * AVFrame) * decoder.
Variable avcodec_flush_buffers : decoder -> decoder.
Context {SwsContext : Type}.
Variable sws_getContext :
  Z -> Z -> PixelFormat -> Z -> Z -> PixelFormat -> option SwsContext.
Variable sws_scale : SwsContext -> AVFrame -> Z -> list Z.
Variable get_video_codec_context : input -> AVCodecContext decoder.

Local Abbreviation impl := (implementation input decoder SwsContext).
Local Abbreviation resolve := (get_pixel_format_desc avpicture_fill).
Local Abbreviation construct :=
  (implementation_ctor avpicture_fill sws_getContext get_video_codec_context).
Local Abbreviation decode :=
  (decode (input := input) avcodec_decode_video2 avcodec_flush_buffers sws_scale).
Local Abbreviation decode_all :=
  (decode_all (input := input) avcodec_decode_video2 avcodec_flush_buffers
              sws_scale).
Local Abbreviation receive_loop :=
  (receive_loop try_pop_video_packet avcodec_decode_video2
                avcodec_flush_buffers sws_scale).
Local Abbreviation receive :=
  (receive try_pop_video_packet avcodec_decode_video2 avcodec_flush_buffers
           sws_scale).
Local Abbreviation yields_frame := (yields_frame avcodec_decode_video2).
Local Abbreviation all_yield_frames := (all_yield_frames avcodec_decode_video2).


(** A supported format needs no conversion context. *)
Lemma supported_format_direct (inp : input) (ff : frame_factory) :
  let cc := get_video_codec_context inp in
  In (ctx_pix_fmt cc) supported_formats ->
  forall desc,
    resolve (ctx_pix_fmt cc) (to_size_t (to_int (ctx_width cc)))
            (to_size_t (to_int (ctx_height cc))) = Some desc ->
    exists d : impl, construct inp ff = Some (inr d) /\ sws_context_ d = None /\
                     frame_number_ d = 0 /\ desc_ d = desc.
Proof.
  intros cc Hs desc Hd. apply decoder_properties.supported_iff in Hs.
  unfold implementation_ctor. fold cc. rewrite Hd.
  rewrite (decoder_properties.resolve_kind _ _ _ _ _ Hd).
  destruct (pixel_format_eqb _ invalid) eqn:K.
  - apply decoder_properties.pixel_format_eqb_eq in K. contradiction.
  - eexists. repeat split.
Qed.

Lemma decode_eof (d : impl) :
  decode None d =
  (inr [], set_codec_state d (avcodec_flush_buffers (ctx_state (codec_context_ d))) 0).
Proof. reflexivity. Qed.

(** One packet that yields a frame: the frame carries the counter, and the
    counter moves on by one. *)
Lemma decode_yielding (d : impl) (pkt : AVPacket) :
  yields_frame (ctx_state (codec_context_ d)) pkt ->
  exists w d',
    decode (Some pkt) d = (inr [(to_int (frame_number_ d), w)], d') /\
    frame_number_ d' = to_size_t (frame_number_ d + 1) /\
    ctx_state (codec_context_ d') =
    snd (avcodec_decode_video2 (ctx_state (codec_context_ d)) pkt).
Proof.
  unfold video_decoder.yields_frame, video_decoder.decode.
  destruct (avcodec_decode_video2 (ctx_state (codec_context_ d)) pkt)
    as [[[errn finished] frame] c].
  intros [He Hf].
  assert ((errn <? 0) = false) as -> by (apply Z.ltb_ge; lia).
  assert ((finished =? 0) = false) as -> by (now apply Z.eqb_neq).
  simpl. eexists. eexists. repeat split.
Qed.

Lemma decode_all_numbers (pkts : list AVPacket) :
  forall (d : impl),
    0 <= frame_number_ d ->
    frame_number_ d + Z.of_nat (length pkts) <= 2 ^ 31 ->
    all_yield_frames (ctx_state (codec_context_ d)) pkts ->
    exists frames d',
      decode_all (map Some pkts) d = (inr frames, d') /\
      map fst frames =
      map (fun i => frame_number_ d + Z.of_nat i) (seq 0 (length pkts)) /\
      frame_number_ d' = frame_number_ d + Z.of_nat (length pkts).
Proof.
  induction pkts as [| pkt rest IH]; intros d H0 Hn Hy.
  - exists [], d. simpl. repeat split. lia.
  - destruct Hy as [Hy Hrest].
    destruct (decode_yielding d pkt Hy) as (w & d1 & Hd & Hnum & Hst).
    simpl length in Hn.
    assert (frame_number_ d1 = frame_number_ d + 1) as Hnum'.
    { rewrite Hnum. apply to_size_t_small. lia. }
    destruct (IH d1) as (frames & d2 & Hall & Hmap & Hlast).
    + lia.
    + lia.
    + now rewrite Hst.
    + exists ((to_int (frame_number_ d), w) :: frames), d2.
      cbn [video_decoder.decode_all map]. rewrite Hd, Hall.
      repeat split.
      * cbn [app map fst length seq]. f_equal.
        -- rewrite to_int_small by lia. lia.
        -- rewrite Hmap. rewrite <- seq_shift. rewrite map_map.
           apply map_ext. intros i. lia.
      * simpl length. lia.
Qed.

(** C3. On a decoder whose counter is 0 (fresh, or just flushed), N packets
    that each yield a complete frame are decoded to N frames tagged 0, 1, ...,
    N-1 in that order.  The end-of-stream packet then returns no frame,
    flushes the codec state and sets the counter to 0, so that the next
    packet that yields a frame is tagged 0. *)
Theorem decode_sequence_numbers (d : impl) (pkts : list AVPacket) :
  frame_number_ d = 0 ->
  all_yield_frames (ctx_state (codec_context_ d)) pkts ->
  Z.of_nat (length pkts) <= 2 ^ 31 ->
  exists frames d1,
    decode_all (map Some pkts) d = (inr frames, d1) /\
    map fst frames = map Z.of_nat (seq 0 (length pkts)) /\
    exists d2,
      decode None d1 = (inr [], d2) /\
      ctx_state (codec_context_ d2) =
      avcodec_flush_buffers (ctx_state (codec_context_ d1)) /\
      frame_number_ d2 = 0 /\
      forall pkt, yields_frame (ctx_state (codec_context_ d2)) pkt ->
        exists w d3, decode (Some pkt) d2 = (inr [(0, w)], d3).
Proof.
  intros H0 Hy Hn.
  destruct (decode_all_numbers pkts d) as (frames & d1 & Hall & Hmap & _);
    try lia; try assumption.
  exists frames, d1. repeat split; try assumption.
  - rewrite Hmap. apply map_ext. intros i. lia.
  - eexists. rewrite decode_eof. repeat split.
    intros pkt Hp.
    destruct (decode_yielding _ pkt Hp) as (w & d3 & Hd & _).
    exists w, d3. exact Hd.
Qed.

(** [decode] returns at most one frame. *)
Lemma decode_at_most_one (pkt : option AVPacket) (d : impl) :
  match fst (decode pkt d) with
  | inr frames => (length frames <= 1)%nat
  | inl _ => True
  end.
Proof.
  unfold video_decoder.decode. destruct pkt as [pkt |]; [| simpl; lia].
  destruct (avcodec_decode_video2 _ pkt) as [[[errn finished] frame] c].
  destruct (errn <? 0); [exact I |].
  destruct (negb (finished =? 0)); simpl; lia.
Qed.

Lemma receive_loop_spec (budget : nat) :
  forall (result : list (Z * write_frame)) (d : impl),
    (length result <= 1)%nat ->
    let '(r, _, tr) := receive_loop budget result d in
    (length (filter is_popped tr) <= budget)%nat /\
    (result <> [] -> tr = []) /\
    stops_at_first_frame tr /\
    match r with
    | inr frames =>
        (length frames <= 1)%nat /\
        length frames = (length result + list_sum (map frames_of tr))%nat
    | inl _ => True
    end.
Proof.
  induction budget as [| b IH]; intros result d Hr.
  - simpl. repeat split; auto; lia.
  - cbn [video_decoder.receive_loop].
    destruct result as [| x result].
    + destruct (try_pop_video_packet (input_ d)) as [[pkt |] i].
      * pose proof (decode_at_most_one pkt (set_input d i)) as H1.
        destruct (decode pkt (set_input d i)) as [[e | frames] d'].
        -- simpl. repeat split; auto; try lia; intros; congruence.
        -- simpl in H1. specialize (IH ([] ++ frames) d' H1).
           destruct (receive_loop b ([] ++ frames) d') as [[r d''] tr].
           destruct IH as (Hlen & Hnil & Hlast & Hres).
           simpl app in *.
           split; [simpl; lia |].
           split; [congruence |].
           split.
           ++ destruct frames as [| f fs].
              ** destruct tr; simpl; auto.
                 repeat split; auto. discriminate.
              ** rewrite Hnil by discriminate. exact I.
           ++ destruct r as [e | out]; [exact I |].
              destruct Hres as [Ha Hb]. split; [exact Ha |].
              simpl. lia.
      * simpl. repeat split; auto; try lia; intros; congruence.
    + simpl. repeat split; auto; simpl in *; lia.
Qed.

(** C6. One call of [receive], from any state of the decoder and of the
    packet source: at most 32 packets are popped; the source is not asked
    again once a [decode] call has returned a frame or the source has reported
    that no packet is available (every event but the last is a popped packet
    that yielded no frame); and when the call returns, it returns at most one
    frame, the frames the popped packets yielded. *)
Theorem receive_pops_at_most_32 (d : impl) :
  let '(r, _, tr) := receive d in
  (length (filter is_popped tr) <= 32)%nat /\
  stops_at_first_frame tr /\
  match r with
  | inr frames =>
      (length frames <= 1)%nat /\ length frames = list_sum (map frames_of tr)
  | inl _ => True
  end.
Proof.
  pose proof (receive_loop_spec 32 [] d) as H.
  unfold video_decoder.receive.
  destruct (receive_loop 32 [] d) as [[r d'] tr].
  destruct H as (Hlen & _ & Hlast & Hres); [simpl; lia |].
  split; [exact Hlen |]. split; [exact Hlast |].
  destruct r as [e | frames]; [exact I |].
  simpl in Hres. exact Hres.
Qed.

End DecoderProperties.

(** *** The statements at concrete inputs *)

Example fresh_decoder_constructed :
  implementation_ctor decoder_model.avpicture_fill decoder_model.sws_getContext
    decoder_model.get_video_codec_context ([], PIX_FMT_BGRA)
    (mkFrameFactory progressive)
  = Some (inr (decoder_model.fresh_decoder [])).
Proof. reflexivity. Qed.

(** A PAL picture in BGRA: one plane of 576 rows of 2880 bytes. *)
Example pal_bgra_descriptor :
  get_pixel_format_desc decoder_model.avpicture_fill PIX_FMT_BGRA 720 576
  = Some (mkDesc bgra [mkPlane 2880 576 4]).
Proof. reflexivity. Qed.

Lemma ceil_shift_bounds (x s : Z) :
  0 <= s -> 0 <= x ->
  0 <= decoder_model.ceil_shift x s <= x /\
  (0 < x -> 0 < decoder_model.ceil_shift x s).
Proof.
  intros Hs Hx. unfold decoder_model.ceil_shift.
  rewrite Z.shiftr_div_pow2, Z.shiftl_1_l by assumption.
  assert (0 < 2 ^ s) as Hp by (apply Z.pow_pos_nonneg; lia).
  set (p := 2 ^ s) in *.
  repeat split.
  - apply Z.div_pos; lia.
  - assert ((x + p - 1) / p < x + 1); [| lia].
    apply Z.div_lt_upper_bound; nia.
  - intros H. apply Z.div_str_pos. lia.
Qed.

(** An [int] that is positive came from a [size_t] at least as large. *)
Lemma to_int_pos_le (h : Z) : 0 <= h -> 0 < to_int h -> to_int h <= h.
Proof.
  unfold to_int. intros Hh Hp.
  pose proof (Z.div_mod (h + 2 ^ 31) (2 ^ 32) ltac:(lia)) as E.
  assert (0 <= (h + 2 ^ 31) / 2 ^ 32) by (apply Z.div_pos; lia).
  lia.
Qed.

(** What [av_image_check_size] accepts. *)
Lemma accepted_size (w h : Z) :
  decoder_model.av_image_check_size w h = true ->
  0 < w < 2 ^ 28 /\ 0 < h < 2 ^ 28.
Proof.
  unfold decoder_model.av_image_check_size, INT_MAX.
  intros H. apply andb_prop in H as [H H3]. apply andb_prop in H as [H1 H2].
  apply Z.ltb_lt in H1, H2, H3.
  change ((2 ^ 31 - 1) / 8) with 268435455 in H3. nia.
Qed.

(** The division that finds the chroma height gives back the rows libav
    laid out. *)
Lemma chroma_rows (base cw ch : Z) :
  0 < cw < 2 ^ 28 -> 0 <= ch < 2 ^ 28 ->
  (to_size_t cw =? 0) = false /\
  to_size_t (base + cw * ch - base) / to_size_t cw = ch.
Proof.
  intros Hw Hh.
  rewrite (to_size_t_small cw) by lia.
  replace (base + cw * ch - base) with (ch * cw) by lia.
  rewrite to_size_t_small by nia.
  split; [apply Z.eqb_neq; lia | apply Z.div_mul; lia].
Qed.

Section LibavLayout.

Local Abbreviation resolve := (get_pixel_format_desc decoder_model.avpicture_fill).

(** C5 as the specification words it, for every width and height: libav
    describes no picture of an empty size, nor of a height that is negative
    as an [int].  [avpicture_fill] returns its error there before it writes a
    field of the picture; the resolver does not look at the code returned and
    reads the fields all the same, so it has no defined descriptor: not for
    4:2:0 at 0x0, nor at 16 by 2^32-2. *)
Theorem resolve_reads_unfilled_picture :
  resolve PIX_FMT_YUV420P 0 0 = None /\
  resolve PIX_FMT_YUV420P 16 (2 ^ 32 - 2) = None.
Proof. split; reflexivity. Qed.

(** C5, as the code has it, with the layout libav gives pictures.  For a
    format the resolver has a case for and a size libav accepts (positive as
    [int]s and within [av_image_check_size]) the descriptor is defined, has
    the kind of the format and the documented number of planes (1 for gray
    and the packed four-channel kinds, 3 for planar YCbCr, 4 for YCbCr with
    alpha), its first plane has the height given, and for the planar kinds
    both chroma planes have the rows libav laid out for them, the height
    shifted right by the vertical chroma shift and rounded up, which is at
    most the luma height.  For every other size the resolver has no defined
    descriptor. *)
Theorem resolve_follows_libav_layout (pix : PixelFormat) (w h : Z) :
  In pix supported_formats ->
  0 <= h < 2 ^ 64 ->
  if decoder_model.av_image_check_size (to_int w) (to_int h) then
    exists d,
      resolve pix w h = Some d /\
      pix_fmt d = get_pixel_format pix /\
      pix_fmt d <> invalid /\
      length (planes d) = documented_plane_count (pix_fmt d) /\
      luma_height d = h /\
      (pix_fmt d = ycbcr \/ pix_fmt d = ycbcra ->
       let rows :=
         decoder_model.ceil_shift (to_int h) (snd (decoder_model.chroma_shift pix)) in
       chroma_heights d = [rows; rows] /\ rows <= luma_height d)
  else resolve pix w h = None.
Proof.
  intros Hs Hh.
  destruct (decoder_model.av_image_check_size (to_int w) (to_int h)) eqn:Hc.
  2:{ apply decoder_properties.resolve_needs_linesize; [exact Hs |].
      unfold decoder_model.avpicture_fill. rewrite Hc. reflexivity. }
  destruct (accepted_size _ _ Hc) as [Hw' Hh'].
  pose proof (to_int_pos_le h (proj1 Hh) (proj1 Hh')) as Hle.
  assert (0 <= fst (decoder_model.chroma_shift pix)) as S1
    by (destruct pix; simpl; lia).
  assert (0 <= snd (decoder_model.chroma_shift pix)) as S2
    by (destruct pix; simpl; lia).
  destruct (ceil_shift_bounds (to_int w) _ S1 ltac:(lia)) as [[A1 A2] A3].
  destruct (ceil_shift_bounds (to_int h) _ S2 ltac:(lia)) as [[B1 B2] _].
  specialize (A3 ltac:(lia)).
  pose proof (fun base =>
    chroma_rows base
      (decoder_model.ceil_shift (to_int w) (fst (decoder_model.chroma_shift pix)))
      (decoder_model.ceil_shift (to_int h) (snd (decoder_model.chroma_shift pix)))
      ltac:(lia) ltac:(lia)) as Hrows.
  apply decoder_properties.supported_iff in Hs.
  unfold get_pixel_format_desc, decoder_model.avpicture_fill, read.
  rewrite Hc.
  destruct (get_pixel_format pix) eqn:K; try contradiction;
    cbn [decoder_model.filled map data_at linesize_at pict_data pict_linesize nth
         pixel_format_eqb].
  1-5: eexists; split; [reflexivity |];
       cbn [pix_fmt planes length documented_plane_count luma_height nth height
            plane_ctor];
       split; [reflexivity |]; split; [discriminate |]; split; [reflexivity |];
       split; [apply to_size_t_small; lia |];
       intros [D | D]; discriminate D.
  all: destruct (Hrows (to_int w * to_int h)) as [-> ->];
       eexists; split; [reflexivity |];
       cbn [pix_fmt planes length documented_plane_count luma_height nth height
            plane_ctor chroma_heights skipn firstn map app];
       split; [reflexivity |]; split; [discriminate |]; split; [reflexivity |];
       rewrite (to_size_t_small h) by lia;
       split; [reflexivity |]; intros _;
       rewrite to_size_t_small by lia;
       split; [reflexivity | lia].
Qed.

End LibavLayout.

(** PAL 4:2:0: three planes, chroma planes of 288 rows under 576 luma rows. *)
Lemma resolve_follows_libav_layout_witness :
  exists d,
    get_pixel_format_desc decoder_model.avpicture_fill PIX_FMT_YUV420P 720 576
    = Some d /\
    pix_fmt d = ycbcr /\
    length (planes d) = 3%nat /\
    luma_height d = 576 /\
    chroma_heights d = [288; 288].
Proof.
  assert (In PIX_FMT_YUV420P supported_formats) as Hs by (simpl; tauto).
  pose proof (resolve_follows_libav_layout PIX_FMT_YUV420P 720 576 Hs
                ltac:(lia)) as H.
  change (decoder_model.av_image_check_size (to_int 720) (to_int 576))
    with true in H.
  destruct H as (d & Hd & Hk & _ & Hn & Hl & Hp).
  exists d. split; [exact Hd |]. split; [exact Hk |].
  split; [rewrite Hn, Hk; reflexivity |]. split; [exact Hl |].
  destruct (Hp (or_introl Hk)) as [Hc _]. exact Hc.
Defined.


(** Two packets on a fresh decoder are numbered 0 and 1; after the
    end-of-stream packet the next one is numbered 0 again. *)
Lemma decode_sequence_numbers_witness :
  exists frames d1,
    decode_all decoder_model.avcodec_decode_video2
      decoder_model.avcodec_flush_buffers decoder_model.sws_scale
      [Some (decoder_model.packet [1; 2; 3]); Some (decoder_model.packet [4])]
      (decoder_model.fresh_decoder []) = (inr frames, d1) /\
    map fst frames = [0; 1] /\
    exists d2,
      decode decoder_model.avcodec_decode_video2
        decoder_model.avcodec_flush_buffers decoder_model.sws_scale None d1
      = (inr [], d2) /\
      frame_number_ d2 = 0.
Proof.
  assert (all_yield_frames decoder_model.avcodec_decode_video2
            (ctx_state (codec_context_ (decoder_model.fresh_decoder [])))
            [decoder_model.packet [1; 2; 3]; decoder_model.packet [4]]) as Hy.
  { simpl. repeat split; try lia; discriminate. }
  assert (Z.of_nat (length [decoder_model.packet [1; 2; 3]; decoder_model.packet [4]])
          <= 2 ^ 31) as Hn by (simpl; lia).
  destruct (decode_sequence_numbers decoder_model.avcodec_decode_video2
              decoder_model.avcodec_flush_buffers decoder_model.sws_scale
              (decoder_model.fresh_decoder [])
              [decoder_model.packet [1; 2; 3]; decoder_model.packet [4]]
              eq_refl Hy Hn)
    as (frames & d1 & Hall & Hmap & d2 & Heof & _ & Hz & _).
  exists frames, d1. repeat split; try assumption.
  exists d2. split; assumption.
Defined.

End decoder_properties.

(** ** ffmpeg consumer: the intake queue and [initialize] *)

Module consumer_properties.

Import ffmpeg_consumer.

Lemma try_push_full {A : Type} (q : bounded_queue A) (x : A) :
  is_full q = true -> try_push q x = (false, q).
Proof. intros H. unfold try_push. now rewrite H. Qed.

Lemma try_push_room {A : Type} (q : bounded_queue A) (x : A) :
  is_full q = false ->
  try_push q x = (true, mkQueue (capacity q) (items q ++ [x])).
Proof. intros H. unfold try_push. now rewrite H. Qed.

Lemma dropped_frames_set_tag (c : consumer) (g : diagnostics_graph) :
  graph_ c = set_tag g WARNING "dropped-frame" ->
  dropped_frames c = S (length (filter (fun t => String.eqb (snd t) "dropped-frame")
                                       (tags g))).
Proof.
  intros H. unfold dropped_frames. rewrite H. simpl.
  rewrite filter_app, length_app. simpl. lia.
Qed.

(** The two branches of [send]. *)
Lemma send_spec (c : consumer) (frame : const_frame) :
  (is_full (frame_buffer_ c) = true ->
   send c frame =
   (ready true,
    mkConsumer (channel_index_ c) (format_desc_ c) (realtime_ c)
               (set_tag (graph_ c) WARNING "dropped-frame")
               (path_ c) (args_ c) (frame_buffer_ c) (frame_thread_ c))) /\
  (is_full (frame_buffer_ c) = false ->
   send c frame =
   (ready true,
    mkConsumer (channel_index_ c) (format_desc_ c) (realtime_ c) (graph_ c)
               (path_ c) (args_ c)
               (mkQueue (capacity (frame_buffer_ c))
                        (items (frame_buffer_ c) ++ [frame]))
               (frame_thread_ c))).
Proof.
  unfold send. split; intros H.
  - rewrite try_push_full by assumption. reflexivity.
  - rewrite try_push_room by assumption. reflexivity.
Qed.

(** C10. For every consumer state and every frame, [send] returns a future
    that is ready and holds [true].  When the frame queue is full the frame is
    dropped: the queue and every other member stay as they are, and the only
    trace is one more "dropped-frame" tag on the diagnostics graph.  When
    there is room the frame is appended and no tag is set. *)
Theorem send_returns_ready_true (c : consumer) (frame : const_frame) :
  fst (send c frame) = ready true /\
  (is_full (frame_buffer_ c) = true ->
   snd (send c frame) =
   mkConsumer (channel_index_ c) (format_desc_ c) (realtime_ c)
              (set_tag (graph_ c) WARNING "dropped-frame")
              (path_ c) (args_ c) (frame_buffer_ c) (frame_thread_ c) /\
   dropped_frames (snd (send c frame)) = S (dropped_frames c)) /\
  (is_full (frame_buffer_ c) = false ->
   items (frame_buffer_ (snd (send c frame))) = items (frame_buffer_ c) ++ [frame] /\
   dropped_frames (snd (send c frame)) = dropped_frames c).
Proof.
  destruct (send_spec c frame) as [Full Room].
  split; [| split].
  - destruct (is_full (frame_buffer_ c)).
    + now rewrite Full.
    + now rewrite Room.
  - intros H. rewrite (Full H). cbn [snd]. split; [reflexivity |].
    now erewrite dropped_frames_set_tag by reflexivity.
  - intros H. rewrite (Room H). cbn [snd]. split; reflexivity.
Qed.

Lemma send_keeps_thread (c : consumer) (frame : const_frame) :
  frame_thread_ (snd (send c frame)) = frame_thread_ c.
Proof. unfold send. destruct (try_push _ _). reflexivity. Qed.

Lemma initialize_joinable (c : consumer) fd ci :
  joinable (frame_thread_ (snd (initialize c fd ci))) = true.
Proof.
  unfold initialize. destruct (joinable (frame_thread_ c)) eqn:J; simpl; auto.
Qed.

Lemma initialize_again (c : consumer) fd ci :
  joinable (frame_thread_ c) = true ->
  initialize c fd ci =
  (Throw (invalid_operation "Cannot reinitialize ffmpeg-consumer."), c).
Proof. intros J. unfold initialize. now rewrite J. Qed.

(** Once the thread is joinable, it stays so through any calls, and none of
    the [initialize] calls among them returns. *)
Lemma run_calls_joinable (calls : list call) :
  forall c, joinable (frame_thread_ c) = true ->
    joinable (frame_thread_ (snd (run_calls c calls))) = true /\
    frame_thread_ (snd (run_calls c calls)) = frame_thread_ c /\
    Forall (fun b => b = false) (fst (run_calls c calls)).
Proof.
  induction calls as [| [fd ci | f] rest IH]; intros c J.
  - simpl. auto.
  - cbn [run_calls]. rewrite initialize_again by assumption.
    specialize (IH c J). destruct (run_calls c rest) as [log c'].
    simpl in *. destruct IH as (A & B & C). auto.
  - cbn [run_calls].
    assert (joinable (frame_thread_ (snd (send c f))) = true) as J'
      by now rewrite send_keeps_thread.
    destruct (IH _ J') as (A & B & C).
    rewrite send_keeps_thread in B. auto.
Qed.

Section ConsumerProperties.

Variable crc_16 : String.string -> Z.

(** C8. After a call of [initialize] on a consumer, in whatever state, and
    any further calls of [send] and [initialize], a call of [initialize]
    throws [invalid_operation] and leaves the consumer as it was, the running
    thread included; none of the [initialize] calls in between returned
    either.  On a consumer fresh from its constructor at most one
    [initialize] of any sequence of calls returns. *)
Theorem initialize_succeeds_at_most_once (c : consumer)
    (fd fd' : video_format_desc) (ci ci' : Z) (calls : list call)
    (path args : String.string) (realtime : bool) :
  let c1 := snd (initialize c fd ci) in
  let c2 := snd (run_calls c1 calls) in
  initialize c2 fd' ci' =
  (Throw (invalid_operation "Cannot reinitialize ffmpeg-consumer."), c2) /\
  frame_thread_ c2 = frame_thread_ c1 /\
  Forall (fun b => b = false) (fst (run_calls c1 calls)) /\
  (length (filter (fun b => b)
     (fst (run_calls (ffmpeg_consumer_ctor crc_16 path args realtime) calls))) <= 1)%nat.
Proof.
  intros c1 c2.
  pose proof (initialize_joinable c fd ci) as J1. fold c1 in J1.
  destruct (run_calls_joinable calls c1 J1) as (J2 & T & F).
  fold c2 in J2, T.
  repeat split; try assumption.
  - now apply initialize_again.
  - clear. generalize (ffmpeg_consumer_ctor crc_16 path args realtime) as c0.
    induction calls as [| [fd ci | f] rest IH]; intros c0.
    + simpl. lia.
    + cbn [run_calls].
      pose proof (initialize_joinable c0 fd ci) as J.
      destruct (initialize c0 fd ci) as [r c'] eqn:K. simpl in J.
      destruct (run_calls_joinable rest c' J) as (_ & _ & F).
      destruct (run_calls c' rest) as [log c''].
      simpl in F |- *.
      assert (filter (fun b : bool => b) log = []) as ->.
      { clear - F. induction log as [| b log IH]; [reflexivity |].
        inversion F; subst. simpl. auto. }
      destruct r; simpl; lia.
    + cbn [run_calls]. apply IH.
Qed.

(** The first [initialize] on a fresh consumer does return. *)
Lemma first_initialize_returns (path args : String.string) (realtime : bool) fd ci :
  fst (initialize (ffmpeg_consumer_ctor crc_16 path args realtime) fd ci) = Ok tt.
Proof. reflexivity. Qed.

(** C1, as the code has it.  On a consumer whose frame queue has capacity 1
    (a realtime sink) and is empty, two frames sent before the media thread
    pops leave exactly one more "dropped-frame" tag, and the queue holds the
    first of the two frames: the later frame is the one dropped.  Both calls
    return a ready [true]. *)
Theorem realtime_queue_keeps_first_frame (c : consumer) (f1 f2 : const_frame) :
  capacity (frame_buffer_ c) = 1 ->
  items (frame_buffer_ c) = [] ->
  let c1 := snd (send c f1) in
  let c2 := snd (send c1 f2) in
  dropped_frames c1 = dropped_frames c /\
  dropped_frames c2 = S (dropped_frames c) /\
  items (frame_buffer_ c2) = [f1] /\
  fst (send c f1) = ready true /\
  fst (send c1 f2) = ready true.
Proof.
  intros Hc Hi c1 c2.
  assert (is_full (frame_buffer_ c) = false) as E0.
  { unfold is_full. rewrite Hc, Hi. reflexivity. }
  pose proof (proj2 (send_spec c f1) E0) as S1.
  assert (is_full (frame_buffer_ c1) = true) as E1.
  { unfold c1. rewrite S1. cbn [snd frame_buffer_]. unfold is_full.
    cbn [capacity items]. rewrite Hc, Hi. reflexivity. }
  pose proof (proj1 (send_spec c1 f2) E1) as S2.
  assert (dropped_frames c1 = dropped_frames c) as D1.
  { unfold c1. rewrite S1. reflexivity. }
  repeat split.
  - exact D1.
  - unfold c2. rewrite S2. cbn [snd].
    erewrite dropped_frames_set_tag by reflexivity.
    fold (dropped_frames c1). now rewrite D1.
  - unfold c2. rewrite S2. cbn [snd frame_buffer_].
    unfold c1. rewrite S1. cbn [snd frame_buffer_ items]. now rewrite Hi.
  - now rewrite S1.
  - now rewrite S2.
Qed.

End ConsumerProperties.

Import consumer_model.

Lemma realtime_queue_keeps_first_frame_witness :
  let c1 := snd (send realtime_consumer frame_a) in
  let c2 := snd (send c1 frame_b) in
  dropped_frames c2 = 1%nat /\ items (frame_buffer_ c2) = [frame_a].
Proof.
  destruct (realtime_queue_keeps_first_frame realtime_consumer frame_a frame_b
              eq_refl eq_refl) as (_ & D & I & _).
  cbv zeta. split; [exact D | exact I].
Defined.

(** C1 as the specification words it: after the two sends the queue does not
    hold the most recent frame. *)
Lemma realtime_queue_latest_frame_lost :
  let c2 := snd (send (snd (send realtime_consumer frame_a)) frame_b) in
  dropped_frames c2 = 1%nat /\
  items (frame_buffer_ c2) = [frame_a] /\
  items (frame_buffer_ c2) <> [frame_b].
Proof.
  cbv zeta. repeat split. intros H. discriminate H.
Qed.

End consumer_properties.

(** ** Stream: timestamps *)

Module stream_properties.

Import ffmpeg_consumer.

Section StreamProperties.

Context {G E OC : Type}.
Variable L : libav G E OC.

Local Abbreviation world := (@send_world G E).
Local Abbreviation stable := (@stable G E).
Local Abbreviation keeps := (@keeps G E _).
Local Abbreviation native_frame := (native_frame L).
Local Abbreviation stamped := (stamped L).

Lemma stable_refl (w : world) : stable w w.
Proof. repeat split. Qed.

Lemma stable_trans (w1 w2 w3 : world) :
  stable w1 w2 -> stable w2 w3 -> stable w1 w3.
Proof. unfold stable. intuition congruence. Qed.

Lemma keeps_ret {A : Type} (a : A) : keeps (ret a).
Proof. intros w. apply stable_refl. Qed.

Lemma keeps_throw {A : Type} (e : exn) : keeps (@throw world A e).
Proof. intros w. apply stable_refl. Qed.

Lemma keeps_out_of_fuel {A : Type} : keeps (@out_of_fuel world A).
Proof. intros w. apply stable_refl. Qed.

Lemma keeps_gets {A : Type} (f : world -> A) : keeps (gets f).
Proof. intros w. apply stable_refl. Qed.

Lemma keeps_bind {A B : Type} (c : M world A) (k : A -> M world B) :
  keeps c -> (forall a, keeps (k a)) -> keeps (bind c k).
Proof.
  intros Hc Hk w. unfold bind. specialize (Hc w).
  destruct (c w) as [[a | e |] w1]; simpl in *; try assumption.
  eapply stable_trans; [exact Hc | apply Hk].
Qed.

Lemma keeps_FF_RET (r : Z) (func : String.string) : keeps (@FF_RET world r func).
Proof. unfold FF_RET. destruct (r <? 0); [apply keeps_throw | apply keeps_ret]. Qed.

Lemma keeps_on_encoder {A : Type} (f : AVCodecContext E -> A * E) :
  keeps (on_encoder f).
Proof.
  intros [s tr]. unfold on_encoder. simpl.
  destruct (f (enc s)) as [a e]. repeat split.
Qed.

Lemma keeps_on_stream_graph {A : Type} (f : G -> A * G) :
  keeps (on_stream_graph f).
Proof.
  intros [s tr]. unfold on_stream_graph. simpl.
  destruct (f (graph s)) as [a g]. repeat split.
Qed.

Lemma frames_written_app (a b : list send_event) :
  frames_written (a ++ b) = frames_written a ++ frames_written b.
Proof.
  induction a as [| [[f |] | p | p] a IH]; simpl; auto. now rewrite IH.
Qed.

Lemma keeps_emit_packet (p : AVPacket) : keeps (@emit G E (Ev_packet p)).
Proof.
  intros [s tr]. unfold emit, modify. repeat split. simpl.
  rewrite frames_written_app. simpl. apply app_nil_r.
Qed.

Lemma keeps_emit_close (p : Z) : keeps (@emit G E (Ev_close p)).
Proof.
  intros [s tr]. unfold emit, modify. repeat split. simpl.
  rewrite frames_written_app. simpl. apply app_nil_r.
Qed.

Create HintDb keeps.

#[local] Hint Resolve keeps_ret keeps_throw keeps_out_of_fuel keeps_gets
  keeps_FF_RET keeps_on_encoder keeps_on_stream_graph keeps_emit_packet
  keeps_emit_close : keeps.

Lemma keeps_drain (fuel : nat) : keeps (drain L fuel).
Proof.
  induction fuel as [| fuel IH]; cbn [drain]; [apply keeps_out_of_fuel |].
  apply keeps_bind; [auto with keeps | intros s].
  apply keeps_bind; [auto with keeps | intros [r pkt]].
  destruct (r =? AVERROR EAGAIN).
  - apply keeps_bind; [auto with keeps | intros [r2 frame]].
    destruct (r2 =? AVERROR EAGAIN); [auto with keeps |].
    destruct (r2 =? AVERROR_EOF).
    + apply keeps_bind; [auto with keeps | intros r3].
      apply keeps_bind; [unfold FF; auto with keeps | intros _; exact IH].
    + apply keeps_bind; [auto with keeps | intros _].
      apply keeps_bind; [auto with keeps | intros r3].
      apply keeps_bind; [unfold FF; auto with keeps | intros _; exact IH].
  - destruct (r =? AVERROR_EOF); [auto with keeps |].
    apply keeps_bind; [auto with keeps | intros _].
    apply keeps_bind; [auto with keeps | intros _; exact IH].
Qed.

(** The first half of [send] for a frame on a video or audio stream: the
    frame written is the native frame with the counter as its [pts], and the
    counter has advanced, whether or not the buffer source took the frame. *)
Lemma push_frame_stamps (f : frame_payload) (fd : video_format_desc) (w : world) :
  codec_type (enc (fst w)) = AVMEDIA_TYPE_VIDEO \/
  codec_type (enc (fst w)) = AVMEDIA_TYPE_AUDIO ->
  let ct := codec_type (enc (fst w)) in
  let frame := set_frame_pts (native_frame ct fd f) (pts (fst w)) in
  let w' := snd (push_frame L (Some f) fd w) in
  pts (fst w') = to_int64 (pts (fst w) + advance ct frame) /\
  codec_type (enc (fst w')) = ct /\
  frames_written (snd w') = frames_written (snd w) ++ [frame].
Proof.
  destruct w as [s tr]. simpl fst. simpl snd. intros Hct.
  unfold push_frame, bind, gets, modify, emit, ret, on_stream_graph, FF, FF_RET.
  simpl.
  destruct Hct as [Hct | Hct]; rewrite Hct; simpl;
    match goal with
    | |- context [av_buffersrc_write_frame L ?g ?src ?fr] =>
        destruct (av_buffersrc_write_frame L g src fr) as [r g']
    end; simpl;
    destruct (r <? 0); simpl;
    rewrite frames_written_app; repeat split; auto.
Qed.

Lemma send_stamps (fuel : nat) (f : frame_payload) (fd : video_format_desc)
    (w : world) :
  codec_type (enc (fst w)) = AVMEDIA_TYPE_VIDEO \/
  codec_type (enc (fst w)) = AVMEDIA_TYPE_AUDIO ->
  let ct := codec_type (enc (fst w)) in
  let frame := set_frame_pts (native_frame ct fd f) (pts (fst w)) in
  let w' := snd (Stream_send L fuel (Some f) fd w) in
  pts (fst w') = to_int64 (pts (fst w) + advance ct frame) /\
  codec_type (enc (fst w')) = ct /\
  frames_written (snd w') = frames_written (snd w) ++ [frame].
Proof.
  intros Hct. cbv zeta.
  pose proof (push_frame_stamps f fd w Hct) as P. cbv zeta in P.
  unfold Stream_send, bind.
  destruct (push_frame L (Some f) fd w) as [[[] | e |] w1];
    cbn [snd] in P |- *; try exact P.
  pose proof (keeps_drain fuel w1) as (K1 & K2 & K3).
  destruct P as (P1 & P2 & P3).
  rewrite K1, K2, K3. auto.
Qed.

Lemma send_all_stamps (fuel : nat) (fd : video_format_desc)
    (frames : list frame_payload) :
  forall w : world,
    codec_type (enc (fst w)) = AVMEDIA_TYPE_VIDEO \/
    codec_type (enc (fst w)) = AVMEDIA_TYPE_AUDIO ->
    let ct := codec_type (enc (fst w)) in
    let '(r, w') := send_all L fuel frames fd w in
    exists n : nat,
      (n <= length frames)%nat /\
      (r = Ok tt -> n = length frames) /\
      frames_written (snd w') =
      frames_written (snd w) ++ firstn n (stamped ct fd (pts (fst w)) frames).
Proof.
  induction frames as [| f rest IH]; intros w Hct ct.
  - simpl. exists O. repeat split; auto. now rewrite app_nil_r.
  - cbn [send_all]. unfold bind.
    pose proof (send_stamps fuel f fd w Hct) as S. cbv zeta in S.
    destruct (Stream_send L fuel (Some f) fd w) as [[[] | e |] w1];
      simpl in S; destruct S as (S1 & S2 & S3).
    + assert (codec_type (enc (fst w1)) = AVMEDIA_TYPE_VIDEO \/
              codec_type (enc (fst w1)) = AVMEDIA_TYPE_AUDIO) as Hct1
        by (rewrite S2; exact Hct).
      specialize (IH w1 Hct1). cbv zeta in IH.
      destruct (send_all L fuel rest fd w1) as [r w2].
      destruct IH as (n & Hn & Hok & Hw).
      exists (S n). repeat split.
      * simpl. lia.
      * intros K. simpl. f_equal. auto.
      * rewrite Hw, S3, S2, S1. cbn [stamped firstn]. fold ct.
        now rewrite <- app_assoc.
    + exists 1%nat. repeat split.
      * simpl. lia.
      * discriminate.
      * rewrite S3. reflexivity.
    + exists 1%nat. repeat split.
      * simpl. lia.
      * discriminate.
      * rewrite S3. reflexivity.
Qed.

Lemma sum_Z_cons (a : Z) (l : list Z) : sum_Z (a :: l) = a + sum_Z l.
Proof. reflexivity. Qed.

Lemma sum_Z_nonneg (l : list Z) : Forall (fun z => 0 <= z) l -> 0 <= sum_Z l.
Proof.
  induction 1 as [| z l Hz Hl IH]; [unfold sum_Z; simpl; lia |].
  rewrite sum_Z_cons. lia.
Qed.

Lemma sum_Z_ones {A : Type} (l : list A) :
  sum_Z (map (fun _ => 1) l) = Z.of_nat (length l).
Proof.
  induction l as [| a l IH]; [reflexivity |].
  cbn [map length]. rewrite sum_Z_cons, IH. lia.
Qed.

Lemma sum_Z_firstn_le (l : list Z) (m n : nat) :
  Forall (fun z => 0 <= z) l -> (m <= n)%nat ->
  sum_Z (firstn m l) <= sum_Z (firstn n l).
Proof.
  intros H. revert m n.
  induction H as [| z l Hz Hl IH]; intros m n Hmn.
  - rewrite !firstn_nil. lia.
  - destruct m as [| m]; destruct n as [| n]; try lia.
    + cbn [firstn]. rewrite sum_Z_cons.
      assert (0 <= sum_Z (firstn n l)).
      { apply sum_Z_nonneg. apply Forall_forall. intros x Hx.
        rewrite Forall_forall in Hl. apply Hl.
        rewrite <- (firstn_skipn n l). apply in_or_app. now left. }
      unfold sum_Z at 1. simpl. lia.
    + cbn [firstn]. rewrite !sum_Z_cons.
      specialize (IH m n ltac:(lia)). lia.
Qed.

Lemma nth_firstn_lt {A : Type} (l : list A) (d : A) :
  forall n k : nat, (n < k)%nat -> nth n (firstn k l) d = nth n l d.
Proof.
  induction l as [| a l IH]; intros n k H.
  - now rewrite firstn_nil.
  - destruct k as [| k]; [lia |]. destruct n as [| n]; [reflexivity |].
    cbn [firstn nth]. apply IH. lia.
Qed.

Lemma advance_stamped ct fd f p :
  advance ct (set_frame_pts (native_frame ct fd f) p)
  = advance ct (native_frame ct fd f).
Proof. destruct ct; reflexivity. Qed.

Lemma stamped_length ct fd frames : forall p,
  length (stamped ct fd p frames) = length frames.
Proof. induction frames as [| f rest IH]; intros p; simpl; auto. Qed.

Lemma stamped_samples ct fd (frames : list frame_payload) :
  forall (n : nat) (p : Z),
    map nb_samples (firstn n (stamped ct fd p frames))
    = map (fun f => nb_samples (native_frame ct fd f)) (firstn n frames).
Proof.
  induction frames as [| f rest IH]; intros n p.
  - now rewrite !firstn_nil.
  - destruct n as [| n]; [reflexivity |].
    cbn [stamped firstn map]. f_equal. apply IH.
Qed.

(** Without overflow the [n]-th frame of a run carries the counter the run
    started at plus what the frames before it advanced it by. *)
Lemma stamped_nth ct fd (frames : list frame_payload) :
  forall (p : Z) (n : nat),
    0 <= p ->
    (forall f, In f frames -> 0 <= advance ct (native_frame ct fd f)) ->
    p + sum_Z (map (fun f => advance ct (native_frame ct fd f)) frames) < 2 ^ 63 ->
    (n < length frames)%nat ->
    nth n (stamped ct fd p frames) blank_frame
    = set_frame_pts (native_frame ct fd (nth n frames no_payload))
        (p + sum_Z (map (fun f => advance ct (native_frame ct fd f)) (firstn n frames))).
Proof.
  induction frames as [| f rest IH]; intros p n Hp Hpos Hsum Hn.
  - simpl in Hn. lia.
  - cbn [stamped]. rewrite advance_stamped.
    cbn [map] in Hsum. rewrite sum_Z_cons in Hsum.
    assert (0 <= advance ct (native_frame ct fd f)) as Ha
      by (apply Hpos; now left).
    assert (0 <= sum_Z (map (fun f => advance ct (native_frame ct fd f)) rest)) as Hs.
    { apply sum_Z_nonneg, Forall_forall. intros z Hz.
      apply in_map_iff in Hz. destruct Hz as (g & <- & Hg).
      apply Hpos. now right. }
    destruct n as [| n].
    + cbn [nth firstn map]. f_equal. unfold sum_Z. simpl. lia.
    + cbn [nth firstn map]. rewrite sum_Z_cons.
      rewrite to_int64_small by lia.
      rewrite IH.
      * f_equal. lia.
      * lia.
      * intros g Hg. apply Hpos. now right.
      * lia.
      * simpl in Hn. lia.
Qed.

(** C2. A stream whose counter is 0 (as its constructor leaves it) is sent
    frames one after the other.  Whatever libav answers, the [n]-th frame
    handed to the buffer source (counting from 0) is the native frame made of
    the [n]-th frame sent with its [pts] overwritten by the counter: [n] on a
    video stream, the sum of the sample counts of the frames before it on an
    audio stream.  The timestamps are therefore non-decreasing and each frame
    starts where the one before it ended.  When all the calls return, every
    frame sent was handed over.  The counter is an [int64_t]: the frame count
    and the sample total are taken to fit, sample counts not to be negative. *)
Theorem stream_pts_from_counter (fuel : nat) (s : Stream G E)
    (frames : list frame_payload) (fd : video_format_desc) :
  pts s = 0 ->
  codec_type (enc s) = AVMEDIA_TYPE_VIDEO \/
  codec_type (enc s) = AVMEDIA_TYPE_AUDIO ->
  (codec_type (enc s) = AVMEDIA_TYPE_VIDEO -> Z.of_nat (length frames) < 2 ^ 63) ->
  (codec_type (enc s) = AVMEDIA_TYPE_AUDIO ->
   (forall f, In f frames -> 0 <= nb_samples (make_av_audio_frame L f fd)) /\
   sum_Z (map (fun f => nb_samples (make_av_audio_frame L f fd)) frames) < 2 ^ 63) ->
  let '(r, w') := send_all L fuel frames fd (s, []) in
  let written := frames_written (snd w') in
  (length written <= length frames)%nat /\
  (r = Ok tt -> length written = length frames) /\
  forall n : nat, (n < length written)%nat ->
    let sent := nth n written blank_frame in
    (codec_type (enc s) = AVMEDIA_TYPE_VIDEO ->
     sent = set_frame_pts (make_av_video_frame L (nth n frames no_payload) fd)
                          (Z.of_nat n)) /\
    (codec_type (enc s) = AVMEDIA_TYPE_AUDIO ->
     sent = set_frame_pts (make_av_audio_frame L (nth n frames no_payload) fd)
                          (sum_Z (map nb_samples (firstn n written)))) /\
    (forall m : nat, (m <= n)%nat ->
       frame_pts (nth m written blank_frame) <= frame_pts sent).
Proof.
  intros Hp Hct Hv Ha.
  pose proof (send_all_stamps fuel fd frames (s, []) Hct) as S.
  cbv zeta in S. cbn [fst snd] in S.
  destruct (send_all L fuel frames fd (s, [])) as [r w'].
  destruct S as (k & Hk & Hok & Hw). cbn [frames_written app] in Hw.
  rewrite Hp in Hw. cbv zeta. rewrite Hw.
  set (ct := codec_type (enc s)) in *.
  set (adv := fun f => advance ct (native_frame ct fd f)).
  assert (forall f, In f frames -> 0 <= adv f) as Hpos.
  { intros f Hf. unfold adv. destruct Hct as [K | K]; rewrite K; simpl; [lia |].
    now apply (proj1 (Ha K)). }
  assert (0 + sum_Z (map adv frames) < 2 ^ 63) as Hsum.
  { unfold adv. destruct Hct as [K | K]; rewrite K; simpl.
    - rewrite sum_Z_ones. now apply Hv.
    - now apply (proj2 (Ha K)). }
  assert (forall n, (n < k)%nat ->
            nth n (firstn k (stamped ct fd 0 frames)) blank_frame
            = set_frame_pts (native_frame ct fd (nth n frames no_payload))
                            (sum_Z (map adv (firstn n frames)))) as Hnth.
  { intros n Hn.
    rewrite nth_firstn_lt by assumption.
    rewrite (stamped_nth ct fd frames 0 n); try lia; try assumption.
    reflexivity. }
  assert (length (firstn k (stamped ct fd 0 frames)) = k) as Hlen.
  { rewrite length_firstn, stamped_length. lia. }
  rewrite Hlen.
  assert (forall n, (n <= k)%nat ->
            map nb_samples (firstn n (firstn k (stamped ct fd 0 frames)))
            = map (fun f => nb_samples (native_frame ct fd f)) (firstn n frames))
    as Hsamples.
  { intros n Hn. rewrite firstn_firstn, Nat.min_l by lia.
    apply stamped_samples. }
  split; [exact Hk |]. split; [exact Hok |].
  intros n Hn. cbv zeta. rewrite Hnth by assumption.
  split; [| split].
  - intros K. unfold adv. fold ct in K. rewrite K. cbn [advance native_frame].
    rewrite sum_Z_ones, length_firstn, Nat.min_l by lia. reflexivity.
  - intros K. rewrite Hsamples by lia.
    unfold adv. fold ct in K. rewrite K. reflexivity.
  - intros m Hm. rewrite Hnth by lia. simpl.
    rewrite <- !firstn_map.
    apply sum_Z_firstn_le; [| exact Hm].
    apply Forall_forall. intros z Hz.
    apply in_map_iff in Hz. destruct Hz as (f & <- & Hf). now apply Hpos.
Qed.

End StreamProperties.

Import consumer_model.

(** Three frames on the video stream and on the audio stream of the model:
    the frames the model makes carry a [pts] of 90000 of their own; the ones
    handed to the buffer source carry 0, 1, 2 (video) and 0, 3, 4 (audio,
    with 3, 1 and 2 samples). *)
Lemma stream_pts_from_counter_witness :
  let L := libav_model 0 in
  let frames := [frame1; frame2; frame3] in
  let video := frames_written (snd (snd (send_all L 10 frames pal (video_stream, [])))) in
  let audio := frames_written (snd (snd (send_all L 10 frames pal (audio_stream, [])))) in
  (forall n : nat, (n < 3)%nat ->
     nth n video blank_frame
     = set_frame_pts (video_frame (nth n frames no_payload) pal) (Z.of_nat n)) /\
  (forall n : nat, (n < 3)%nat ->
     nth n audio blank_frame
     = set_frame_pts (audio_frame (nth n frames no_payload) pal)
                     (sum_Z (map nb_samples (firstn n audio)))) /\
  map frame_pts video = [0; 1; 2] /\
  map frame_pts audio = [0; 3; 4] /\
  map nb_samples audio = [3; 1; 2].
Proof.
  cbv zeta.
  assert (Z.of_nat (length [frame1; frame2; frame3]) < 2 ^ 63) as Hlen
    by (simpl; lia).
  assert ((forall f, In f [frame1; frame2; frame3] ->
             0 <= nb_samples (make_av_audio_frame (libav_model 0) f pal)) /\
          sum_Z (map (fun f => nb_samples (make_av_audio_frame (libav_model 0) f pal))
                     [frame1; frame2; frame3]) < 2 ^ 63) as Hsamples.
  { split.
    - intros f Hf. simpl. lia.
    - vm_compute. reflexivity. }
  pose proof (stream_pts_from_counter (libav_model 0) 10 video_stream
                [frame1; frame2; frame3] pal eq_refl (or_introl eq_refl)
                (fun _ => Hlen) (fun _ => Hsamples)) as Hv.
  pose proof (stream_pts_from_counter (libav_model 0) 10 audio_stream
                [frame1; frame2; frame3] pal eq_refl (or_intror eq_refl)
                (fun _ => Hlen) (fun _ => Hsamples)) as Ha.
  destruct (send_all (libav_model 0) 10 [frame1; frame2; frame3] pal
                     (video_stream, [])) as [rv wv] eqn:Kv.
  destruct (send_all (libav_model 0) 10 [frame1; frame2; frame3] pal
                     (audio_stream, [])) as [ra wa] eqn:Ka.
  cbv zeta in Hv, Ha. cbn [snd].
  assert (length (frames_written (snd wv)) = 3%nat) as Lv.
  { change wv with (snd (rv, wv)). rewrite <- Kv. vm_compute. reflexivity. }
  assert (length (frames_written (snd wa)) = 3%nat) as La.
  { change wa with (snd (ra, wa)). rewrite <- Ka. vm_compute. reflexivity. }
  destruct Hv as (_ & _ & Hv). destruct Ha as (_ & _ & Ha).
  split; [| split; [| split; [| split]]].
  - intros n Hn. rewrite <- Lv in Hn.
    exact (proj1 (Hv n Hn) eq_refl).
  - intros n Hn. rewrite <- La in Hn.
    exact (proj1 (proj2 (Ha n Hn)) eq_refl).
  - change wv with (snd (rv, wv)). rewrite <- Kv. vm_compute. reflexivity.
  - change wa with (snd (ra, wa)). rewrite <- Ka. vm_compute. reflexivity.
  - change wa with (snd (ra, wa)). rewrite <- Ka. vm_compute. reflexivity.
Defined.

End stream_properties.

(** ** Stream: construction *)

Module construction_properties.

Import ffmpeg_consumer.

Lemma media_type_eqb_eq a b : media_type_eqb a b = true <-> a = b.
Proof. destruct a, b; simpl; split; congruence. Qed.

(** *** The sample aspect ratio *)

(** A fraction of two numbers that are not negative: the constructor throws
    for the zero denominator only, and the numerator it keeps is zero for
    the zero numerator only. *)
Lemma rational_ctor_nonneg (n d : Z) :
  0 <= n -> 0 <= d ->
  match rational_ctor n d with
  | None => d = 0
  | Some q => d <> 0 /\ (fst q = 0 <-> n = 0)
  end.
Proof.
  intros Hn Hd. unfold rational_ctor.
  destruct (Z.eqb_spec d 0) as [-> | Hd0]; [reflexivity |].
  destruct (Z.eqb_spec n 0) as [-> | Hn0]; [cbn; tauto |].
  assert (0 < Z.gcd n d) as Hg.
  { pose proof (Z.gcd_nonneg n d) as G0.
    assert (Z.gcd n d <> 0); [| lia].
    intros K. apply Z.gcd_eq_0_l in K. contradiction. }
  assert (Z.gcd n d <= n) as Gn
    by (apply Z.divide_pos_le; [lia | apply Z.gcd_divide_l]).
  assert (Z.gcd n d <= d) as Gd
    by (apply Z.divide_pos_le; [lia | apply Z.gcd_divide_r]).
  rewrite !Z.quot_div_nonneg by lia.
  assert (0 < n / Z.gcd n d) as Qn by (apply Z.div_str_pos; lia).
  assert (0 < d / Z.gcd n d) as Qd by (apply Z.div_str_pos; lia).
  unfold INT_MAX.
  destruct (Z.ltb_spec (d / Z.gcd n d) (- (2 ^ 31 - 1))); [lia |].
  destruct (Z.ltb_spec (d / Z.gcd n d) 0); [lia |].
  cbn [fst]. split; [exact Hd0 | lia].
Qed.

(** For a format description with no negative size, the sample aspect ratio
    cannot be formed exactly when the width, the height or the square height
    is zero. *)
Lemma format_sar_undefined (fd : video_format_desc) :
  0 <= width fd -> 0 <= height fd ->
  0 <= square_width fd -> 0 <= square_height fd ->
  format_sar fd = None <->
  square_height fd = 0 \/ height fd = 0 \/ width fd = 0.
Proof.
  intros Hw Hh Hsw Hsh. unfold format_sar.
  pose proof (rational_ctor_nonneg (square_width fd) (square_height fd) Hsw Hsh)
    as A.
  pose proof (rational_ctor_nonneg (width fd) (height fd) Hw Hh) as B.
  destruct (rational_ctor (square_width fd) (square_height fd)) as [[an ad] |];
    [| split; [tauto | reflexivity]].
  destruct (rational_ctor (width fd) (height fd)) as [[bn bd] |];
    [| split; [tauto | reflexivity]].
  destruct A as [A0 _], B as [B0 Bn]. cbn [fst] in Bn.
  unfold rational_div.
  destruct (Z.eqb_spec bn 0) as [E | E].
  - split; [intros _; right; right; tauto | reflexivity].
  - split; [| tauto].
    destruct (an =? 0); [discriminate |].
    destruct (_ <? 0); discriminate.
Qed.

Section Construction.

Context {G E OC : Type}.
Variable L : libav G E OC.

Local Abbreviation cworld := (@ctor_world G OC).

Ltac run :=
  unfold bind, on_graph, link, new_stream, set_options, note, modify, gets, FF,
    FF_RET, config_error, throw, ret in *;
  cbn [fst snd cw_links cw_graph cw_oc cw_options cw_calls] in *.

(** Names the result of the next libav call of the goal. *)
Ltac env_call :=
  match goal with
  | |- context [avfilter_graph_create_filter L ?g ?a ?b ?c] =>
      destruct (avfilter_graph_create_filter L g a b c) as [[? ?] ?] eqn:?
  | |- context [avfilter_link L ?g ?a ?b ?c ?d] =>
      destruct (avfilter_link L g a b c d) as [? ?] eqn:?
  | |- context [av_opt_set_int_list L ?g ?a ?b ?c ?d] =>
      destruct (av_opt_set_int_list L g a b c d) as [? ?] eqn:?
  | |- context [avfilter_graph_config L ?g] =>
      destruct (avfilter_graph_config L g) as [? ?] eqn:?
  | |- context [avformat_new_stream L ?o] =>
      destruct (avformat_new_stream L o) as [[?|] ?] eqn:?
  | |- context [avcodec_alloc_context3 L ?c] =>
      destruct (avcodec_alloc_context3 L c) as [?|] eqn:?
  | |- context [configure_encoder L ?a ?b ?c ?d ?e] =>
      destruct (configure_encoder L a b c d e) as [? ?] eqn:?
  | |- context [avcodec_open2 L ?a ?b ?c] =>
      destruct (avcodec_open2 L a b c) as [[? ?] ?] eqn:?
  | |- context [avcodec_parameters_from_context L ?a ?b] =>
      destruct (avcodec_parameters_from_context L a b) as [? ?] eqn:?
  | |- context [has_flag ?o ?f] => destruct (has_flag o f) eqn:?
  | |- context [?r <? 0] => destruct (r <? 0) eqn:?
  | |- context [if ?a && ?b then _ else _] => destruct (a && b) eqn:?
  end; cbn [fst snd cw_links cw_graph cw_oc cw_options cw_calls].

Ltac finish_links :=
  match goal with
  | |- forall e, Throw _ = Throw e -> exists extra, ?l = ?l ++ extra /\ _ =>
      intros ? _; exists []; rewrite app_nil_r; repeat split; auto
  | |- forall e, Throw _ = Throw e -> exists extra, ?l ++ [?x] = ?l ++ extra /\ _ =>
      intros ? _; exists [x]; repeat split; auto;
      repeat constructor; simpl; apply Z.ltb_lt; assumption
  | |- forall src, Ok _ = Ok src -> _ =>
      intros ? [= <-]; do 2 eexists; repeat split; apply Z.ltb_ge; eassumption
  end.

Ltac thrown :=
  split; [exact I |];
  split; [intros _; eauto |];
  split; [intros _; eauto |];
  split; [intros ? K; discriminate K |].

(** The graph input: a stream is only handed on with one link made, from
    the source to the single open input pad; the wrong number of input pads
    is an [ffmpeg_error_t] before anything else is looked at. *)
Lemma build_source_spec (codec : AVCodec) (fd : video_format_desc)
    (inputs : list AVFilterInOut) (w : cworld) :
  let '(r, w') := build_source L codec fd inputs w in
  settled_for codec fd r /\
  (length inputs <> 1%nat ->
   r = Throw (ffmpeg_error_t EINVAL "invalid filter graph input count") /\
   cw_links w' = cw_links w) /\
  (forall src, r = Ok src ->
     exists cur r1, inputs = [cur] /\ 0 <= r1 /\
       cw_links w' = cw_links w ++ [mkLink src 0 (filter_ctx cur) (pad_idx cur) r1]) /\
  (forall e, r = Throw e ->
     exists extra, cw_links w' = cw_links w ++ extra /\ (length extra <= 1)%nat /\
       Forall (fun l => link_ret l < 0) extra).
Proof.
  unfold build_source.
  destruct inputs as [| cur [| more]].
  - run. simpl. repeat split; try discriminate; finish_links.
  - destruct (type codec) eqn:T; try destruct (format_sar fd) eqn:S; run.
    all: repeat env_call.
    all: repeat split; try assumption; try discriminate;
      try (intros K; simpl in K; lia);
      try match goal with
          | H : length [_] <> 1%nat |- _ => now contradiction H
          end.
    all: finish_links.
  - run. simpl. repeat split; try discriminate; finish_links.
Qed.

Lemma build_sink_spec (codec : AVCodec) (w : cworld) :
  let '(r, w') := build_sink L codec w in
  settled r /\ cw_links w' = cw_links w.
Proof.
  unfold build_sink. destruct (type codec); run.
  all: repeat env_call.
  all: split; reflexivity || exact I.
Qed.

Lemma link_sink_spec (codec : AVCodec) (outputs : list AVFilterInOut)
    (snk : nat) (w : cworld) :
  let '(r, w') := link_sink L codec outputs snk w in
  settled r /\
  (length outputs <> 1%nat \/
   (exists cur, outputs = [cur] /\ pad_type cur <> type codec) ->
   exists e, r = Throw e /\ cw_links w' = cw_links w) /\
  (forall u, r = Ok u ->
     exists cur r2, outputs = [cur] /\ pad_type cur = type codec /\ 0 <= r2 /\
       cw_links w' = cw_links w ++ [mkLink (filter_ctx cur) (pad_idx cur) snk 0 r2]) /\
  (forall e, r = Throw e ->
     exists extra, cw_links w' = cw_links w ++ extra /\ (length extra <= 1)%nat /\
       Forall (fun l => link_ret l < 0) extra).
Proof.
  unfold link_sink.
  destruct outputs as [| cur [| more]].
  - run. simpl. repeat split; try discriminate; [eauto | finish_links].
  - destruct (media_type_eqb (pad_type cur) (type codec)) eqn:T; run; simpl.
    + apply media_type_eqb_eq in T.
      repeat env_call.
      * repeat split; try discriminate.
        -- intros [K | (c & [= <-] & K)]; [simpl in K; lia | contradiction].
        -- finish_links.
      * repeat split; try discriminate.
        -- intros [K | (c & [= <-] & K)]; [simpl in K; lia | contradiction].
        -- intros u _. exists cur, z. repeat split; auto. now apply Z.ltb_ge.
    + assert (pad_type cur <> type codec) as T'.
      { intros K. apply media_type_eqb_eq in K. congruence. }
      repeat split; try discriminate; [eauto | finish_links].
  - run. simpl. repeat split; try discriminate; [eauto | finish_links].
Qed.

Lemma open_encoder_spec (suffix : String.string) (codec : AVCodec)
    (so : options) (src snk : nat) (w : cworld) :
  let '(r, w') := open_encoder L suffix codec so src snk w in
  settled r /\ cw_links w' = cw_links w /\
  (forall s, r = Ok s -> source s = src /\ sink s = snk /\ pts s = 0).
Proof.
  unfold open_encoder. run.
  repeat env_call.
  all: repeat split; try exact I; try discriminate.
  all: match goal with H : Ok _ = Ok _ |- _ => injection H as <- end; reflexivity.
Qed.

Lemma settled_is_settled_for {A : Type} (codec : AVCodec)
    (fd : video_format_desc) (r : result A) :
  settled r -> settled_for codec fd r.
Proof. destruct r as [a | [errno msg | msg |] |]; cbn; tauto. Qed.

Lemma build_spec (suffix : String.string) (codec : AVCodec)
    (fd : video_format_desc) (spec : String.string) (so : options)
    (w : cworld) (rc : Z) (inputs outputs : list AVFilterInOut) (g1 : G) :
  avfilter_graph_parse2 L (cw_graph w) (effective_spec codec spec)
  = (rc, inputs, outputs, g1) ->
  let '(r, w') := build L suffix codec fd spec so w in
  settled_for codec fd r /\
  (length inputs <> 1%nat ->
   exists errno msg, r = Throw (ffmpeg_error_t errno msg)) /\
  (length outputs <> 1%nat \/
   (exists cur, outputs = [cur] /\ pad_type cur <> type codec) ->
   exists e, r = Throw e) /\
  (forall s, r = Ok s ->
     exists cin cout r1 r2,
       inputs = [cin] /\ outputs = [cout] /\ pad_type cout = type codec /\
       0 <= r1 /\ 0 <= r2 /\ pts s = 0 /\
       cw_links w' = cw_links w ++
         [mkLink (source s) 0 (filter_ctx cin) (pad_idx cin) r1;
          mkLink (filter_ctx cout) (pad_idx cout) (sink s) 0 r2]) /\
  (exists extra, cw_links w' = cw_links w ++ extra /\ (length extra <= 2)%nat).
Proof.
  intros Hparse. unfold build.
  unfold bind at 1. unfold on_graph at 1. rewrite Hparse.
  unfold bind at 1. unfold note at 1, modify at 1.
  cbn [cw_options cw_graph cw_oc cw_links cw_calls].
  unfold bind at 1. unfold FF, FF_RET at 1.
  destruct (rc <? 0) eqn:Hrc.
  { unfold throw. cbn [cw_links]. thrown.
    exists []. rewrite app_nil_r. auto. }
  unfold ret at 1. unfold bind at 1.
  set (w0 := mkCtorWorld (cw_options w) g1 (cw_oc w) (cw_links w) _).
  pose proof (build_source_spec codec fd inputs w0) as S.
  destruct (build_source L codec fd inputs w0) as [rs w1].
  destruct S as (S0 & Sbad & Sok & Sthrow).
  destruct rs as [src | e |]; [| | contradiction].
  2:{ destruct (Sthrow _ eq_refl) as (extra & Hx & Hlen & _).
      split; [exact S0 |].
      split; [intros K; destruct (Sbad K) as [[= ->] _]; eauto |].
      split; [intros _; eauto |].
      split; [intros ? K; discriminate K |].
      exists extra. split; [exact Hx | lia]. }
  destruct (Sok _ eq_refl) as (cin & r1 & -> & Hr1 & Hl1).
  unfold bind at 1.
  pose proof (build_sink_spec codec w1) as K.
  destruct (build_sink L codec w1) as [rk w2].
  destruct K as (K0 & Kl).
  destruct rk as [snk | e |]; [| | contradiction].
  2:{ destruct e; [| contradiction ..].
      thrown. exists [mkLink src 0 (filter_ctx cin) (pad_idx cin) r1].
      split; [rewrite Kl, Hl1; reflexivity | simpl; lia]. }
  unfold bind at 1.
  pose proof (link_sink_spec codec outputs snk w2) as T.
  destruct (link_sink L codec outputs snk w2) as [rt w3].
  destruct T as (T0 & Tbad & Tok & Tthrow).
  destruct rt as [[] | e |]; [| | contradiction].
  2:{ destruct e; [| contradiction ..].
      destruct (Tthrow _ eq_refl) as (extra & Hx & Hlen & _).
      thrown.
      exists (mkLink src 0 (filter_ctx cin) (pad_idx cin) r1 :: extra).
      split; [| simpl; lia].
      rewrite Hx, Kl, Hl1, <- app_assoc. reflexivity. }
  destruct (Tok _ eq_refl) as (cout & r2 & -> & Hty & Hr2 & Hl3).
  assert (cw_links w3 = cw_links w ++
            [mkLink src 0 (filter_ctx cin) (pad_idx cin) r1;
             mkLink (filter_ctx cout) (pad_idx cout) snk 0 r2]) as Hlinks.
  { rewrite Hl3, Kl, Hl1, <- app_assoc. reflexivity. }
  unfold bind at 1. unfold on_graph at 1.
  destruct (avfilter_graph_config L (cw_graph w3)) as [rg g4].
  unfold bind at 1. unfold note at 1, modify at 1.
  cbn [cw_options cw_graph cw_oc cw_links cw_calls].
  unfold bind at 1. unfold FF, FF_RET at 1.
  destruct (rg <? 0).
  { unfold throw. cbn [cw_links]. thrown.
    eexists. split; [exact Hlinks | simpl; lia]. }
  unfold ret at 1.
  set (w4 := mkCtorWorld (cw_options w3) g4 (cw_oc w3) (cw_links w3) _).
  pose proof (open_encoder_spec suffix codec so src snk w4) as O.
  destruct (open_encoder L suffix codec so src snk w4) as [ro w5].
  destruct O as (O0 & Ol & Os).
  assert (cw_links w5 = cw_links w ++
            [mkLink src 0 (filter_ctx cin) (pad_idx cin) r1;
             mkLink (filter_ctx cout) (pad_idx cout) snk 0 r2]) as Hl5.
  { rewrite Ol. exact Hlinks. }
  split; [now apply settled_is_settled_for |]. split; [| split; [| split]].
  - intros K. simpl in K. lia.
  - intros [K | (c & [= <-] & K)]; [simpl in K; lia | contradiction].
  - intros s ->. destruct (Os s eq_refl) as (-> & -> & Hp).
    exists cin, cout, r1, r2. repeat split; auto.
  - eexists. split; [exact Hl5 | simpl; lia].
Qed.

(** C7, as the code has it.  Take the encoder the options resolve to and the
    pads [avfilter_graph_parse2] leaves open for the spec.  If there is not
    exactly one input pad the constructor throws an [ffmpeg_error_t]; if
    there is not exactly one output pad, or the output pad is not of the
    encoder's media type, it throws as well.  It makes one pass: at most two
    links are attempted and it ends with a stream, with an [ffmpeg_error_t],
    or, only when the encoder is a video encoder and the sample aspect ratio
    of the format cannot be formed, with [bad_rational].  When it returns a
    stream, exactly two links were made, both accepted by libav: the stream's
    source to the single input pad and the single output pad to the stream's
    sink. *)
Theorem stream_ctor_pads (oc : AVFormatContext OC) (suffix : String.string)
    (codec_id : AVCodecID) (fd : video_format_desc) (opts : options)
    (so : options) (spec : String.string) (codec : AVCodec) (opts' : options)
    (g g1 : G) (rc : Z) (inputs outputs : list AVFilterInOut) :
  stream_arguments L suffix codec_id opts = (so, spec, Some codec, opts') ->
  avfilter_graph_alloc L = Some g ->
  avfilter_graph_parse2 L g (effective_spec codec spec) = (rc, inputs, outputs, g1) ->
  let '(r, (_, _, links)) := Stream_ctor L oc suffix codec_id fd opts in
  (length inputs <> 1%nat ->
   exists errno msg, r = Throw (ffmpeg_error_t errno msg)) /\
  (length outputs <> 1%nat \/
   (exists cur, outputs = [cur] /\ pad_type cur <> type codec) ->
   exists e, r = Throw e) /\
  (forall s, r = Ok s ->
     exists cin cout r1 r2,
       inputs = [cin] /\ outputs = [cout] /\ pad_type cout = type codec /\
       0 <= r1 /\ 0 <= r2 /\
       links = [mkLink (source s) 0 (filter_ctx cin) (pad_idx cin) r1;
                mkLink (filter_ctx cout) (pad_idx cout) (sink s) 0 r2]) /\
  settled_for codec fd r /\
  (length links <= 2)%nat.
Proof.
  intros Hargs Halloc Hparse. unfold Stream_ctor. rewrite Hargs, Halloc.
  pose proof (build_spec suffix codec fd spec so (mkCtorWorld opts' g oc [] [])
                rc inputs outputs g1 Hparse) as B.
  destruct (build L suffix codec fd spec so (mkCtorWorld opts' g oc [] []))
    as [r w].
  destruct B as (B0 & Bin & Bout & Bok & extra & Hx & Hlen).
  cbn [cw_links app] in *.
  split; [exact Bin |]. split; [exact Bout |]. split; [| split].
  - intros s Hs. destruct (Bok s Hs) as (cin & cout & r1 & r2 & H).
    exists cin, cout, r1, r2. intuition.
  - exact B0.
  - rewrite Hx. exact Hlen.
Qed.

(** Without an encoder, or without a graph, nothing is parsed or linked. *)
Lemma stream_ctor_no_encoder (oc : AVFormatContext OC) (suffix : String.string)
    (codec_id : AVCodecID) (fd : video_format_desc) (opts : options)
    (so : options) (spec : String.string) (opts' : options) :
  stream_arguments L suffix codec_id opts = (so, spec, None, opts') ->
  Stream_ctor L oc suffix codec_id fd opts
  = (Throw (ffmpeg_error_t EINVAL "avcodec_find_encoder"), (opts', oc, [])).
Proof. intros H. unfold Stream_ctor. now rewrite H. Qed.

End Construction.

Import consumer_model.

(** With no filter option the video stream is built around "null": one
    input pad, one output pad, the source and the sink linked to them. *)
Lemma stream_ctor_pads_witness :
  fst (Stream_ctor (libav_model 0) quicktime ":v" 13 pal []) = Ok video_stream /\
  snd (snd (Stream_ctor (libav_model 0) quicktime ":v" 13 pal []))
  = [mkLink 1 0 0 0 0; mkLink 0 0 2 0 0].
Proof.
  pose proof (stream_ctor_pads (libav_model 0) quicktime ":v" 13 pal []
                [("filter", "")] "" rawvideo [] (mkGraphState [] [] false)
                (mkGraphState [mkNode [V] [V]] [] false) 0
                [mkInOut 0 0 V] [mkInOut 0 0 V]
                eq_refl eq_refl eq_refl) as H.
  destruct (Stream_ctor (libav_model 0) quicktime ":v" 13 pal [])
    as [r [[o c] links]] eqn:K.
  destruct H as (_ & _ & Hok & _).
  assert (r = Ok video_stream) as Hr.
  { change r with (fst (r, (o, c, links))). rewrite <- K. reflexivity. }
  split; [exact Hr |].
  destruct (Hok _ Hr) as (cin & cout & r1 & r2 & _ & _ & _ & _ & _ & Hl).
  change links with (snd (snd (r, (o, c, links)))). rewrite <- K. reflexivity.
Defined.

(** A format description without a height: the video stream is not built,
    and no link is made. *)
Example stream_ctor_without_height :
  let fd := mkFormatDesc 720 0 1024 576 1 25 (25, 1) 48000 2 in
  Stream_ctor (libav_model 0) quicktime ":v" 13 fd []
  = (Throw bad_rational, ([], quicktime, [])).
Proof. reflexivity. Qed.

(** C7 as the specification words it, on the spec "showwaves" for the video
    stream: the parsed graph has one input pad and one output pad, and the
    output pad is of the encoder's media type, so none of the three failure
    conditions holds; but the input pad takes audio, libav refuses to link the
    video source to it, and the constructor throws with no link made. *)
Lemma stream_ctor_showwaves_not_linked :
  let L := libav_model 0 in
  let opts := [("filter:v", "showwaves")] in
  let '(_, spec, codec, _) := stream_arguments L ":v" 13 opts in
  let '(_, inputs, outputs, _) :=
    avfilter_graph_parse2 L (mkGraphState [] [] false) spec in
  let '(r, (_, _, links)) := Stream_ctor L quicktime ":v" 13 pal opts in
  spec = "showwaves" /\ codec = Some rawvideo /\
  length inputs = 1%nat /\ length outputs = 1%nat /\
  map pad_type outputs = [type rawvideo] /\
  r = Throw (ffmpeg_error_t EINVAL "") /\
  filter (fun l => 0 <=? link_ret l) links = [].
Proof. cbv zeta. vm_compute. repeat split. Qed.

End construction_properties.

(** ** The media thread and the packet thread *)

Module pipeline_properties.

Import ffmpeg_consumer.

Section Pipeline.

Context {G E OC : Type}.
Variable L : libav G E OC.

Local Abbreviation pipeline := (@pipeline OC).
Local Abbreviation packet_writer := (@packet_writer OC).
Local Abbreviation invariant := (invariant L).
Local Abbreviation pop_step := (pop_step L).
Local Abbreviation next := (next L).
Local Abbreviation run := (run L).

(** *** The frame loop up to the end-of-stream frame *)

Lemma eof_packets_app (a b : list (option AVPacket)) :
  eof_packets (a ++ b) = (eof_packets a + eof_packets b)%nat.
Proof. unfold eof_packets. now rewrite filter_app, length_app. Qed.

Lemma eof_packets_some (pkts : list AVPacket) : eof_packets (map Some pkts) = 0%nat.
Proof. induction pkts as [| p pkts IH]; [reflexivity | exact IH]. Qed.

(** The loop over frames followed by the empty frame: it does not end
    waiting for a frame, and when it is left by [break] it has pushed packets
    and then one null packet. *)
Lemma frame_loop_eof (fuel : nat) (fd : video_format_desc)
    (frames : list frame_payload) :
  forall video audio : option (Stream G E),
    let '(r, _, pushes) :=
      frame_loop L fuel (map Some frames ++ [None]) video audio fd in
    match r with
    | Ok Exited => exists pkts, pushes = map Some pkts ++ [None]
    | Ok Waiting => False
    | _ => exists pkts, pushes = map Some pkts
    end.
Proof.
  induction frames as [| f rest IH]; intros video audio.
  - cbn [map app frame_loop].
    destruct (send_to L fuel video None fd) as [[rv v'] pv].
    destruct rv as [[] | e |]; [| eauto | eauto].
    destruct (send_to L fuel audio None fd) as [[ra a'] pa].
    destruct ra as [[] | e |]; eauto.
  - cbn [map app frame_loop].
    destruct (send_to L fuel video (Some f) fd) as [[rv v'] pv].
    destruct rv as [[] | e |]; [| eauto | eauto].
    destruct (send_to L fuel audio (Some f) fd) as [[ra a'] pa].
    destruct ra as [[] | e |]; [| eauto | eauto].
    specialize (IH v' a').
    destruct (frame_loop L fuel (map Some rest ++ [None]) v' a' fd)
      as [[r streams] ps].
    destruct r as [[|] | e |].
    + destruct IH as [pkts ->]. exists ((pv ++ pa) ++ pkts).
      rewrite (map_app Some (pv ++ pa) pkts), <- app_assoc. reflexivity.
    + contradiction.
    + destruct IH as [pkts ->]. exists ((pv ++ pa) ++ pkts).
      rewrite (map_app Some (pv ++ pa) pkts). reflexivity.
    + destruct IH as [pkts ->]. exists ((pv ++ pa) ++ pkts).
      rewrite (map_app Some (pv ++ pa) pkts). reflexivity.
Qed.

(** *** The packet thread, fed in order *)

Lemma writer_take_stopped (w : packet_writer) (x : option AVPacket) :
  status w <> Writing -> writer_take L w x = w.
Proof. unfold writer_take. destruct (status w); congruence. Qed.

Lemma writer_feed_stopped (its : list (option AVPacket)) :
  forall w : packet_writer, status w <> Writing -> writer_feed L w its = w.
Proof.
  induction its as [| x its IH]; intros w H; [reflexivity |].
  cbn [writer_feed fold_left]. rewrite writer_take_stopped by assumption.
  now apply IH.
Qed.

Lemma writer_feed_app (w : packet_writer) (a b : list (option AVPacket)) :
  writer_feed L w (a ++ b) = writer_feed L (writer_feed L w a) b.
Proof. unfold writer_feed. apply fold_left_app. Qed.

Lemma trailer_calls_app (a b : list writer_event) :
  trailer_calls (a ++ b) = (trailer_calls a + trailer_calls b)%nat.
Proof. unfold trailer_calls. now rewrite filter_app, length_app. Qed.

Lemma closep_calls_app (a b : list writer_event) :
  closep_calls (a ++ b) = (closep_calls a + closep_calls b)%nat.
Proof. unfold closep_calls. now rewrite filter_app, length_app. Qed.

(** Writing a packet neither finishes the thread nor touches the trailer. *)
Lemma writer_take_packet (w : packet_writer) (pkt : AVPacket) :
  let w' := writer_take L w (Some pkt) in
  (status w <> Finished -> status w' <> Finished) /\
  oformat (writer_oc w') = oformat (writer_oc w) /\
  trailer_calls (writer_log w') = trailer_calls (writer_log w) /\
  closep_calls (writer_log w') = closep_calls (writer_log w).
Proof.
  unfold writer_take, on_container.
  destruct (status w) eqn:S; cbv zeta; try (rewrite S; repeat split; congruence).
  destruct (av_interleaved_write_frame L (oc_state (writer_oc w)) pkt) as [r o].
  cbn [status writer_log writer_oc oformat].
  rewrite trailer_calls_app, closep_calls_app.
  repeat split; try (unfold trailer_calls, closep_calls; simpl; lia).
  destruct (r <? 0); discriminate.
Qed.

Lemma writer_feed_packets (pkts : list AVPacket) :
  forall w : packet_writer,
    let w' := writer_feed L w (map Some pkts) in
    (status w <> Finished -> status w' <> Finished) /\
    oformat (writer_oc w') = oformat (writer_oc w) /\
    trailer_calls (writer_log w') = trailer_calls (writer_log w) /\
    closep_calls (writer_log w') = closep_calls (writer_log w).
Proof.
  induction pkts as [| p pkts IH]; intros w; cbv zeta.
  - repeat split; auto.
  - cbn [map writer_feed fold_left].
    pose proof (writer_take_packet w p) as (A & B & C & D).
    pose proof (IH (writer_take L w (Some p))) as (A' & B' & C' & D').
    unfold writer_feed in *.
    repeat split; try congruence. auto.
Qed.

(** The null packet on a writing thread: when the thread finishes, the
    trailer was written once, and the I/O closed once unless the format has
    no file. *)
Lemma writer_take_eof (w : packet_writer) :
  status w = Writing ->
  let w' := writer_take L w None in
  status w' <> Writing /\
  (status w' = Finished ->
   trailer_calls (writer_log w') = S (trailer_calls (writer_log w)) /\
   closep_calls (writer_log w') =
   ((if has_flag (writer_oc w) AVFMT_NOFILE then 0 else 1)
    + closep_calls (writer_log w))%nat).
Proof.
  intros S. unfold writer_take, on_container. rewrite S.
  destruct (av_write_trailer L (oc_state (writer_oc w))) as [r o].
  destruct (r <? 0); cbn [status writer_log]; [split; discriminate |].
  unfold has_flag. cbn [oformat].
  destruct (negb (Z.land (format_flags (oformat (writer_oc w))) AVFMT_NOFILE =? 0)).
  - cbn [negb]. cbn [status writer_log].
    rewrite trailer_calls_app, closep_calls_app.
    split; [discriminate |]. intros _.
    unfold trailer_calls, closep_calls. split; simpl; lia.
  - cbn [negb oc_state].
    destruct (avio_closep L o) as [r2 o2]. cbn [status writer_log].
    rewrite trailer_calls_app, closep_calls_app.
    split; [destruct (r2 <? 0); discriminate |].
    intros _. unfold trailer_calls, closep_calls. split; simpl; lia.
Qed.

(** *** Interleavings *)

Lemma push_spec (q q' : bounded_queue (option AVPacket)) (x : option AVPacket) :
  push q x = Some q' ->
  capacity q' = capacity q /\ items q' = items q ++ [x] /\
  Z.of_nat (length (items q)) < capacity q.
Proof.
  unfold push, is_full. destruct (capacity q <=? Z.of_nat (length (items q))) eqn:F.
  - discriminate.
  - intros [= <-]. simpl. repeat split. now apply Z.leb_gt.
Qed.

Lemma pop_spec (q q' : bounded_queue (option AVPacket)) (x : option AVPacket) :
  pop q = Some (x, q') ->
  capacity q' = capacity q /\ items q = x :: items q'.
Proof.
  unfold pop. destruct (items q) as [| y rest] eqn:I; [discriminate |].
  intros [= <- <-]. simpl. auto.
Qed.

Lemma invariant_start (o : AVFormatContext OC) (pushes : list (option AVPacket)) :
  invariant (mkWriter Writing o []) pushes (start o pushes (Ok Exited)).
Proof.
  constructor; simpl; try lia; eauto.
  exists []. simpl. auto.
Qed.

Lemma invariant_step (w0 : packet_writer) (pushes : list (option AVPacket))
    (s t : pipeline) :
  invariant w0 pushes s -> step L s t -> invariant w0 pushes t.
Proof.
  intros [(taken & Ht & Hw & He) Hc Hl Hm] Hstep.
  destruct Hstep; cbn [media packet_buffer writer enqueued pending] in *.
  - (* push *)
    destruct (push_spec _ _ _ H) as (C & I & F).
    constructor; cbn [media packet_buffer writer enqueued pending].
    + exists taken. rewrite I, <- !app_assoc. simpl. repeat split; auto.
      rewrite He, <- app_assoc. reflexivity.
    + congruence.
    + rewrite I, length_app. simpl. lia.
    + destruct Hm as [(p & [= <- <-]) | [K | K]]; try discriminate. eauto.
  - (* break *)
    constructor; cbn [media packet_buffer writer enqueued pending]; eauto.
  - (* throw *)
    destruct Hm as [(p & K) | [K | K]]; discriminate.
  - destruct Hm as [(p & K) | [K | K]]; discriminate.
  - destruct Hm as [(p & K) | [K | K]]; discriminate.
  - (* join *)
    constructor; cbn [media packet_buffer writer enqueued pending]; eauto.
  - (* pop *)
    destruct (pop_spec _ _ _ H0) as (C & I).
    assert ((length (items q') < 128)%nat) as Hlt by (rewrite I in Hl; simpl in Hl; lia).
    assert (is_full q' = false) as Hfull.
    { unfold is_full. apply Z.leb_gt. lia. }
    assert ((if aborting w (writer_take L w x) then abort_wakes_push q' m else m) = m)
      as Hsame.
    { destruct (aborting w (writer_take L w x)); [| reflexivity].
      unfold abort_wakes_push. destruct m as [[| y p] e | | | |]; try reflexivity.
      now rewrite Hfull. }
    rewrite Hsame.
    constructor; cbn [media packet_buffer writer enqueued pending].
    + exists (taken ++ [x]). rewrite I in Ht, He.
      rewrite <- !app_assoc. simpl. repeat split; auto.
      rewrite writer_feed_app, <- Hw. reflexivity.
    + congruence.
    + lia.
    + exact Hm.
Qed.

Lemma invariant_steps (w0 : packet_writer) (pushes : list (option AVPacket))
    (s t : pipeline) :
  invariant w0 pushes s -> steps L s t -> invariant w0 pushes t.
Proof.
  intros Hi Hs. induction Hs as [s | s t u Hst Htu IH]; [exact Hi |].
  apply IH. eapply invariant_step; eassumption.
Qed.

(** A thread that is still writing has not been fed the null packet. *)
Lemma writing_not_fed_eof (its : list (option AVPacket)) :
  forall w : packet_writer,
    status (writer_feed L w its) = Writing -> ~ In None its.
Proof.
  induction its as [| x its IH]; intros w H; [simpl; tauto |].
  cbn [writer_feed fold_left] in H. fold (writer_feed L (writer_take L w x) its) in H.
  intros [-> | Hin].
  - destruct (status w) eqn:S.
    + destruct (writer_take_eof w S) as [N _].
      rewrite writer_feed_stopped in H by exact N. contradiction.
    + rewrite writer_take_stopped in H by congruence.
      rewrite writer_feed_stopped in H by congruence. congruence.
    + rewrite writer_take_stopped in H by congruence.
      rewrite writer_feed_stopped in H by congruence. congruence.
  - exact (IH _ H Hin).
Qed.

(** A finished thread has been fed the null packet. *)
Lemma finished_fed_eof (its : list (option AVPacket)) :
  forall w : packet_writer,
    status w = Writing -> status (writer_feed L w its) = Finished -> In None its.
Proof.
  induction its as [| x its IH]; intros w S H.
  - simpl in H. congruence.
  - destruct x as [pkt |]; [| now left].
    right. cbn [writer_feed fold_left] in H.
    fold (writer_feed L (writer_take L w (Some pkt)) its) in H.
    destruct (status (writer_take L w (Some pkt))) eqn:S'.
    + exact (IH _ S' H).
    + rewrite writer_feed_stopped in H by congruence.
      pose proof (writer_take_packet w pkt) as (A & _). cbv zeta in A.
      exfalso. apply A; congruence.
    + rewrite writer_feed_stopped in H by congruence. congruence.
Qed.

Lemma prefix_with_eof (pkts : list AVPacket) (taken rest : list (option AVPacket)) :
  taken ++ rest = map Some pkts ++ [None] -> In None taken -> rest = [].
Proof.
  revert taken. induction pkts as [| p pkts IH]; intros taken H Hin.
  - destruct taken as [| x taken]; [contradiction |].
    simpl in H. injection H as _ H. now destruct taken.
  - destruct taken as [| x taken]; [contradiction |].
    simpl in H. injection H as -> H.
    destruct Hin as [K | Hin]; [discriminate |].
    exact (IH taken H Hin).
Qed.

(** *** Termination *)

Lemma step_measure (s t : pipeline) : step L s t -> (measure t < measure s)%nat.
Proof.
  intros H. destruct H; unfold measure;
    cbn [media packet_buffer writer enqueued].
  - destruct (push_spec _ _ _ H) as (_ & -> & _). rewrite length_app. simpl. lia.
  - lia.
  - lia.
  - destruct (push_spec _ _ _ H) as (_ & -> & _). rewrite length_app. simpl. lia.
  - lia.
  - lia.
  - destruct (pop_spec _ _ _ H0) as (_ & ->). simpl.
    destruct (aborting w (writer_take L w x)); [| lia].
    unfold abort_wakes_push. destruct m as [[| y p] e | | | |]; try lia.
    destruct (is_full q'); simpl; lia.
Qed.

Lemma pop_step_sound (s t : pipeline) : pop_step s = Some t -> step L s t.
Proof.
  unfold pop_step. destruct s as [m q w h]. cbn [media packet_buffer writer enqueued].
  destruct (status w) eqn:S; try discriminate.
  destruct (pop q) as [[x q'] |] eqn:P; [| discriminate].
  intros [= <-]. now apply step_pop.
Qed.

Lemma next_sound (s t : pipeline) : next s = Some t -> step L s t.
Proof.
  unfold next. destruct s as [m q w h]. cbn [media packet_buffer writer enqueued].
  destruct m as [[| x rest] e | | | |].
  - destruct e as [[|] | ex |]; try apply pop_step_sound.
    + intros [= <-]. apply step_break.
    + intros [= <-]. apply step_throw.
  - destruct (push q x) as [q' |] eqn:P; [| apply pop_step_sound].
    intros [= <-]. now apply step_push.
  - destruct (push q None) as [q' |] eqn:P; [| apply pop_step_sound].
    intros [= <-]. now apply step_exit_push.
  - intros [= <-]. apply step_exit_abort.
  - destruct (status w) eqn:S; try apply pop_step_sound;
      intros [= <-]; apply step_join; congruence.
  - apply pop_step_sound.
Qed.

Lemma pop_step_none (s t : pipeline) :
  pop_step s = None ->
  ~ (status (writer s) = Writing /\ exists x q', pop (packet_buffer s) = Some (x, q')).
Proof.
  unfold pop_step. intros H (S & x & q' & P). rewrite S, P in H. discriminate.
Qed.

Lemma next_none (s : pipeline) : next s = None -> stuck L s.
Proof.
  intros H t Hstep. unfold next in H.
  destruct Hstep; cbn [media packet_buffer writer enqueued] in H.
  - rewrite H0 in H. discriminate.
  - discriminate.
  - discriminate.
  - rewrite H0 in H. discriminate.
  - discriminate.
  - destruct (status w); [congruence | discriminate | discriminate].
  - assert (pop_step (mkPipeline m q w h) = None) as P.
    { destruct m as [[| y rest] e | | | |]; try exact H.
      - destruct e as [[|] | ex |]; try exact H; discriminate.
      - destruct (push q y); [discriminate | exact H].
      - destruct (push q None); [discriminate | exact H].
      - discriminate.
      - destruct (status w); [exact H | discriminate | discriminate]. }
    apply (pop_step_none _ (mkPipeline m q w h)) in P. apply P.
    cbn [writer packet_buffer]. eauto.
Qed.

(** Every state reaches a state that neither thread can leave. *)
Lemma reaches_stuck (n : nat) :
  forall s : pipeline, (measure s <= n)%nat -> exists t, steps L s t /\ stuck L t.
Proof.
  induction n as [| n IH]; intros s Hn.
  - destruct (next s) as [t |] eqn:N.
    + apply next_sound, step_measure in N. lia.
    + exists s. split; [apply steps_refl | now apply next_none].
  - destruct (next s) as [t |] eqn:N.
    + apply next_sound in N. pose proof (step_measure _ _ N) as M.
      destruct (IH t ltac:(lia)) as (u & Hu & Hs).
      exists u. split; [eapply steps_step; eassumption | exact Hs].
    + exists s. split; [apply steps_refl | now apply next_none].
Qed.

Lemma steps_trans (s t u : pipeline) : steps L s t -> steps L t u -> steps L s u.
Proof.
  intros H1 H2. induction H1 as [s | s t v Hst Htv IH]; [exact H2 |].
  eapply steps_step; [exact Hst | now apply IH].
Qed.

(** *** Where the runs end *)

Lemma writer_feed_oformat (its : list (option AVPacket)) :
  forall w : packet_writer,
    oformat (writer_oc (writer_feed L w its)) = oformat (writer_oc w).
Proof.
  induction its as [| x its IH]; intros w; [reflexivity |].
  cbn [writer_feed fold_left]. fold (writer_feed L (writer_take L w x) its).
  rewrite IH. unfold writer_take, on_container.
  destruct (status w); try reflexivity.
  destruct x as [pkt |].
  - destruct (av_interleaved_write_frame L _ pkt). reflexivity.
  - destruct (av_write_trailer L _) as [r o].
    destruct (r <? 0); [reflexivity |].
    destruct (negb (has_flag _ _)); [| reflexivity].
    cbn [oc_state oformat]. destruct (avio_closep L o). reflexivity.
Qed.

Lemma stuck_finalized (o : AVFormatContext OC) (pkts : list AVPacket)
    (t : pipeline) :
  let pushes := map Some pkts ++ [None] in
  let w0 := mkWriter Writing o [] in
  status (writer_feed L w0 pushes) = Finished ->
  invariant w0 pushes t -> stuck L t -> finalized pushes t.
Proof.
  intros pushes w0 Hfin [(taken & Ht & Hw & He) Hc Hl Hm] Hstuck.
  destruct t as [m q w h]. cbn [media packet_buffer writer enqueued] in *.
  (* the packet thread is not waiting for more *)
  assert (status w <> Writing) as Hstop.
  { intros S.
    destruct (items q) as [| x rest] eqn:I.
    - destruct Hm as [([| y p] & ->) | [-> | ->]].
      + apply (Hstuck (mkPipeline Joining q w h)). apply step_break.
      + assert (push q y = Some (mkQueue (capacity q) (items q ++ [y]))) as P.
        { unfold push, is_full. rewrite Hc, I. reflexivity. }
        exact (Hstuck _ (step_push L _ _ _ _ _ _ _ P)).
      + cbn [pending] in Ht. rewrite !app_nil_r in Ht. subst taken.
        rewrite <- Hw in Hfin. congruence.
      + cbn [pending] in Ht. rewrite !app_nil_r in Ht. subst taken.
        rewrite <- Hw in Hfin. congruence.
    - assert (pop q = Some (x, mkQueue (capacity q) rest)) as P.
      { unfold pop. now rewrite I. }
      exact (Hstuck _ (step_pop L m _ _ _ _ h S P)). }
  (* so it has been fed everything it will ever take *)
  assert (w = writer_feed L w0 pushes) as Hall.
  { rewrite <- Ht, writer_feed_app, <- Hw.
    now rewrite writer_feed_stopped. }
  assert (In None taken) as Heof.
  { apply (finished_fed_eof taken w0); [reflexivity |]. rewrite <- Hw, Hall. exact Hfin. }
  pose proof (prefix_with_eof pkts taken _ Ht Heof) as Hrest.
  apply app_eq_nil in Hrest. destruct Hrest as [Hq Hp].
  assert (m = Returned) as ->.
  { destruct Hm as [(p & ->) | [-> | ->]]; [| | reflexivity].
    - cbn [pending] in Hp. subst p. exfalso.
      apply (Hstuck (mkPipeline Joining q w h)). apply step_break.
    - exfalso. apply (Hstuck (mkPipeline Returned q w h)).
      now apply step_join. }
  rewrite Hq, Hp, !app_nil_r in Ht. rewrite Hq, app_nil_r in He.
  unfold finalized. cbn [media packet_buffer writer enqueued].
  split; [reflexivity |]. split; [congruence |]. split; [exact Hq |].
  split; [rewrite Hall; exact Hfin |].
  (* the calls of the packet thread *)
  rewrite Hall. unfold pushes in *. rewrite writer_feed_app in Hfin |- *.
  pose proof (writer_feed_packets pkts w0) as (F & O & T & C). cbv zeta in F, O, T, C.
  set (w1 := writer_feed L w0 (map Some pkts)) in *.
  cbn [writer_feed fold_left] in Hfin |- *.
  destruct (status w1) eqn:S1.
  - destruct (writer_take_eof w1 S1) as (_ & K). cbv zeta in K.
    destruct (K Hfin) as [K1 K2].
    rewrite K1, K2, T, C. cbn [trailer_calls closep_calls writer_log filter length w0].
    split; [reflexivity |].
    unfold has_flag.
    pose proof (writer_feed_oformat [None] w1) as O1.
    cbn [writer_feed fold_left] in O1. rewrite O1. rewrite Nat.add_0_r. reflexivity.
  - exfalso. apply F; [discriminate | reflexivity].
  - rewrite writer_take_stopped in Hfin by congruence. congruence.
Qed.

Lemma run_steps (n : nat) : forall s : pipeline, steps L s (run n s).
Proof.
  induction n as [| n IH]; intros s; [apply steps_refl |].
  cbn [run]. destruct (next s) as [t |] eqn:N; [| apply steps_refl].
  eapply steps_step; [apply next_sound; exact N | apply IH].
Qed.

(** C9, as the code has it.  The media thread pops [frames] and then the
    empty frame; every [send] returns, so the loop is left by [break] having
    pushed [pushes]; and no container call of the packet thread fails on
    [pushes].  Then [pushes] holds exactly one null packet.  In whatever way
    the two threads interleave around the packet queue, every step uses up
    the measure, a state that neither thread can leave is reached from every
    state of the run, and every such state is the same: the media thread has
    returned from its join, the queue is empty, everything pushed was
    enqueued, and the packet thread has finished having written the trailer
    exactly once and closed the I/O exactly once, or not at all when the
    format has [AVFMT_NOFILE].  [frames] may be empty. *)
Theorem eof_sentinel_finalizes_once (fuel : nat) (frames : list frame_payload)
    (video audio : option (Stream G E)) (fd : video_format_desc)
    (o : AVFormatContext OC)
    (streams : option (Stream G E) * option (Stream G E))
    (pushes : list (option AVPacket)) :
  frame_loop L fuel (map Some frames ++ [None]) video audio fd
  = (Ok Exited, streams, pushes) ->
  status (writer_feed L (mkWriter Writing o []) pushes) = Finished ->
  eof_packets pushes = 1%nat /\
  (forall t u, step L t u -> (measure u < measure t)%nat) /\
  (forall t, steps L (start o pushes (Ok Exited)) t ->
     exists u, steps L t u /\ stuck L u) /\
  (forall t, steps L (start o pushes (Ok Exited)) t -> stuck L t ->
     finalized pushes t).
Proof.
  intros Hloop Hfin.
  pose proof (frame_loop_eof fuel fd frames video audio) as Heof.
  rewrite Hloop in Heof. destruct Heof as [pkts ->].
  split; [| split; [| split]].
  - rewrite eof_packets_app, eof_packets_some. reflexivity.
  - exact step_measure.
  - intros t _. exact (reaches_stuck (measure t) t (le_n _)).
  - intros t Hreach Hstuck.
    apply (stuck_finalized o pkts t Hfin); [| exact Hstuck].
    eapply invariant_steps; [apply invariant_start | exact Hreach].
Qed.

End Pipeline.

Import consumer_model.

(** The end-of-stream frame with no frame before it, on a file: one null
    packet, one trailer, one close. *)
Lemma eof_sentinel_finalizes_once_witness :
  let L := libav_model 0 in
  let t := run L 8 (start opened_file [None] (Ok Exited)) in
  steps L (start opened_file [None] (Ok Exited)) t /\ stuck L t /\
  finalized [None] t /\
  writer_log (writer t) = [W_write_trailer 0; W_closep 0].
Proof.
  cbv zeta.
  assert (frame_loop (libav_model 0) 10 (map Some [] ++ [None])
            (Some video_stream) (Some audio_stream) pal
          = (Ok Exited,
             snd (fst (frame_loop (libav_model 0) 10 [None]
                         (Some video_stream) (Some audio_stream) pal)),
             [None])) as Hloop by (vm_compute; reflexivity).
  assert (status (writer_feed (libav_model 0) (mkWriter Writing opened_file [])
                              [None]) = Finished) as Hfin
    by (vm_compute; reflexivity).
  destruct (eof_sentinel_finalizes_once (libav_model 0) 10 []
              (Some video_stream) (Some audio_stream) pal opened_file
              _ [None] Hloop Hfin) as (_ & _ & _ & F).
  assert (steps (libav_model 0) (start opened_file [None] (Ok Exited))
                (run (libav_model 0) 8 (start opened_file [None] (Ok Exited))))
    as R by apply run_steps.
  assert (stuck (libav_model 0)
                (run (libav_model 0) 8 (start opened_file [None] (Ok Exited))))
    as K by (apply next_none; vm_compute; reflexivity).
  split; [exact R |]. split; [exact K |].
  split; [exact (F _ R K) | vm_compute; reflexivity].
Defined.

(** C9 as the specification words it fails in two runs.  On a sink whose
    writes fail (here with ENOSPC), one frame and the end-of-stream frame:
    one null packet is enqueued, but the packet thread has left at the failed
    write and the trailer is never written.  On the "null" muxer, with no
    frame before the end-of-stream frame: the trailer is written once and the
    I/O, which the format does not have, is not closed. *)
Lemma eof_sentinel_not_always_finalized :
  (let L := libav_model (AVERROR 28) in
   let loop := frame_loop L 10 [Some frame1; None] (Some video_stream) None pal in
   let pushes := snd loop in
   let t := run L 10 (start opened_file pushes (Ok Exited)) in
   fst (fst loop) = Ok Exited /\ eof_packets pushes = 1%nat /\
   steps L (start opened_file pushes (Ok Exited)) t /\ stuck L t /\
   media t = Returned /\ enqueued t = pushes /\
   status (writer t) = Aborted /\
   trailer_calls (writer_log (writer t)) = 0%nat) /\
  (let L := libav_model 0 in
   let loop := frame_loop L 10 [None] (Some video_stream) None pal in
   let pushes := snd loop in
   let t := run L 10 (start opened_null pushes (Ok Exited)) in
   fst (fst loop) = Ok Exited /\ eof_packets pushes = 1%nat /\
   steps L (start opened_null pushes (Ok Exited)) t /\ stuck L t /\
   media t = Returned /\
   status (writer t) = Finished /\
   trailer_calls (writer_log (writer t)) = 1%nat /\
   closep_calls (writer_log (writer t)) = 0%nat).
Proof.
  split; cbv zeta.
  - split; [vm_compute; reflexivity |]. split; [vm_compute; reflexivity |].
    split; [apply run_steps |].
    split; [apply next_none; vm_compute; reflexivity |].
    vm_compute. repeat split.
  - split; [vm_compute; reflexivity |]. split; [vm_compute; reflexivity |].
    split; [apply run_steps |].
    split; [apply next_none; vm_compute; reflexivity |].
    vm_compute. repeat split.
Qed.

End pipeline_properties.

(** ** Video decoder: numbering, construction and the direct copy *)

Module decoding_properties.

Import video_decoder.

Section Decoding.

Variable avpicture_fill : PixelFormat -> Z -> Z -> AVPicture.
Context {input : Type}.
Variable try_pop_video_packet : input -> option (option AVPacket) * input.
Context {decoder : Type}.
Variable avcodec_decode_video2 : decoder -> AVPacket -> (Z * Z * AVFrame) * decoder.
Variable avcodec_flush_buffers : decoder -> decoder.
Context {SwsContext : Type}.
Variable sws_getContext :
  Z -> Z -> PixelFormat -> Z -> Z -> PixelFormat -> option SwsContext.
Variable sws_scale : SwsContext -> AVFrame -> Z -> list Z.
Variable get_video_codec_context : input -> AVCodecContext decoder.

Local Abbreviation impl := (implementation input decoder SwsContext).
Local Abbreviation resolve := (get_pixel_format_desc avpicture_fill).
Local Abbreviation construct :=
  (implementation_ctor avpicture_fill sws_getContext get_video_codec_context).
Local Abbreviation decode :=
  (decode (input := input) avcodec_decode_video2 avcodec_flush_buffers sws_scale).
Local Abbreviation decode_all :=
  (decode_all (input := input) avcodec_decode_video2 avcodec_flush_buffers
              sws_scale).
Local Abbreviation make_write_frame :=
  (make_write_frame (input := input) (decoder := decoder) sws_scale).

Lemma map_seq_from {A : Type} (f : nat -> A) (n : nat) :
  forall a : nat, map f (seq a n) = map (fun i => f (a + i)%nat) (seq 0 n).
Proof.
  induction n as [| n IH]; intros a; [reflexivity |].
  cbn [seq map]. rewrite Nat.add_0_r. f_equal.
  rewrite IH. rewrite <- seq_shift. rewrite map_map.
  apply map_ext. intros i. f_equal. lia.
Qed.

(** One packet, whatever the codec does with it: an exception leaves the
    counter alone, a frame takes the counter and moves it on by one, and no
    frame leaves it alone. *)
Lemma decode_packet_cases (d : impl) (pkt : AVPacket) :
  0 <= frame_number_ d < 2 ^ 31 - 1 ->
  match decode (Some pkt) d with
  | (inl _, d') => frame_number_ d' = frame_number_ d
  | (inr frames, d') =>
      frame_number_ d' = frame_number_ d + Z.of_nat (length frames) /\
      (frames = [] \/ exists w, frames = [(frame_number_ d, w)])
  end.
Proof.
  intros Hn. unfold video_decoder.decode.
  destruct (avcodec_decode_video2 (ctx_state (codec_context_ d)) pkt)
    as [[[errn finished] frame] c].
  destruct (errn <? 0); [reflexivity |].
  destruct (finished =? 0); cbn [negb].
  - split; [cbn; lia | now left].
  - split.
    + cbn. rewrite to_size_t_small by lia. lia.
    + right. eexists. rewrite to_int_small by lia. reflexivity.
Qed.

(** X1. Sequence numbers count frames, not packets.  Packets decoded one after
    the other from counter [n], none of them the end-of-stream packet and none
    failing: however many of them complete no frame, the frames returned are
    numbered [n], [n+1], ...  without a gap, and the counter ends at [n] plus
    the number of frames returned. *)
Theorem decode_numbers_are_gap_free (pkts : list AVPacket) :
  forall (d d' : impl) (frames : list (Z * write_frame)),
    0 <= frame_number_ d ->
    frame_number_ d + Z.of_nat (length pkts) < 2 ^ 31 ->
    decode_all (map Some pkts) d = (inr frames, d') ->
    (length frames <= length pkts)%nat /\
    map fst frames
    = map (fun i => frame_number_ d + Z.of_nat i) (seq 0 (length frames)) /\
    frame_number_ d' = frame_number_ d + Z.of_nat (length frames).
Proof.
  induction pkts as [| pkt rest IH]; intros d d' frames H0 Hn Hall.
  - cbn in Hall. injection Hall as <- <-. cbn. repeat split; lia.
  - cbn [map video_decoder.decode_all] in Hall.
    cbn [length] in Hn.
    pose proof (decode_packet_cases d pkt ltac:(lia)) as Hc.
    destruct (decode (Some pkt) d) as [[e | first] d1]; [discriminate |].
    destruct Hc as [Hnum Hshape].
    destruct (decode_all (map Some rest) d1) as [[e | more] d2] eqn:Hrest;
      [discriminate |].
    injection Hall as <- <-.
    assert (length first <= 1)%nat as Hlen
      by (destruct Hshape as [-> | [w ->]]; cbn; lia).
    destruct (IH d1 d2 more) as (Hl & Hmap & Hlast); [lia | lia | exact Hrest |].
    rewrite length_app. split; [cbn [length]; lia |]. split.
    + rewrite map_app, Hmap, seq_app, map_app. f_equal.
      * destruct Hshape as [-> | [w ->]]; cbn; [reflexivity |].
        f_equal. lia.
      * rewrite (map_seq_from _ _ (0 + length first)).
        apply map_ext. intros i. lia.
    + lia.
Qed.

(** X2. A decoder that was constructed can make frames: its descriptor is
    the one the resolver gave, never [invalid] and with the planes of its
    kind, its counter is 0, and it holds a conversion context exactly when the
    native format is not one the resolver has a case for, in which case the
    descriptor is the BGRA one.  The only exception construction throws is
    for the refusal of swscale on such a format.  Construction has no defined
    outcome exactly where the resolver has no defined descriptor: for the
    native format or, when it has no case for that, for BGRA. *)
Theorem constructed_decoder_is_usable (inp : input) (ff : frame_factory) :
  let cc := get_video_codec_context inp in
  let pix := ctx_pix_fmt cc in
  let w := to_size_t (to_int (ctx_width cc)) in
  let h := to_size_t (to_int (ctx_height cc)) in
  match construct inp ff with
  | Some (inr d) =>
      pix_fmt (desc_ d) <> invalid /\
      length (planes (desc_ d)) = documented_plane_count (pix_fmt (desc_ d)) /\
      planes (desc_ d) <> [] /\
      frame_number_ d = 0 /\
      (sws_context_ d = None <-> In pix supported_formats) /\
      (sws_context_ d = None -> resolve pix w h = Some (desc_ d)) /\
      (sws_context_ d <> None ->
       resolve PIX_FMT_BGRA w h = Some (desc_ d) /\ pix_fmt (desc_ d) = bgra)
  | Some (inl e) =>
      ~ In pix supported_formats /\
      e = operation_failed "Could not create software scaling context."
                           "sws_getContext"
  | None =>
      resolve pix w h = None \/
      (~ In pix supported_formats /\ resolve PIX_FMT_BGRA w h = None)
  end.
Proof.
  intros cc pix w h. unfold implementation_ctor. fold cc. fold pix. fold w. fold h.
  destruct (resolve pix w h) as [desc |] eqn:Hd; [| now left].
  pose proof (decoder_properties.resolve_kind _ _ _ _ _ Hd) as Hk.
  pose proof (decoder_properties.resolve_plane_count _ _ _ _ _ Hd) as Hn.
  rewrite Hk.
  destruct (pixel_format_eqb (get_pixel_format pix) invalid) eqn:K.
  - apply decoder_properties.pixel_format_eqb_eq in K.
    assert (~ In pix supported_formats) as Hu
      by (intros Hin; apply decoder_properties.supported_iff in Hin; congruence).
    destruct (resolve PIX_FMT_BGRA w h) as [fallback |] eqn:Hf; [| now right].
    pose proof (decoder_properties.resolve_kind _ _ _ _ _ Hf) as Hkf.
    pose proof (decoder_properties.resolve_plane_count _ _ _ _ _ Hf) as Hnf.
    cbn [get_pixel_format documented_plane_count] in Hkf, Hnf.
    destruct (sws_getContext _ _ pix _ _ PIX_FMT_BGRA) as [ctx |].
    + cbn [desc_ sws_context_ frame_number_].
      rewrite Hkf, Hnf.
      split; [discriminate |]. split; [reflexivity |].
      split; [intros H; rewrite H in Hnf; discriminate Hnf |].
      split; [reflexivity |].
      split; [split; [discriminate | intros H; contradiction] |].
      split; [discriminate |]. intros _. split; reflexivity.
    + split; [exact Hu | reflexivity].
  - assert (get_pixel_format pix <> invalid) as Hs.
    { intros H. rewrite H in K. discriminate K. }
    cbn [desc_ sws_context_ frame_number_].
    rewrite Hk, Hn.
    split; [exact Hs |]. split; [reflexivity |].
    split.
    { intros H. rewrite H in Hn.
      destruct (get_pixel_format pix); cbn in Hn; congruence. }
    split; [reflexivity |].
    split; [split; [intros _; now apply decoder_properties.supported_iff
                   | reflexivity] |].
    split; [reflexivity |]. intros H. now contradiction H.
Qed.

(** *** The direct copy *)

Lemma length_concat_rows {A : Type} (rows : list (list A)) (k : nat) :
  Forall (fun r => length r = k) rows ->
  length (concat rows) = (length rows * k)%nat.
Proof.
  induction 1 as [| r rows Hr _ IH]; [reflexivity |].
  cbn [concat length]. rewrite length_app, IH, Hr. lia.
Qed.

Lemma nth_concat_rows {A : Type} (rows : list (list A)) (k : nat) (dflt : A) :
  Forall (fun r => length r = k) rows ->
  forall y x : nat, (x < k)%nat ->
    nth (y * k + x) (concat rows) dflt = nth x (nth y rows []) dflt.
Proof.
  induction 1 as [| r rows Hr _ IH]; intros y x Hx.
  - cbn. destruct (y * k + x)%nat, y, x; reflexivity.
  - destruct y as [| y]; cbn [concat nth].
    + cbn [Nat.mul Nat.add]. apply app_nth1. lia.
    + rewrite app_nth2 by lia.
      replace (S y * k + x - length r)%nat with (y * k + x)%nat by lia.
      now apply IH.
Qed.

(** A row of the copy is the first [linesize] bytes of the decoded row. *)
Lemma copy_row_spec (decoded : list Z) (dl : Z) (pl : plane) (y : nat) :
  0 <= linesize pl -> 0 <= dl ->
  Z.of_nat y * dl + linesize pl <= Z.of_nat (length decoded) ->
  length (copy_row decoded dl pl y) = Z.to_nat (linesize pl) /\
  forall x : nat, Z.of_nat x < linesize pl ->
    nth x (copy_row decoded dl pl y) 0 = nth (y * Z.to_nat dl + x) decoded 0.
Proof.
  intros Hl Hd Hfit. unfold copy_row.
  assert (Z.to_nat (Z.of_nat y * dl) = (y * Z.to_nat dl)%nat) as E by nia.
  rewrite E. split.
  - rewrite length_firstn, length_skipn. nia.
  - intros x Hx. rewrite nth_firstn.
    assert ((x <? Z.to_nat (linesize pl))%nat = true) as ->
      by (apply Nat.ltb_lt; lia).
    apply nth_skipn.
Qed.

(** X3. The direct path copies each plane row by row and drops the padding
    libav leaves at the end of a decoded row.  For a decoder without a
    conversion context, a plane [n] of its descriptor whose height fits an
    [int], and a decoded picture whose rows are at least as long as the
    plane's and lie within the decoded buffer: the buffer written for the
    plane holds [linesize * height] bytes and its row [y] is the first
    [linesize] bytes of the decoded row [y].  The frame has one buffer per
    plane and every plane was committed exactly once, in whatever order the
    parallel tasks ran; the whole frame was not committed. *)
Theorem direct_copy_strips_padding (d : impl) (f : AVFrame) (n : nat) (pl : plane) :
  sws_context_ d = None ->
  nth_error (planes (desc_ d)) n = Some pl ->
  Z.of_nat (length (planes (desc_ d))) < 2 ^ 31 ->
  let decoded := nth n (frame_data f) [] in
  let dl := nth n (frame_linesize f) 0 in
  0 <= height pl < 2 ^ 31 ->
  0 <= linesize pl <= dl ->
  (height pl - 1) * dl + linesize pl <= Z.of_nat (length decoded) ->
  let out := nth n (image_data (make_write_frame d f)) [] in
  Z.of_nat (length out) = linesize pl * height pl /\
  (forall y x : nat, Z.of_nat y < height pl -> Z.of_nat x < linesize pl ->
     nth (y * Z.to_nat (linesize pl) + x) out 0
     = nth (y * Z.to_nat dl + x) decoded 0) /\
  length (image_data (make_write_frame d f)) = length (planes (desc_ d)) /\
  plane_commits (make_write_frame d f) = repeat 1%nat (length (planes (desc_ d))) /\
  frame_commits (make_write_frame d f) = 0%nat.
Proof.
  intros Hsws Hpl Hcount decoded dl Hh Hl Hfit out.
  assert (n < length (planes (desc_ d)))%nat as Hn
    by (apply nth_error_Some; congruence).
  assert (plane_count (desc_ d) = length (planes (desc_ d))) as Hpc.
  { unfold plane_count. rewrite to_int_small by lia. apply Nat2Z.id. }
  assert (row_count pl = Z.to_nat (height pl)) as Hrc.
  { unfold row_count. rewrite to_int_small, to_size_t_small by lia. reflexivity. }
  assert (image_data (make_write_frame d f)
          = map (fun n => copy_plane f (nth n (planes (desc_ d)) (mkPlane 0 0 0)) n)
                (seq 0 (length (planes (desc_ d)))) /\
          plane_commits (make_write_frame d f)
          = repeat 1%nat (length (planes (desc_ d))) /\
          frame_commits (make_write_frame d f) = 0%nat) as (Himg & Hcom & Hall).
  { unfold video_decoder.make_write_frame. rewrite Hsws, Hpc.
    destruct (is_dvvideo _ && is_upper _); repeat split; reflexivity. }
  assert (out = copy_plane f pl n) as Hout.
  { unfold out. rewrite Himg.
    rewrite (nth_indep _ [] (copy_plane f (nth 0 (planes (desc_ d)) (mkPlane 0 0 0)) 0))
      by (rewrite length_map, length_seq; exact Hn).
    rewrite (map_nth (fun n => copy_plane f (nth n (planes (desc_ d)) (mkPlane 0 0 0)) n)).
    rewrite seq_nth by exact Hn. cbn [Nat.add].
    now rewrite (nth_error_nth _ _ (mkPlane 0 0 0) Hpl). }
  assert (Forall (fun r => length r = Z.to_nat (linesize pl))
                 (map (copy_row decoded dl pl) (seq 0 (Z.to_nat (height pl)))))
    as Hrows.
  { apply Forall_map, Forall_forall. intros y Hy. apply in_seq in Hy.
    apply copy_row_spec; nia. }
  split; [| split; [| split; [| split]]].
  - rewrite Hout. unfold copy_plane. fold decoded. fold dl. rewrite Hrc.
    rewrite (length_concat_rows _ _ Hrows), length_map, length_seq. nia.
  - intros y x Hy Hx. rewrite Hout. unfold copy_plane. fold decoded. fold dl.
    rewrite Hrc.
    rewrite (nth_concat_rows _ _ 0 Hrows) by lia.
    rewrite (nth_indep _ [] (copy_row decoded dl pl 0))
      by (rewrite length_map, length_seq; lia).
    rewrite map_nth, seq_nth by lia. cbn [Nat.add].
    apply copy_row_spec; nia.
  - rewrite Himg, length_map, length_seq. reflexivity.
  - exact Hcom.
  - exact Hall.
Qed.

(** X4. [receive] goes on past the end-of-stream packet.  When the source
    hands out the end-of-stream packet and then a packet that completes a
    frame in the flushed decoder, one call of [receive] pops both, flushes the
    codec, and returns that frame with sequence number 0, whatever the counter
    was before; the counter is 1 after the call. *)
Theorem receive_restarts_behind_the_eof_packet (d : impl) (i1 i2 : input)
    (pkt : AVPacket) :
  try_pop_video_packet (input_ d) = (Some None, i1) ->
  try_pop_video_packet i1 = (Some (Some pkt), i2) ->
  yields_frame avcodec_decode_video2
    (avcodec_flush_buffers (ctx_state (codec_context_ d))) pkt ->
  exists w d',
    receive try_pop_video_packet avcodec_decode_video2 avcodec_flush_buffers
            sws_scale d
    = (inr [(0, w)], d', [popped None 0; popped (Some pkt) 1]) /\
    frame_number_ d' = 1 /\ input_ d' = i2 /\
    ctx_state (codec_context_ d')
    = snd (avcodec_decode_video2
             (avcodec_flush_buffers (ctx_state (codec_context_ d))) pkt).
Proof.
  intros Hpop1 Hpop2 Hy.
  unfold receive. cbn [video_decoder.receive_loop]. rewrite Hpop1.
  cbn [video_decoder.decode app length].
  cbn [video_decoder.receive_loop set_codec_state set_input input_].
  rewrite Hpop2.
  unfold video_decoder.yields_frame in Hy.
  cbn [video_decoder.decode set_codec_state set_input input_ codec_context_
       ctx_state frame_number_].
  destruct (avcodec_decode_video2
              (avcodec_flush_buffers (ctx_state (codec_context_ d))) pkt)
    as [[[errn finished] frame] c].
  destruct Hy as [He Hf].
  assert ((errn <? 0) = false) as -> by (apply Z.ltb_ge; lia).
  assert ((finished =? 0) = false) as -> by (now apply Z.eqb_neq).
  cbn [negb app length video_decoder.receive_loop].
  eexists. eexists. split; [reflexivity |].
  cbn [set_codec_state frame_number_ input_ codec_context_ ctx_state snd].
  repeat split.
Qed.

End Decoding.

Import decoder_model.

(** The end-of-stream packet and a packet behind it in the source of a
    decoder whose counter stands at 7. *)
Lemma receive_restarts_behind_the_eof_packet_witness :
  let d := mkImpl ([None; Some (packet [1])], PIX_FMT_BGRA) None
                  (mkFrameFactory progressive)
                  (get_video_codec_context ([], PIX_FMT_BGRA)) 720 576
                  PIX_FMT_BGRA (mkDesc bgra [plane_ctor 720 576 4]) 7 in
  exists w d',
    video_decoder.receive try_pop_video_packet avcodec_decode_video2
                          avcodec_flush_buffers sws_scale d
    = (inr [(0, w)], d', [popped None 0; popped (Some (packet [1])) 1]) /\
    frame_number_ d' = 1.
Proof.
  cbv zeta.
  destruct (receive_restarts_behind_the_eof_packet try_pop_video_packet
              avcodec_decode_video2 avcodec_flush_buffers sws_scale
              (mkImpl ([None; Some (packet [1])], PIX_FMT_BGRA) None
                      (mkFrameFactory progressive)
                      (get_video_codec_context ([], PIX_FMT_BGRA)) 720 576
                      PIX_FMT_BGRA (mkDesc bgra [plane_ctor 720 576 4]) 7)
              ([Some (packet [1])], PIX_FMT_BGRA) ([], PIX_FMT_BGRA) (packet [1])
              eq_refl eq_refl) as (w & d' & Hr & Hn & _).
  - cbn. lia.
  - exists w, d'. split; [exact Hr | exact Hn].
Defined.

(** Three packets of which the second completes no frame: two frames,
    numbered 0 and 1. *)
Lemma decode_numbers_are_gap_free_witness :
  exists frames d',
    video_decoder.decode_all avcodec_decode_nonempty avcodec_flush_buffers sws_scale
      (map Some [packet [1]; packet []; packet [2]]) (fresh_decoder [])
    = (inr frames, d') /\
    map fst frames = [0; 1] /\ frame_number_ d' = 2.
Proof.
  destruct (video_decoder.decode_all avcodec_decode_nonempty avcodec_flush_buffers
              sws_scale (map Some [packet [1]; packet []; packet [2]])
              (fresh_decoder [])) as [[e | frames] d'] eqn:K.
  - vm_compute in K. discriminate K.
  - exists frames, d'. split; [reflexivity |].
    destruct (decode_numbers_are_gap_free avcodec_decode_nonempty
                avcodec_flush_buffers sws_scale
                [packet [1]; packet []; packet [2]] (fresh_decoder []) d' frames)
      as (_ & Hmap & Hlast).
    + cbn. lia.
    + cbn. lia.
    + exact K.
    + assert (length frames = 2%nat) as Hlen.
      { vm_compute in K. injection K as <- _. reflexivity. }
      rewrite Hmap, Hlast, Hlen. split; reflexivity.
Defined.

(** The padded picture copied for a plane of two rows of three bytes. *)
Lemma direct_copy_strips_padding_witness :
  let out :=
    nth 0 (image_data (video_decoder.make_write_frame sws_scale gray_decoder
                                                      padded_frame)) [] in
  Z.of_nat (length out) = 6 /\ nth 3 out 0 = 4 /\ nth 5 out 0 = 6 /\
  plane_commits (video_decoder.make_write_frame sws_scale gray_decoder padded_frame)
  = [1%nat].
Proof.
  cbv zeta.
  destruct (direct_copy_strips_padding sws_scale gray_decoder padded_frame 0
              (mkPlane 3 2 1) eq_refl eq_refl) as (Hlen & Hrow & _ & Hcom & _).
  - cbn. lia.
  - cbn. lia.
  - cbn. lia.
  - cbn. lia.
  - split; [exact Hlen |]. split; [| split].
    + apply (Hrow 1%nat 0%nat); cbn; lia.
    + apply (Hrow 1%nat 2%nat); cbn; lia.
    + exact Hcom.
Defined.

End decoding_properties.

(** ** Option maps *)

Module option_properties.

Import ffmpeg_consumer.

Lemma map_find_absent (k : String.string) (m : options) :
  ~ In k (map fst m) -> map_find k m = None.
Proof.
  induction m as [| [k' v] m IH]; [reflexivity |].
  cbn [map fst In map_find]. intros H.
  destruct (String.eqb_spec k k') as [-> | _]; [tauto |].
  apply IH. tauto.
Qed.

Lemma map_find_present (k : String.string) (m : options) :
  In k (map fst m) -> exists v, map_find k m = Some v.
Proof.
  induction m as [| [k' v] m IH]; [contradiction |].
  cbn [map fst In map_find]. intros H.
  destruct (String.eqb_spec k k') as [-> | Hne]; [now exists v |].
  apply IH. destruct H as [H | H]; [congruence | exact H].
Qed.

Lemma map_find_assign (k k' v : String.string) (m : options) :
  map_find k (map_assign k' v m)
  = if String.eqb k k' then Some v else map_find k m.
Proof.
  induction m as [| [k0 v0] m IH]; cbn [map_assign map_find].
  - reflexivity.
  - destruct (String.eqb_spec k' k0) as [-> | Hne]; cbn [map_find].
    + destruct (String.eqb k k0); reflexivity.
    + rewrite IH. destruct (String.eqb_spec k k0) as [-> | _]; [| reflexivity].
      destruct (String.eqb_spec k0 k') as [E | _]; [congruence | reflexivity].
Qed.

Lemma map_find_emplace (k k' v : String.string) (m : options) :
  map_find k (map_emplace k' v m)
  = match map_find k m with
    | Some x => Some x
    | None => if String.eqb k k' then Some v else None
    end.
Proof.
  unfold map_emplace. destruct (map_find k' m) as [x |] eqn:K.
  - destruct (map_find k m) eqn:K2; [reflexivity |].
    destruct (String.eqb_spec k k') as [-> | _]; [congruence | reflexivity].
  - clear K. induction m as [| [k0 v0] m IH]; cbn [app map_find].
    + destruct (String.eqb k k'); reflexivity.
    + destruct (String.eqb k k0); [reflexivity | exact IH].
Qed.

Lemma map_find_erase (k k' : String.string) (m : options) :
  map_find k (map_erase k' m)
  = if String.eqb k k' then None else map_find k m.
Proof.
  induction m as [| [k0 v0] m IH]; cbn [map_erase map_find].
  - destruct (String.eqb k k'); reflexivity.
  - destruct (String.eqb_spec k' k0) as [-> | Hne]; cbn [map_find].
    + rewrite IH. destruct (String.eqb k k0); reflexivity.
    + rewrite IH. destruct (String.eqb_spec k k0) as [-> | _]; [| reflexivity].
      destruct (String.eqb_spec k0 k') as [E | _]; [congruence | reflexivity].
Qed.

Lemma keys_assign (k v : String.string) (m : options) :
  forall x, In x (map fst (map_assign k v m)) <-> x = k \/ In x (map fst m).
Proof.
  induction m as [| [k0 v0] m IH]; intros x; cbn [map_assign map fst In].
  - intuition.
  - destruct (String.eqb_spec k k0) as [-> | Hne]; cbn [map fst In].
    + intuition.
    + rewrite IH. intuition.
Qed.

Lemma unique_keys_assign (k v : String.string) (m : options) :
  unique_keys m -> unique_keys (map_assign k v m).
Proof.
  unfold unique_keys.
  induction m as [| [k0 v0] m IH]; intros H; cbn [map_assign map fst].
  - constructor; [intros [] | constructor].
  - cbn [map fst] in H. inversion H as [| ? ? Hnot Hrest]; subst.
    destruct (String.eqb_spec k k0) as [-> | Hne]; cbn [map fst].
    + constructor; assumption.
    + constructor; [| now apply IH].
      rewrite keys_assign. intros [E | Hin]; [congruence | contradiction].
Qed.

Lemma unique_keys_emplace (k v : String.string) (m : options) :
  unique_keys m -> unique_keys (map_emplace k v m).
Proof.
  unfold unique_keys, map_emplace. intros H.
  destruct (map_find k m) as [x |] eqn:K; [exact H |].
  rewrite map_app. cbn [map fst].
  apply NoDup_app; [exact H | constructor; [intros [] | constructor] |].
  intros x Hin [<- | []].
  destruct (map_find_present k m Hin) as [v' Hv]. congruence.
Qed.

Lemma unique_keys_filter (p : String.string * String.string -> bool) (m : options) :
  unique_keys m -> unique_keys (filter p m).
Proof.
  unfold unique_keys.
  induction m as [| e m IH]; intros H; cbn [filter]; [exact H |].
  cbn [map] in H. inversion H as [| ? ? Hnot Hrest]; subst.
  destruct (p e); [| now apply IH].
  cbn [map]. constructor; [| now apply IH].
  intros Hin. apply Hnot. apply in_map_iff in Hin.
  destruct Hin as (e' & He & Hf). apply filter_In in Hf.
  apply in_map_iff. exists e'. tauto.
Qed.

Lemma map_find_filter (p : String.string * String.string -> bool)
    (k : String.string) (m : options) :
  unique_keys m ->
  map_find k (filter p m)
  = match map_find k m with
    | Some v => if p (k, v) then Some v else None
    | None => None
    end.
Proof.
  unfold unique_keys.
  induction m as [| [k0 v0] m IH]; intros H; [reflexivity |].
  cbn [map fst] in H. inversion H as [| ? ? Hnot Hrest]; subst.
  cbn [filter map_find].
  destruct (String.eqb_spec k k0) as [-> | Hne].
  - destruct (p (k0, v0)) eqn:P; cbn [map_find].
    + now rewrite String.eqb_refl.
    + apply map_find_absent. intros Hin. apply Hnot.
      apply in_map_iff in Hin. destruct Hin as (e' & He & Hf).
      apply filter_In in Hf. apply in_map_iff. exists e'. tauto.
  - destruct (p (k0, v0)); cbn [map_find].
    + destruct (String.eqb_spec k k0) as [E | _]; [congruence | now apply IH].
    + now apply IH.
Qed.

Lemma to_map_fold (dict acc : options) :
  unique_keys dict -> unique_keys acc ->
  let m := fold_left (fun m p => map_assign (fst p) (snd p) m) dict acc in
  unique_keys m /\
  forall k, map_find k m
            = match map_find k dict with
              | Some v => Some v
              | None => map_find k acc
              end.
Proof.
  unfold unique_keys. revert acc.
  induction dict as [| [k0 v0] dict IH]; intros acc Hd Ha; cbn [fold_left].
  - split; [exact Ha | reflexivity].
  - cbn [map fst] in Hd. inversion Hd as [| ? ? Hnot Hrest]; subst.
    cbn [fst snd].
    destruct (IH (map_assign k0 v0 acc) Hrest (unique_keys_assign k0 v0 acc Ha))
      as [Hu Hf].
    split; [exact Hu |]. intros k. rewrite Hf, map_find_assign.
    cbn [map_find].
    destruct (String.eqb_spec k k0) as [-> | _]; [| reflexivity].
    now rewrite (map_find_absent k0 dict Hnot).
Qed.

(** *** The dictionary *)

Lemma in_insert_by_key (e x : String.string * String.string) (m : options) :
  In x (insert_by_key e m) <-> x = e \/ In x m.
Proof.
  induction m as [| e' m IH]; cbn [insert_by_key In].
  - intuition.
  - destruct (String.leb (fst e) (fst e')); cbn [In]; [intuition |].
    rewrite IH. intuition.
Qed.

Lemma in_in_key_order (x : String.string * String.string) (m : options) :
  In x (in_key_order m) <-> In x m.
Proof.
  induction m as [| e m IH]; cbn [in_key_order fold_right In]; [tauto |].
  rewrite in_insert_by_key. fold (in_key_order m). rewrite IH. intuition.
Qed.

Lemma unique_keys_insert (e : String.string * String.string) (m : options) :
  ~ In (fst e) (map fst m) -> unique_keys m -> unique_keys (insert_by_key e m).
Proof.
  unfold unique_keys.
  induction m as [| e' m IH]; intros Hnot Hm; cbn [insert_by_key].
  - cbn. constructor; [intros [] | constructor].
  - destruct (String.leb (fst e) (fst e')).
    + cbn [map]. constructor; assumption.
    + cbn [map fst In] in *. inversion Hm as [| ? ? Hn Hr]; subst.
      constructor; [| apply IH; tauto].
      intros Hin. apply in_map_iff in Hin. destruct Hin as (x & Hx & Hin).
      apply in_insert_by_key in Hin.
      destruct Hin as [-> | Hin]; [apply Hnot; left; now symmetry |].
      apply Hn. apply in_map_iff. now exists x.
Qed.

Lemma map_find_insert (k : String.string) (e : String.string * String.string)
    (m : options) :
  ~ In (fst e) (map fst m) ->
  map_find k (insert_by_key e m) = map_find k (e :: m).
Proof.
  induction m as [| [k' v'] m IH]; intros Hnot; cbn [insert_by_key];
    [reflexivity |].
  destruct (String.leb (fst e) (fst (k', v'))); [reflexivity |].
  cbn [map fst In] in Hnot. destruct e as [ke ve]. cbn [fst] in *.
  cbn [map_find]. rewrite IH by tauto. cbn [map_find].
  destruct (String.eqb_spec k k') as [-> | _]; [| reflexivity].
  destruct (String.eqb_spec k' ke) as [E | _]; [| reflexivity].
  exfalso. apply Hnot. now left.
Qed.

(** Going through a map in the order of its keys finds what the map holds. *)
Lemma in_key_order_spec (m : options) :
  unique_keys m ->
  unique_keys (in_key_order m) /\
  forall k, map_find k (in_key_order m) = map_find k m.
Proof.
  unfold unique_keys.
  induction m as [| e m IH]; intros Hm; cbn [in_key_order fold_right].
  - split; [exact Hm | reflexivity].
  - cbn [map] in Hm. inversion Hm as [| ? ? Hn Hr]; subst.
    destruct (IH Hr) as [Hu Hf]. fold (in_key_order m).
    assert (~ In (fst e) (map fst (in_key_order m))) as Hnot.
    { intros Hin. apply Hn. apply in_map_iff in Hin.
      destruct Hin as (x & Hx & Hin).
      apply (proj1 (in_in_key_order x m)) in Hin.
      apply in_map_iff. now exists x. }
    split; [now apply unique_keys_insert |].
    intros k. rewrite map_find_insert by exact Hnot.
    destruct e as [ke ve]. cbn [map_find]. now rewrite Hf.
Qed.

Lemma av_dict_get_none (d : options) (key : String.string) :
  (forall e, In e d -> av_key_match (fst e) key = false) ->
  av_dict_get d key = None.
Proof.
  induction d as [| [k v] d IH]; intros H; [reflexivity |].
  cbn [av_dict_get].
  pose proof (H (k, v) (or_introl eq_refl)) as Hk. cbn [fst] in Hk. rewrite Hk.
  rewrite IH; [reflexivity |]. intros e He. apply H. now right.
Qed.

Local Abbreviation has_value :=
  (fun p : String.string * String.string => negb (is_empty (snd p))).

Local Abbreviation dict_step :=
  (fun (dict : options) (p : String.string * String.string) =>
     if is_empty (snd p) then dict
     else av_dict_set dict (c_str (fst p)) (c_str (snd p))).

(** Where no key meets another up to case, every option with a value is
    appended to the dictionary as it is. *)
Lemma to_dict_appends (l : options) :
  forall d0 : options,
    unique_keys l -> c_strings l -> keys_apart l ->
    (forall e e', In e d0 -> In e' l -> is_empty (snd e') = false ->
                  av_key_match (fst e) (fst e') = false) ->
    fold_left dict_step l d0 = d0 ++ filter has_value l.
Proof.
  induction l as [| [k v] l IH]; intros d0 Hu Hc Ha Hd; cbn [fold_left filter].
  - now rewrite app_nil_r.
  - unfold unique_keys in Hu. cbn [map fst] in Hu.
    inversion Hu as [| ? ? Hn Hr]; subst.
    assert (c_strings l) as Hc' by (intros e He; apply Hc; now right).
    assert (keys_apart l) as Ha'
      by (intros e e' He He'; apply Ha; now right).
    cbn [fst snd]. destruct (is_empty v) eqn:Ev; cbn [negb].
    + apply IH; try assumption.
      intros e e' He He'. apply Hd; [exact He | now right].
    + destruct (Hc (k, v) (or_introl eq_refl)) as [Hk Hv]. cbn [fst snd] in Hk, Hv.
      rewrite Hk, Hv. unfold av_dict_set.
      rewrite av_dict_get_none.
      2:{ intros e He. apply (Hd e (k, v) He (or_introl eq_refl) Ev). }
      rewrite IH; try assumption.
      * now rewrite <- app_assoc.
      * intros e e' He He' Ee'. apply in_app_or in He.
        destruct He as [He | [<- | []]]; [apply Hd; [exact He | now right | exact Ee'] |].
        cbn [fst].
        destruct (av_key_match k (fst e')) eqn:M; [| reflexivity].
        exfalso. apply Hn.
        pose proof (Ha (k, v) e' (or_introl eq_refl) (or_intror He') Ev Ee' M)
          as K.
        cbn [fst] in K. rewrite K. now apply in_map.
Qed.

Lemma to_dict_keeps_values (m : options) :
  unique_keys m -> c_strings m -> keys_apart m ->
  to_dict m = filter has_value (in_key_order m).
Proof.
  intros Hu Hc Ha. unfold to_dict.
  rewrite to_dict_appends; [reflexivity | | | |].
  - now apply in_key_order_spec.
  - intros e He. apply Hc. now apply (proj1 (in_in_key_order e m)).
  - intros e e' He He'.
    apply Ha; [now apply (proj1 (in_in_key_order e m))
              | now apply (proj1 (in_in_key_order e' m))].
  - intros e e' [].
Qed.

(** X5. An option map handed to libav as an [AVDictionary] and read back,
    when no key or value holds a NUL and no two options that have a value
    have keys that differ only in case: if libav takes nothing out of the
    dictionary, every option with a value comes back as it was, and every
    option whose value is empty is gone. *)
Theorem options_survive_the_dictionary (m : options) (k : String.string) :
  unique_keys m -> c_strings m -> keys_apart m ->
  unique_keys (to_map (to_dict m)) /\
  map_find k (to_map (to_dict m))
  = match map_find k m with
    | Some v => if is_empty v then None else Some v
    | None => None
    end.
Proof.
  intros Hm Hc Ha. rewrite (to_dict_keeps_values m Hm Hc Ha). unfold to_map.
  destruct (in_key_order_spec m Hm) as [Hu Hfind].
  destruct (to_map_fold (filter has_value (in_key_order m)) []
              (unique_keys_filter _ _ Hu) (NoDup_nil _)) as [Hu' Hf].
  split; [exact Hu' |]. rewrite Hf.
  rewrite (map_find_filter _ k _ Hu), Hfind.
  destruct (map_find k m) as [v |]; [| reflexivity].
  cbn [snd]. destruct (is_empty v); reflexivity.
Qed.

Lemma options_survive_the_dictionary_witness :
  map_find "preset" (to_map (to_dict [("preset", "fast"); ("an", "")])) = Some "fast" /\
  map_find "an" (to_map (to_dict [("preset", "fast"); ("an", "")])) = None.
Proof.
  assert (unique_keys [("preset", "fast"); ("an", "")]) as Hu.
  { unfold unique_keys. cbn.
    constructor; [intros [H | []]; discriminate H |].
    constructor; [intros [] | constructor]. }
  assert (c_strings [("preset", "fast"); ("an", "")]) as Hc.
  { intros e [<- | [<- | []]]; split; reflexivity. }
  assert (keys_apart [("preset", "fast"); ("an", "")]) as Ha.
  { intros e e' [<- | [<- | []]] [<- | [<- | []]] H1 H2 H3;
      try reflexivity; discriminate. }
  split.
  - exact (proj2 (options_survive_the_dictionary _ "preset" Hu Hc Ha)).
  - exact (proj2 (options_survive_the_dictionary _ "an" Hu Hc Ha)).
Defined.

(** *** Keys that differ only in case *)

Lemma av_key_match_sym (a b : String.string) :
  av_key_match a b = av_key_match b a.
Proof.
  revert b. induction a as [| x a IH]; intros [| y b]; cbn [av_key_match];
    try reflexivity.
  now rewrite IH, Ascii.eqb_sym.
Qed.

Lemma av_key_match_trans (a b c : String.string) :
  av_key_match a b = true -> av_key_match b c = true -> av_key_match a c = true.
Proof.
  revert b c. induction a as [| x a IH]; intros [| y b] [| z c];
    cbn [av_key_match]; try discriminate; try reflexivity.
  intros H1 H2. apply andb_prop in H1, H2.
  destruct H1 as [E1 M1], H2 as [E2 M2].
  apply Ascii.eqb_eq in E1, E2. rewrite E1, E2, Ascii.eqb_refl.
  exact (IH b c M1 M2).
Qed.

(** Keys that match each other match the same keys. *)
Lemma av_key_match_same (a b key : String.string) :
  av_key_match a b = true -> av_key_match a key = av_key_match b key.
Proof.
  intros H.
  destruct (av_key_match b key) eqn:B.
  - exact (av_key_match_trans _ _ _ H B).
  - destruct (av_key_match a key) eqn:A; [| reflexivity].
    rewrite av_key_match_sym in H.
    rewrite (av_key_match_trans _ _ _ H A) in B. discriminate B.
Qed.

Lemma av_dict_get_found (d : options) (key : String.string) (i : nat) :
  av_dict_get d key = Some i ->
  exists pre x post,
    d = pre ++ x :: post /\ length pre = i /\ av_key_match (fst x) key = true.
Proof.
  revert i. induction d as [| [k v] d IH]; intros i; cbn [av_dict_get];
    [discriminate |].
  destruct (av_key_match k key) eqn:M.
  - intros [= <-]. now exists [], (k, v), d.
  - destruct (av_dict_get d key) as [j |]; [| discriminate].
    intros [= <-]. destruct (IH j eq_refl) as (pre & x & post & -> & <- & Hx).
    now exists ((k, v) :: pre), x, post.
Qed.

Lemma av_dict_get_missing (d : options) (key : String.string) :
  av_dict_get d key = None ->
  forall e, In e d -> av_key_match (fst e) key = false.
Proof.
  induction d as [| [k v] d IH]; cbn [av_dict_get In]; [intros _ e [] |].
  destruct (av_key_match k key) eqn:M; [discriminate |].
  destruct (av_dict_get d key); [discriminate |].
  intros _ e [<- | He]; [exact M | now apply IH].
Qed.

Lemma av_dict_drop_last (pre : options) (x : String.string * String.string) :
  av_dict_drop (length pre) (pre ++ [x]) = pre.
Proof.
  unfold av_dict_drop. rewrite removelast_last, length_app. cbn [length].
  replace (S (length pre) =? length pre + 1)%nat with true
    by (symmetry; apply Nat.eqb_eq; lia).
  reflexivity.
Qed.

Lemma av_dict_drop_inner (pre mid : options)
    (x y : String.string * String.string) :
  av_dict_drop (length pre) (pre ++ x :: mid ++ [y]) = pre ++ y :: mid.
Proof.
  unfold av_dict_drop.
  replace (pre ++ x :: mid ++ [y]) with ((pre ++ x :: mid) ++ [y])
    by (now rewrite <- app_assoc).
  rewrite removelast_last, last_last, !length_app. cbn [length].
  replace (S (length pre) =? length pre + S (length mid) + 1)%nat with false
    by (symmetry; apply Nat.eqb_neq; lia).
  rewrite firstn_app, Nat.sub_diag, firstn_all. cbn [firstn].
  rewrite app_nil_r.
  replace (S (length pre)) with (length (pre ++ [x]))
    by (rewrite length_app; cbn; lia).
  replace (pre ++ x :: mid) with ((pre ++ [x]) ++ mid)
    by (now rewrite <- app_assoc).
  rewrite skipn_app, Nat.sub_diag, skipn_all. reflexivity.
Qed.

Lemma short_app_comm {A : Type} (a b : list A) :
  (length (a ++ b) <= 1)%nat -> a ++ b = b ++ a.
Proof.
  destruct a as [| x a]; [now rewrite app_nil_r |].
  destruct b as [| y b]; [now rewrite app_nil_r |].
  rewrite length_app. cbn [length]. lia.
Qed.

Local Abbreviation matching key :=
  (filter (fun e : String.string * String.string => av_key_match (fst e) key)).

(** One [av_dict_set] on a dictionary that holds at most one entry for the
    key looked at: a key that matches takes the place of that entry, and any
    other key leaves it where it is. *)
Lemma av_dict_set_matching (d : options) (k v key : String.string) :
  (length (matching key d) <= 1)%nat ->
  matching key (av_dict_set d k v)
  = if av_key_match k key then [(k, v)] else matching key d.
Proof.
  intros Hone. unfold av_dict_set.
  destruct (av_dict_get d k) as [i |] eqn:Hget.
  - destruct (av_dict_get_found d k i Hget) as (pre & x & post & -> & <- & Hx).
    pose proof (av_key_match_same _ _ key Hx) as Hsame.
    destruct (exists_last (l := x :: post) ltac:(discriminate))
      as (body & y & Hbody).
    destruct body as [| x' mid].
    + cbn [app] in Hbody. injection Hbody as -> ->.
      rewrite av_dict_drop_last.
      rewrite (filter_app _ pre [y]) in Hone |- *.
      rewrite (filter_app _ pre [(k, v)]).
      cbn [filter fst] in Hone |- *. rewrite Hsame in Hone |- *.
      destruct (av_key_match k key); [| reflexivity].
      rewrite length_app in Hone. cbn [length] in Hone.
      destruct (matching key pre); [reflexivity | cbn in Hone; lia].
    + cbn [app] in Hbody. injection Hbody as <- ->.
      rewrite av_dict_drop_inner.
      replace ((pre ++ y :: mid) ++ [(k, v)])
        with (pre ++ [y] ++ mid ++ [(k, v)])
        by (now rewrite <- app_assoc).
      replace (pre ++ x :: mid ++ [y]) with (pre ++ [x] ++ mid ++ [y])
        in Hone |- * by reflexivity.
      rewrite (filter_app _ pre ([x] ++ mid ++ [y])) in Hone |- *.
      rewrite (filter_app _ [x] (mid ++ [y])) in Hone |- *.
      rewrite (filter_app _ mid [y]) in Hone |- *.
      rewrite (filter_app _ pre ([y] ++ mid ++ [(k, v)])).
      rewrite (filter_app _ [y] (mid ++ [(k, v)])).
      rewrite (filter_app _ mid [(k, v)]).
      cbn [filter fst] in Hone |- *.
      rewrite Hsame in Hone |- *.
      destruct (av_key_match k key).
      * rewrite !length_app in Hone. cbn [length] in Hone.
        destruct (matching key pre); [| cbn in Hone; lia].
        destruct (matching key mid); [| cbn in Hone; lia].
        destruct (av_key_match (fst y) key); [cbn in Hone; lia | reflexivity].
      * cbn [app] in Hone |- *. rewrite app_nil_r. f_equal.
        apply short_app_comm.
        rewrite length_app in Hone. rewrite length_app.
        rewrite length_app in Hone. lia.
  - rewrite filter_app. cbn [filter fst].
    destruct (av_key_match k key) eqn:M; [| now rewrite app_nil_r].
    assert (matching key d = []) as ->; [| reflexivity].
    pose proof (av_dict_get_missing d k Hget) as Hm. clear Hone Hget.
    induction d as [| e d IH]; [reflexivity |].
    cbn [filter].
    assert (av_key_match (fst e) key = false) as ->.
    { destruct (av_key_match (fst e) key) eqn:K; [| reflexivity].
      rewrite <- (Hm e (or_introl eq_refl)).
      rewrite av_key_match_sym in M.
      symmetry. exact (av_key_match_trans _ _ _ K M). }
    apply IH. intros e' He'. apply Hm. now right.
Qed.

Local Abbreviation has_value_for key :=
  (fun p : String.string * String.string =>
     negb (is_empty (snd p)) && av_key_match (c_str (fst p)) key).

Lemma to_dict_matching (l : options) (key : String.string) :
  forall d0 : options,
    (length (matching key d0) <= 1)%nat ->
    matching key (fold_left dict_step l d0)
    = match rev (filter (has_value_for key) l) with
      | p :: _ => [(c_str (fst p), c_str (snd p))]
      | [] => matching key d0
      end.
Proof.
  induction l as [| p l IH]; intros d0 Hone; cbn [fold_left filter];
    [reflexivity |].
  assert (matching key (dict_step d0 p)
          = if has_value_for key p then [(c_str (fst p), c_str (snd p))]
            else matching key d0) as Hstep.
  { cbv beta. destruct (is_empty (snd p)); cbn [negb andb]; [reflexivity |].
    now apply av_dict_set_matching. }
  rewrite IH.
  2:{ rewrite Hstep. destruct (has_value_for key p); [cbn; lia | exact Hone]. }
  rewrite Hstep.
  destruct (has_value_for key p); [| reflexivity].
  cbn [rev].
  destruct (rev (filter (has_value_for key) l)); reflexivity.
Qed.

Lemma insert_by_key_sorted (e : String.string * String.string) (m : options) :
  Sorted (fun a b => String.leb (fst a) (fst b) = true) m ->
  Sorted (fun a b => String.leb (fst a) (fst b) = true) (insert_by_key e m).
Proof.
  induction m as [| e' m IH]; intros Hs; cbn [insert_by_key].
  - constructor; constructor.
  - destruct (String.leb (fst e) (fst e')) eqn:Le.
    + constructor; [exact Hs | constructor; exact Le].
    + apply Sorted_inv in Hs. destruct Hs as [Hs Hd].
      constructor; [now apply IH |].
      destruct m as [| e'' m]; cbn [insert_by_key].
      * constructor.
        destruct (String.leb_total (fst e) (fst e')) as [K | K];
          [congruence | exact K].
      * destruct (String.leb (fst e) (fst e'')).
        -- constructor.
           destruct (String.leb_total (fst e) (fst e')) as [K | K];
             [congruence | exact K].
        -- constructor. now apply HdRel_inv in Hd.
Qed.

(** X23. Options whose keys differ only in case share an entry of the
    dictionary.  [to_dict] goes through the map in the order of its keys,
    and for every key that is looked up, the dictionary holds at most one
    entry that matches it up to case: of the options that have a value and
    whose key matches, the one that comes last in the order of the keys,
    with its key and value as C strings; the options before it were
    replaced by [av_dict_set]. *)
Theorem dictionary_keeps_the_last_of_a_case (m : options) (key : String.string) :
  Sorted (fun a b => String.leb (fst a) (fst b) = true) (in_key_order m) /\
  (forall e, In e (in_key_order m) <-> In e m) /\
  filter (fun e => av_key_match (fst e) key) (to_dict m)
  = match rev (filter (fun p => negb (is_empty (snd p))
                                && av_key_match (c_str (fst p)) key)
                      (in_key_order m)) with
    | p :: _ => [(c_str (fst p), c_str (snd p))]
    | [] => []
    end.
Proof.
  split; [| split].
  - induction m as [| e m IH]; cbn [in_key_order fold_right]; [constructor |].
    now apply insert_by_key_sorted.
  - intros e. apply in_in_key_order.
  - unfold to_dict. rewrite to_dict_matching by (cbn; lia). reflexivity.
Qed.

(** Two options whose keys differ only in case: the dictionary holds the
    second, under its own key. *)
Example to_dict_of_keys_in_two_cases :
  to_dict [("b", "2"); ("B", "1"); ("crf", "23"); ("an", "")]
  = [("b", "2"); ("crf", "23")].
Proof. reflexivity. Qed.

(** *** Keys and suffixes *)

Lemma length_append (a b : String.string) :
  String.length (String.append a b) = (String.length a + String.length b)%nat.
Proof. induction a as [| c a IH]; cbn; [reflexivity | now rewrite IH]. Qed.

Lemma substring_all (s : String.string) :
  String.substring 0 (String.length s) s = s.
Proof. induction s as [| c s IH]; cbn; [reflexivity | now rewrite IH]. Qed.

Lemma substring_prefix (a b : String.string) :
  String.substring 0 (String.length a) (String.append a b) = a.
Proof.
  induction a as [| c a IH]; cbn.
  - destruct b; reflexivity.
  - now rewrite IH.
Qed.

Lemma substring_suffix (a b : String.string) :
  String.substring (String.length a) (String.length b) (String.append a b) = b.
Proof.
  induction a as [| c a IH]; cbn; [apply substring_all | exact IH].
Qed.

Lemma substring_split (s : String.string) :
  forall a : nat, (a <= String.length s)%nat ->
    String.append (String.substring 0 a s)
                  (String.substring a (String.length s - a) s) = s.
Proof.
  induction s as [| c s IH]; intros a Ha; cbn [String.length] in *.
  - destruct a; [reflexivity | lia].
  - destruct a as [| a].
    + cbn. now rewrite substring_all.
    + cbn. rewrite IH by lia. reflexivity.
Qed.

(** The key of a stream option as the constructor cuts it. *)
Local Abbreviation cut_key suffix k :=
  (String.substring 0 (String.length k - String.length suffix) k).

Lemma cut_key_restores (suffix k : String.string) :
  ends_with k suffix = true -> String.append (cut_key suffix k) suffix = k.
Proof.
  unfold ends_with. intros H. apply andb_prop in H. destruct H as [Hle He].
  apply Nat.leb_le in Hle. apply String.eqb_eq in He.
  pose proof (substring_split k (String.length k - String.length suffix)
                ltac:(lia)) as S.
  replace (String.length k - (String.length k - String.length suffix))%nat
    with (String.length suffix) in S by lia.
  rewrite He in S. exact S.
Qed.

Lemma ends_with_append (key suffix : String.string) :
  ends_with (String.append key suffix) suffix = true /\
  cut_key suffix (String.append key suffix) = key.
Proof.
  unfold ends_with. rewrite length_append.
  replace (String.length key + String.length suffix - String.length suffix)%nat
    with (String.length key) by lia.
  rewrite substring_suffix, String.eqb_refl, substring_prefix.
  split; [| reflexivity].
  apply andb_true_intro. split; [apply Nat.leb_le; lia | reflexivity].
Qed.

Lemma partition_options_spec (suffix : String.string) (tmp : options) :
  forall so0 rest0 : options,
    let '(so, rest) := partition_options suffix tmp so0 rest0 in
    (forall key, map_find key so
                 = match map_find key so0 with
                   | Some v => Some v
                   | None => map_find (String.append key suffix) tmp
                   end) /\
    (forall k, map_find k rest
               = match map_find k rest0 with
                 | Some v => Some v
                 | None => if ends_with k suffix then None else map_find k tmp
                 end) /\
    (unique_keys so0 -> unique_keys so) /\
    (unique_keys rest0 -> unique_keys rest).
Proof.
  induction tmp as [| [k v] tmp IH]; intros so0 rest0; cbn [partition_options].
  - repeat split; try tauto.
    + intros key. cbn. now destruct (map_find key so0).
    + intros k. cbn. destruct (map_find k rest0); [reflexivity |].
      now destruct (ends_with k suffix).
  - destruct (ends_with k suffix) eqn:Ek.
    + specialize (IH (map_emplace (cut_key suffix k) v so0) rest0).
      destruct (partition_options suffix tmp _ rest0) as [so rest].
      destruct IH as (Hso & Hrest & Uso & Urest).
      split; [| split; [| split]].
      * intros key. rewrite Hso, map_find_emplace. cbn [map_find].
        destruct (map_find key so0); [reflexivity |].
        destruct (String.eqb_spec key (cut_key suffix k)) as [-> | Hne].
        -- rewrite (cut_key_restores suffix k Ek). now rewrite String.eqb_refl.
        -- destruct (String.eqb_spec (String.append key suffix) k) as [E | _];
             [| reflexivity].
           exfalso. apply Hne. rewrite <- E.
           symmetry. apply ends_with_append.
      * intros k0. rewrite Hrest. cbn [map_find].
        destruct (map_find k0 rest0); [reflexivity |].
        destruct (ends_with k0 suffix) eqn:E0; [reflexivity |].
        destruct (String.eqb_spec k0 k) as [-> | _]; [congruence | reflexivity].
      * intros H. apply Uso. now apply unique_keys_emplace.
      * exact Urest.
    + specialize (IH so0 (map_emplace k v rest0)).
      destruct (partition_options suffix tmp so0 _) as [so rest].
      destruct IH as (Hso & Hrest & Uso & Urest).
      split; [| split; [| split]].
      * intros key. rewrite Hso. cbn [map_find].
        destruct (map_find key so0); [reflexivity |].
        destruct (String.eqb_spec (String.append key suffix) k) as [E | _];
          [| reflexivity].
        exfalso. rewrite <- E in Ek.
        rewrite (proj1 (ends_with_append key suffix)) in Ek. discriminate Ek.
      * intros k0. rewrite Hrest, map_find_emplace. cbn [map_find].
        destruct (map_find k0 rest0); [reflexivity |].
        destruct (String.eqb_spec k0 k) as [-> | _].
        -- now rewrite Ek.
        -- reflexivity.
      * exact Uso.
      * intros H. apply Urest. now apply unique_keys_emplace.
Qed.

(** X6. The first loop of the [Stream] constructor splits the caller's options
    by the stream's suffix: the stream gets, under [NAME], the value the
    caller gave for [NAME] followed by the suffix; the caller keeps exactly
    the options whose key does not end in the suffix, with their values; and
    both maps have unique keys. *)
Theorem options_are_split_by_suffix (suffix : String.string) (opts : options) :
  let '(stream_options, rest) := partition_options suffix opts [] [] in
  (forall name, map_find name stream_options
                = map_find (String.append name suffix) opts) /\
  (forall k, map_find k rest
             = if ends_with k suffix then None else map_find k opts) /\
  unique_keys stream_options /\ unique_keys rest.
Proof.
  pose proof (partition_options_spec suffix opts [] []) as H.
  destruct (partition_options suffix opts [] []) as [so rest].
  destruct H as (Hso & Hrest & Uso & Urest).
  split; [exact Hso |]. split; [exact Hrest |].
  split; [apply Uso | apply Urest]; apply NoDup_nil.
Qed.

Lemma map_erase_filter (k : String.string) (m : options) :
  map_erase k m = filter (fun p => negb (String.eqb k (fst p))) m.
Proof.
  induction m as [| [k0 v0] m IH]; [reflexivity |].
  cbn [map_erase filter fst]. rewrite IH.
  now destruct (String.eqb k k0).
Qed.

Lemma unique_keys_erase (k : String.string) (m : options) :
  unique_keys m -> unique_keys (map_erase k m).
Proof. rewrite map_erase_filter. apply unique_keys_filter. Qed.

Section Arguments.

Context {G E OC : Type}.
Variable L : libav G E OC.

(** The parts [stream_arguments] returns, in terms of the caller's map. *)
Lemma stream_arguments_parts (suffix : String.string) (codec_id : AVCodecID)
    (opts : options) :
  let '(stream_options, filter_spec, codec, rest) :=
    stream_arguments L suffix codec_id opts in
  filter_spec
  = match map_find (String.append "filter" suffix) opts with
    | Some v => v
    | None => ""
    end /\
  codec
  = match map_find (String.append "codec" suffix) opts with
    | Some name => avcodec_find_encoder_by_name L name
    | None => avcodec_find_encoder L codec_id
    end /\
  unique_keys stream_options /\
  (forall name,
     map_find name stream_options
     = if String.eqb name "filter" then Some ""
       else if String.eqb name "codec" then None
            else map_find (String.append name suffix) opts) /\
  (forall k, map_find k rest
             = if ends_with k suffix then None else map_find k opts).
Proof.
  unfold stream_arguments.
  pose proof (partition_options_spec suffix opts [] []) as H.
  destruct (partition_options suffix opts [] []) as [so1 rest].
  destruct H as (Hso & Hrest & Uso & _).
  specialize (Uso (NoDup_nil _)). cbn [map_find] in Hso, Hrest.
  set (so2 := match map_find "filter" so1 with
              | Some v => (v, map_erase "filter" so1)
              | None => ("", so1)
              end).
  assert (fst so2 = match map_find (String.append "filter" suffix) opts with
                    | Some v => v
                    | None => ""
                    end
          /\ unique_keys (snd so2)
          /\ forall name, map_find name (snd so2)
                          = if String.eqb name "filter" then None
                            else map_find name so1) as (Hspec & U2 & F2).
  { unfold so2. rewrite <- Hso.
    destruct (map_find "filter" so1) as [v |] eqn:K; cbn [fst snd].
    - split; [reflexivity |]. split; [now apply unique_keys_erase |].
      intros name. apply map_find_erase.
    - split; [reflexivity |]. split; [exact Uso |].
      intros name. destruct (String.eqb_spec name "filter") as [-> | _];
        [exact K | reflexivity]. }
  destruct so2 as [filter_spec so2']. cbn [fst snd] in *.
  set (so3 := map_index "filter" so2').
  assert (unique_keys so3) as U3 by (now apply unique_keys_emplace).
  assert (forall name, map_find name so3
                       = if String.eqb name "filter" then Some ""
                         else map_find name so1) as F3.
  { intros name. unfold so3, map_index. rewrite map_find_emplace, F2.
    destruct (String.eqb name "filter"); [reflexivity |].
    now destruct (map_find name so1). }
  assert (map_find "codec" so3 = map_find (String.append "codec" suffix) opts)
    as Hc by (rewrite F3, <- Hso; reflexivity).
  rewrite <- Hc.
  destruct (map_find "codec" so3) as [cname |] eqn:K.
  - split; [exact Hspec |]. split; [reflexivity |].
    split; [now apply unique_keys_erase |]. split; [| exact Hrest].
    intros name. rewrite map_find_erase, F3, <- Hso.
    destruct (String.eqb_spec name "filter") as [-> | _]; [reflexivity |].
    reflexivity.
  - split; [exact Hspec |]. split; [reflexivity |].
    split; [exact U3 |]. split; [| exact Hrest].
    intros name. rewrite F3, <- Hso.
    destruct (String.eqb_spec name "filter") as [-> | _]; [reflexivity |].
    destruct (String.eqb_spec name "codec") as [-> | _]; [| reflexivity].
    rewrite F3 in K. exact K.
Qed.

(** X7. Where the options of a stream go.  Of the caller's options, the
    constructor takes the ones whose key ends in the stream's suffix.
    [filter] with the suffix is the filter spec (empty when absent); [codec]
    with the suffix names the encoder, which is otherwise the container's
    default for [codec_id].  The map the constructor keeps for the encoder,
    the one it turns into the dictionary of [avcodec_open2], has unique keys
    and holds [filter] with an empty value, no [codec], and every other
    option of the stream under its name without the suffix, with the value
    the caller gave.  The options without the suffix stay with the caller. *)
Theorem stream_arguments_route_options (suffix : String.string)
    (codec_id : AVCodecID) (opts : options) :
  let '(stream_options, filter_spec, codec, rest) :=
    stream_arguments L suffix codec_id opts in
  filter_spec
  = match map_find (String.append "filter" suffix) opts with
    | Some v => v
    | None => ""
    end /\
  codec
  = match map_find (String.append "codec" suffix) opts with
    | Some name => avcodec_find_encoder_by_name L name
    | None => avcodec_find_encoder L codec_id
    end /\
  unique_keys stream_options /\
  map_find "filter" stream_options = Some "" /\
  map_find "codec" stream_options = None /\
  (forall name, name <> "filter" -> name <> "codec" ->
     map_find name stream_options = map_find (String.append name suffix) opts) /\
  (forall k, map_find k rest
             = if ends_with k suffix then None else map_find k opts).
Proof.
  pose proof (stream_arguments_parts suffix codec_id opts) as H.
  destruct (stream_arguments L suffix codec_id opts) as [[[so spec] codec] rest].
  destruct H as (Hspec & Hcodec & Hu & Hso & Hrest).
  split; [exact Hspec |]. split; [exact Hcodec |]. split; [exact Hu |].
  split; [apply Hso |]. split; [apply Hso |]. split; [| exact Hrest].
  intros name Hf Hc. rewrite Hso.
  apply String.eqb_neq in Hf, Hc. now rewrite Hf, Hc.
Qed.

(** X8. Without an encoder, or without a graph, the constructor stops before
    it has touched anything but the caller's options.  When the encoder the
    options resolve to does not exist it throws an [ffmpeg_error_t] with
    [EINVAL], and when there is an encoder but [avfilter_graph_alloc] returns
    null, one with [ENOMEM]; in both cases the container is as it was, no link
    was attempted, and the caller's map has lost exactly the options with the
    stream's suffix. *)
Theorem constructor_stops_before_the_graph (oc : AVFormatContext OC)
    (suffix : String.string) (codec_id : AVCodecID) (fd : video_format_desc)
    (opts : options) :
  let chosen :=
    match map_find (String.append "codec" suffix) opts with
    | Some name => avcodec_find_encoder_by_name L name
    | None => avcodec_find_encoder L codec_id
    end in
  chosen = None \/ avfilter_graph_alloc L = None ->
  let '(r, (rest, oc', links)) := Stream_ctor L oc suffix codec_id fd opts in
  r = Throw (match chosen with
             | None => ffmpeg_error_t EINVAL "avcodec_find_encoder"
             | Some _ => ffmpeg_error_t ENOMEM "avfilter_graph_alloc"
             end) /\
  oc' = oc /\ links = [] /\
  (forall k, map_find k rest
             = if ends_with k suffix then None else map_find k opts).
Proof.
  intros chosen Hnone. unfold Stream_ctor.
  pose proof (stream_arguments_parts suffix codec_id opts) as H.
  destruct (stream_arguments L suffix codec_id opts) as [[[so spec] codec] rest].
  destruct H as (_ & Hcodec & _ & _ & Hrest). fold chosen in Hcodec.
  rewrite Hcodec. destruct chosen as [c |].
  - destruct Hnone as [K | K]; [discriminate K |]. rewrite K.
    repeat split. exact Hrest.
  - repeat split. exact Hrest.
Qed.

Lemma to_map_unique (dict acc : options) :
  unique_keys acc ->
  unique_keys (fold_left (fun m p => map_assign (fst p) (snd p) m) dict acc).
Proof.
  revert acc. induction dict as [| [k v] dict IH]; intros acc Ha; cbn [fold_left].
  - exact Ha.
  - apply IH. now apply unique_keys_assign.
Qed.

Lemma assign_all (f : String.string -> String.string) (d : options) :
  unique_keys d ->
  forall (acc : options) (k : String.string),
    map_find k (fold_left (fun o p => map_assign (fst p) (f (snd p)) o) d acc)
    = match map_find k d with
      | Some v => Some (f v)
      | None => map_find k acc
      end.
Proof.
  unfold unique_keys.
  induction d as [| [k0 v0] d IH]; intros Hd acc k; cbn [fold_left].
  - reflexivity.
  - cbn [map fst] in Hd. inversion Hd as [| ? ? Hnot Hrest]; subst.
    cbn [fst snd]. rewrite (IH Hrest), map_find_assign. cbn [map_find].
    destruct (String.eqb_spec k k0) as [-> | _]; [| reflexivity].
    now rewrite (map_find_absent k0 d Hnot).
Qed.

(** X9. What the encoder did not use goes back to the caller.  When the second
    half of the constructor returns a stream, the encoder was opened with the
    stream's options that have a value, and every entry [avcodec_open2] left
    in the dictionary is written into the caller's map under its key as the
    dictionary has it, the suffix put in front of its value; the caller's
    other options are not touched. *)
Theorem unused_encoder_options_go_back (suffix : String.string) (codec : AVCodec)
    (stream_options : options) (src snk : nat) (w w' : @ctor_world G OC)
    (s : Stream G E) :
  open_encoder L suffix codec stream_options src snk w = (Ok s, w') ->
  exists (enc0 enc1 : AVCodecContext E) (r : Z) (dict : options),
    avcodec_open2 L enc0 codec (to_dict stream_options) = (r, dict, enc1) /\
    0 <= r /\
    forall k, map_find k (cw_options w')
              = match map_find k (to_map dict) with
                | Some v => Some (String.append suffix v)
                | None => map_find k (cw_options w)
                end.
Proof.
  unfold open_encoder, bind, new_stream, gets, set_options, modify, FF, FF_RET,
    throw, ret, on_graph.
  destruct (avformat_new_stream L (oc_state (cw_oc w))) as [[st0 |] o1];
    [| discriminate].
  destruct (avcodec_alloc_context3 L codec) as [e0 |]; [| discriminate].
  cbn [cw_graph cw_options cw_oc cw_links cw_calls].
  destruct (configure_encoder L codec (cw_graph w) snk st0 e0) as [st1 enc0].
  destruct (avcodec_open2 L enc0 codec (to_dict stream_options))
    as [[r dict] enc1] eqn:Hopen.
  destruct (r <? 0) eqn:Hr; [discriminate |].
  destruct (avcodec_parameters_from_context L st1 enc1) as [r2 st2].
  destruct (r2 <? 0); [discriminate |].
  intros H.
  exists enc0, enc1, r, dict. split; [exact Hopen |].
  split; [now apply Z.ltb_ge |].
  intros k.
  assert (cw_options w'
          = fold_left (fun o p => map_assign (fst p) (String.append suffix (snd p)) o)
                      (to_map dict) (cw_options w)) as ->.
  { destruct (media_type_eqb (type codec) AVMEDIA_TYPE_AUDIO
              && negb (variable_frame_size codec));
      cbn [cw_graph cw_options cw_oc cw_links cw_calls] in H;
      destruct (has_flag _ AVFMT_GLOBALHEADER);
      injection H as _ <-; reflexivity. }
  apply assign_all. apply to_map_unique. apply NoDup_nil.
Qed.

End Arguments.

Import consumer_model.

(** The video stream asked for an encoder the model does not have. *)
Lemma constructor_stops_before_the_graph_witness :
  Stream_ctor (libav_model 0) quicktime ":v" 13 pal
              [("codec:v", "libx264"); ("preset:v", "fast"); ("b:a", "128k")]
  = (Throw (ffmpeg_error_t EINVAL "avcodec_find_encoder"),
     ([("b:a", "128k")], quicktime, [])).
Proof.
  pose proof (constructor_stops_before_the_graph (libav_model 0) quicktime ":v" 13
                pal [("codec:v", "libx264"); ("preset:v", "fast"); ("b:a", "128k")]
                (or_introl eq_refl)) as H.
  destruct (Stream_ctor (libav_model 0) quicktime ":v" 13 pal
              [("codec:v", "libx264"); ("preset:v", "fast"); ("b:a", "128k")])
    as [r [[rest oc'] links]] eqn:K.
  destruct H as (-> & -> & -> & _).
  vm_compute in K. injection K as <-. reflexivity.
Defined.

(** The video stream opened with a preset the model's encoder does not use:
    the caller finds it again, under the key without the suffix. *)
Lemma unused_encoder_options_go_back_witness :
  map_find "preset"
    (cw_options (snd (open_encoder (libav_model 0) ":v" rawvideo
                        [("preset", "fast")] 1 2
                        (mkCtorWorld [] (mkGraphState [] [] false) quicktime [] []))))
  = Some ":vfast".
Proof.
  destruct (open_encoder (libav_model 0) ":v" rawvideo [("preset", "fast")] 1 2
              (mkCtorWorld [] (mkGraphState [] [] false) quicktime [] []))
    as [[s | e |] w'] eqn:K;
    [| vm_compute in K; discriminate K | vm_compute in K; discriminate K].
  destruct (unused_encoder_options_go_back (libav_model 0) _ _ _ _ _ _ _ _ K)
    as (enc0 & enc1 & r & dict & Hopen & _ & Hback).
  cbn in Hopen. injection Hopen as _ <- _.
  cbn [snd]. rewrite Hback. reflexivity.
Defined.

End option_properties.

(** ** Stream: what one send hands on *)

Module send_properties.

Import ffmpeg_consumer.

Section Send.

Context {G E OC : Type}.
Variable L : libav G E OC.

Local Abbreviation world := (@send_world G E).

(** A packet as [send] hands it to the callback: what the encoder returned,
    given the index of the stream's track and rescaled from the encoder's
    time base to the track's. *)
Local Abbreviation handed_on s p :=
  (exists raw : AVPacket,
      p = av_packet_rescale_ts L (set_stream_index raw (st_index (st s)))
                               (time_base (enc s)) (st_time_base (st s))).

Ltac simpl_world :=
  cbv beta iota zeta; cbn [fst snd enc sink source st pts graph].

Ltac stop :=
  repeat split; exists []; rewrite app_nil_r; split; [reflexivity | constructor].

(** The drain loop adds packets to the trace and nothing else, and leaves
    the counter, the track, the time base and the graph's ends alone. *)
Lemma drain_hands_on_packets (fuel : nat) :
  forall w : world,
    let w' := snd (drain L fuel w) in
    pts (fst w') = pts (fst w) /\
    st (fst w') = st (fst w) /\
    time_base (enc (fst w')) = time_base (enc (fst w)) /\
    source (fst w') = source (fst w) /\
    sink (fst w') = sink (fst w) /\
    exists pkts,
      snd w' = snd w ++ map Ev_packet pkts /\
      Forall (fun p => handed_on (fst w) p) pkts.
Proof.
  induction fuel as [| fuel IH]; intros [s tr]; cbn [drain].
  - cbn. repeat split. exists []. rewrite app_nil_r. split; [reflexivity | constructor].
  - unfold bind, gets, on_encoder, on_stream_graph, emit, modify, FF, FF_RET,
      throw, ret. simpl_world.
    destruct (avcodec_receive_packet L (enc s)) as [[r pkt] e1].
    simpl_world.
    assert (forall (w1 : world) (extra : list AVPacket),
              pts (fst w1) = pts s -> st (fst w1) = st s ->
              time_base (enc (fst w1)) = time_base (enc s) ->
              source (fst w1) = source s -> sink (fst w1) = sink s ->
              snd w1 = tr ++ map Ev_packet extra ->
              Forall (fun p => handed_on s p) extra ->
              let w' := snd (drain L fuel w1) in
              pts (fst w') = pts s /\ st (fst w') = st s /\
              time_base (enc (fst w')) = time_base (enc s) /\
              source (fst w') = source s /\ sink (fst w') = sink s /\
              exists pkts, snd w' = tr ++ map Ev_packet pkts /\
                           Forall (fun p => handed_on s p) pkts) as Again.
    { intros w1 extra Hp Hst Htb Hsrc Hsnk Htr Hall.
      destruct (IH w1) as (P & S & T & A & B & pkts & Hpk & Hf).
      cbv zeta. rewrite P, S, T, A, B, Hp, Hst, Htb, Hsrc, Hsnk.
      repeat split. exists (extra ++ pkts). split.
      - rewrite Hpk, Htr, map_app, app_assoc. reflexivity.
      - apply Forall_app. split; [exact Hall |].
        rewrite Hst, Htb in Hf. exact Hf. }
    destruct (r =? AVERROR EAGAIN); simpl_world.
    + destruct (av_buffersink_get_frame L (graph s) (sink s)) as [[r1 frame] g1].
      simpl_world.
      destruct (r1 =? AVERROR EAGAIN); simpl_world; [stop |].
      destruct (r1 =? AVERROR_EOF); simpl_world.
      * destruct (avcodec_send_frame L _ None) as [r2 e2].
        simpl_world. destruct (r2 <? 0); simpl_world; [stop |].
        apply (Again _ []); try reflexivity;
          [cbn [snd map]; now rewrite app_nil_r | constructor].
      * destruct (r1 <? 0); simpl_world; [stop |].
        destruct (avcodec_send_frame L _ (Some frame)) as [r2 e2].
        simpl_world. destruct (r2 <? 0); simpl_world; [stop |].
        apply (Again _ []); try reflexivity;
          [cbn [snd map]; now rewrite app_nil_r | constructor].
    + destruct (r =? AVERROR_EOF); simpl_world; [stop |].
      destruct (r <? 0); simpl_world; [stop |].
      apply (Again _ [av_packet_rescale_ts L
                        (set_stream_index pkt (st_index (st s)))
                        (time_base (enc s)) (st_time_base (st s))]);
        try reflexivity.
      constructor; [now exists pkt | constructor].
Qed.

(** The first half of [send] adds one event, for the buffer source. *)
Lemma push_frame_event (in_frame : const_frame) (fd : video_format_desc)
    (w : world) :
  let w' := snd (push_frame L in_frame fd w) in
  st (fst w') = st (fst w) /\
  time_base (enc (fst w')) = time_base (enc (fst w)) /\
  source (fst w') = source (fst w) /\
  sink (fst w') = sink (fst w) /\
  exists first,
    snd w' = snd w ++ [first] /\
    match in_frame with
    | None => first = Ev_close (pts (fst w)) /\ pts (fst w') = pts (fst w)
    | Some _ => exists frame, first = Ev_write_frame frame
    end.
Proof.
  destruct w as [s tr].
  unfold push_frame, bind, emit, gets, modify, on_stream_graph, FF, FF_RET,
    throw, ret.
  simpl_world.
  destruct in_frame as [f |].
  - destruct (codec_type (enc s)); simpl_world;
      match goal with
      | |- context [av_buffersrc_write_frame L ?g ?src ?fr] =>
          destruct (av_buffersrc_write_frame L g src fr) as [r g']
      end; simpl_world; destruct (r <? 0); simpl_world;
      repeat split; eexists; split; try reflexivity; eexists; reflexivity.
  - simpl_world.
    destruct (av_buffersrc_close L (graph s) (source s) (pts s)) as [r g'].
    simpl_world. destruct (r <? 0); simpl_world;
      repeat split; eexists; split; try reflexivity; split; reflexivity.
Qed.

Lemma send_trace (fuel : nat) (in_frame : const_frame) (fd : video_format_desc)
    (w : world) :
  let w' := snd (Stream_send L fuel in_frame fd w) in
  st (fst w') = st (fst w) /\
  source (fst w') = source (fst w) /\
  sink (fst w') = sink (fst w) /\
  exists first pkts,
    snd w' = snd w ++ first :: map Ev_packet pkts /\
    match in_frame with
    | None => first = Ev_close (pts (fst w)) /\ pts (fst w') = pts (fst w)
    | Some _ => exists frame, first = Ev_write_frame frame
    end /\
    Forall (fun p => handed_on (fst w) p) pkts.
Proof.
  cbv zeta. unfold Stream_send, bind.
  pose proof (push_frame_event in_frame fd w) as P. cbv zeta in P.
  destruct (push_frame L in_frame fd w) as [[[] | e |] w1]; cbn [snd] in P |- *.
  - destruct P as (Hst & Htb & Hsrc & Hsnk & first & Htr & Hfirst).
    destruct (drain_hands_on_packets fuel w1)
      as (Dp & Dst & Dtb & Dsrc & Dsnk & pkts & Dtr & Dall).
    rewrite Dst, Dsrc, Dsnk, Hst, Hsrc, Hsnk. repeat split.
    exists first, pkts. split; [| split].
    + rewrite Dtr, Htr, <- app_assoc. reflexivity.
    + destruct in_frame; [exact Hfirst |].
      destruct Hfirst as [Hf Hp]. split; [exact Hf | congruence].
    + rewrite Hst, Htb in Dall. exact Dall.
  - destruct P as (Hst & Htb & Hsrc & Hsnk & first & Htr & Hfirst).
    repeat split; try assumption.
    exists first, []. split; [exact Htr |]. split; [exact Hfirst | constructor].
  - destruct P as (Hst & Htb & Hsrc & Hsnk & first & Htr & Hfirst).
    repeat split; try assumption.
    exists first, []. split; [exact Htr |]. split; [exact Hfirst | constructor].
Qed.

(** X10. One call of [send], however it ends, leaves one event for the buffer
    source followed by packets only.  For a frame the event is the write of a
    frame; for the empty frame it is the close of the source at the counter,
    and the counter stays as it is.  Every packet is what the encoder returned
    with the index of the stream's track set and its times rescaled from the
    encoder's time base to the track's.  The track and the two ends of the
    graph are the same after the call. *)
Theorem send_leaves_one_source_event (fuel : nat) (in_frame : const_frame)
    (fd : video_format_desc) (s : Stream G E) :
  let '(_, (s', tr)) := Stream_send L fuel in_frame fd (s, []) in
  (exists first pkts,
     tr = first :: map Ev_packet pkts /\
     match in_frame with
     | None => first = Ev_close (pts s) /\ pts s' = pts s
     | Some _ => exists frame, first = Ev_write_frame frame
     end /\
     Forall (fun p => handed_on s p) pkts) /\
  st s' = st s /\ source s' = source s /\ sink s' = sink s.
Proof.
  pose proof (send_trace fuel in_frame fd (s, [])) as H. cbv zeta in H.
  destruct (Stream_send L fuel in_frame fd (s, [])) as [r [s' tr]].
  cbn [fst snd app] in H.
  destruct H as (Hst & Hsrc & Hsnk & first & pkts & Htr & Hfirst & Hall).
  split; [| auto]. exists first, pkts. auto.
Qed.

(** X11. With a libav whose [av_packet_rescale_ts] leaves the stream index of
    a packet alone, every packet a [send] hands to the callback carries the
    index of the stream's own track. *)
Theorem packets_carry_the_track_index (fuel : nat) (in_frame : const_frame)
    (fd : video_format_desc) (s : Stream G E) :
  (forall p a b, stream_index (av_packet_rescale_ts L p a b) = stream_index p) ->
  Forall (fun p => stream_index p = st_index (st s))
         (packets_of (snd (snd (Stream_send L fuel in_frame fd (s, []))))).
Proof.
  intros Hkeep.
  destruct (send_trace fuel in_frame fd (s, []))
    as (_ & _ & _ & first & pkts & Htr & Hfirst & Hall).
  cbn [fst snd app] in Htr, Hall, Hfirst. rewrite Htr.
  assert (packets_of (first :: map Ev_packet pkts) = pkts) as ->.
  { assert (forall l, packets_of (map Ev_packet l) = l) as Hp.
    { induction l as [| p l IHl]; cbn; [reflexivity | now rewrite IHl]. }
    destruct in_frame.
    - destruct Hfirst as [frame ->]. cbn. apply Hp.
    - destruct Hfirst as [-> _]. cbn. apply Hp. }
  apply Forall_forall. intros p Hin.
  rewrite Forall_forall in Hall. destruct (Hall p Hin) as [raw ->].
  rewrite Hkeep. reflexivity.
Qed.

End Send.

Import consumer_model.

(** The audio stream of the model, whose track has index 1, sent a frame:
    one packet, with index 1. *)
Lemma packets_carry_the_track_index_witness :
  map stream_index
      (packets_of (snd (snd (Stream_send (libav_model 0) 10 (Some frame1) pal
                                         (audio_stream, [])))))
  = [1].
Proof.
  pose proof (packets_carry_the_track_index (libav_model 0) 10 (Some frame1) pal
                audio_stream (fun p a b => eq_refl)) as H.
  remember (packets_of (snd (snd (Stream_send (libav_model 0) 10 (Some frame1) pal
                                              (audio_stream, []))))) as l eqn:Hl.
  assert (length l = 1%nat) as Hlen by (rewrite Hl; vm_compute; reflexivity).
  destruct l as [| p [| q l]]; try discriminate Hlen.
  inversion H as [| ? ? Hp _]; subst.
  cbn [map]. rewrite Hp. reflexivity.
Defined.

End send_properties.

(** ** The frame queue of a consumer *)

Module queue_properties.

Import ffmpeg_consumer.

Lemma firstn_full {A : Type} (l more : list A) (k : nat) :
  length l = k -> firstn k (l ++ more) = l.
Proof.
  intros <-. rewrite firstn_app, Nat.sub_diag, firstn_all. cbn.
  apply app_nil_r.
Qed.

(** Sends with no pop in between, on a queue within its capacity: the queue
    fills up in order and every frame after that is dropped. *)
Lemma send_frames_spec (frames : list const_frame) :
  forall c : consumer,
    let k := Z.to_nat (capacity (frame_buffer_ c)) in
    (length (items (frame_buffer_ c)) <= k)%nat ->
    let c' := send_frames c frames in
    capacity (frame_buffer_ c') = capacity (frame_buffer_ c) /\
    items (frame_buffer_ c') = firstn k (items (frame_buffer_ c) ++ frames) /\
    dropped_frames c'
    = (dropped_frames c
       + (length (items (frame_buffer_ c)) + length frames - k))%nat.
Proof.
  induction frames as [| f rest IH]; intros c k Hk; cbv zeta.
  - cbn [send_frames fold_left]. rewrite app_nil_r.
    split; [reflexivity |]. split; [| cbn; lia].
    symmetry. apply firstn_all2. exact Hk.
  - cbn [send_frames fold_left]. fold (send_frames (snd (send c f)) rest).
    pose proof (consumer_properties.send_spec c f) as [Hfull Hroom].
    destruct (is_full (frame_buffer_ c)) eqn:F.
    + rewrite (Hfull eq_refl). cbn [snd]. clear Hfull Hroom.
      assert (length (items (frame_buffer_ c)) = k) as Hlen.
      { unfold is_full in F. apply Z.leb_le in F. unfold k in *. lia. }
      set (c1 := mkConsumer _ _ _ _ _ _ _ _).
      destruct (IH c1) as (Hc & Hi & Hd); [exact Hk |].
      cbn [c1 frame_buffer_] in Hc, Hi, Hd. fold k in Hi, Hd.
      split; [exact Hc |]. split.
      * rewrite Hi. rewrite !firstn_full by exact Hlen. reflexivity.
      * rewrite Hd.
        rewrite (consumer_properties.dropped_frames_set_tag c1 (graph_ c) eq_refl).
        fold (dropped_frames c). cbn [length]. lia.
    + rewrite (Hroom eq_refl). cbn [snd]. clear Hfull Hroom.
      assert (length (items (frame_buffer_ c)) < k)%nat as Hlen.
      { unfold is_full in F. apply Z.leb_gt in F. unfold k in *. lia. }
      set (c1 := mkConsumer _ _ _ _ _ _ _ _).
      destruct (IH c1) as (Hc & Hi & Hd).
      { cbn [c1 frame_buffer_ capacity items]. rewrite length_app. cbn [length].
        fold k. lia. }
      cbn [c1 frame_buffer_ capacity items] in Hc, Hi, Hd. fold k in Hi, Hd.
      split; [exact Hc |]. split.
      * rewrite Hi, <- app_assoc. reflexivity.
      * rewrite Hd, length_app. cbn [length].
        unfold dropped_frames at 1. cbn [c1 graph_]. fold (dropped_frames c). lia.
Qed.

(** X12. The queue drops the newest frames, not the oldest.  Frames sent to a
    consumer whose queue is empty, with no pop in between: the queue ends up
    holding the first frames sent, as many as its capacity allows and in the
    order sent; each of the others left one "dropped-frame" tag; so every
    frame is either queued or counted as dropped. *)
Theorem queue_keeps_the_oldest_frames (c : consumer) (frames : list const_frame) :
  items (frame_buffer_ c) = [] ->
  let k := Z.to_nat (capacity (frame_buffer_ c)) in
  let c' := send_frames c frames in
  items (frame_buffer_ c') = firstn k frames /\
  dropped_frames c' = (dropped_frames c + (length frames - k))%nat /\
  (length (items (frame_buffer_ c')) + (dropped_frames c' - dropped_frames c)
   = length frames)%nat.
Proof.
  intros Hempty k c'.
  destruct (send_frames_spec frames c) as (_ & Hi & Hd).
  { rewrite Hempty. cbn. lia. }
  rewrite Hempty in Hi, Hd. cbn [app length Nat.add] in Hi, Hd.
  fold k in Hi, Hd. fold c' in Hi, Hd.
  split; [exact Hi |]. split; [exact Hd |].
  rewrite Hi, Hd, length_firstn. lia.
Qed.

Section Creation.

Variable crc_16 : String.string -> Z.

(** X13. [create_consumer] makes a consumer only of at least two parameters of
    which the first is STREAM or FILE, in any case of the letters; the second
    is the path and the others, joined by spaces, the arguments; the thread is
    not started.  A STREAM consumer is a realtime one: of frames sent with no
    pop in between it queues the first and drops the others, where a FILE
    consumer queues the first 128. *)
Theorem created_consumer_queues_by_kind (params : list String.string)
    (frames : list const_frame) :
  let kind := nth 0 params "" in
  let k := if iequals kind "STREAM" then 1%nat else 128%nat in
  match create_consumer crc_16 params with
  | None =>
      (length params < 2)%nat \/
      (iequals kind "STREAM" = false /\ iequals kind "FILE" = false)
  | Some c =>
      (2 <= length params)%nat /\
      (iequals kind "STREAM" = true \/ iequals kind "FILE" = true) /\
      path_ c = nth 1 params "" /\
      args_ c = String.concat " " (skipn 2 params) /\
      realtime_ c = iequals kind "STREAM" /\
      joinable (frame_thread_ c) = false /\
      items (frame_buffer_ (send_frames c frames)) = firstn k frames /\
      dropped_frames (send_frames c frames) = (length frames - k)%nat
  end.
Proof.
  intros kind k. unfold create_consumer.
  destruct params as [| p0 [| p1 rest]]; [left; cbn; lia | left; cbn; lia |].
  cbn [nth] in kind. fold kind.
  destruct (iequals kind "STREAM") eqn:Ks; cbn [negb andb].
  - destruct (send_frames_spec frames
                (ffmpeg_consumer_ctor crc_16 p1 (String.concat " " rest) true))
      as (_ & Hi & Hd); [cbn; lia |].
    repeat split; try (cbn; lia); assumption.
  - destruct (iequals kind "FILE") eqn:Kf; cbn [negb]; [| now right].
    destruct (send_frames_spec frames
                (ffmpeg_consumer_ctor crc_16 p1 (String.concat " " rest) false))
      as (_ & Hi & Hd); [cbn; lia |].
    repeat split; try (cbn; lia); assumption.
Qed.

Lemma run_calls_keeps_queue (calls : list call) :
  forall c : consumer,
    (Z.of_nat (length (items (frame_buffer_ c))) <= capacity (frame_buffer_ c)
     \/ items (frame_buffer_ c) = []) ->
    let c' := snd (run_calls c calls) in
    capacity (frame_buffer_ c') = capacity (frame_buffer_ c) /\
    (Z.of_nat (length (items (frame_buffer_ c'))) <= capacity (frame_buffer_ c)
     \/ items (frame_buffer_ c') = []) /\
    path_ c' = path_ c /\ args_ c' = args_ c /\ realtime_ c' = realtime_ c.
Proof.
  induction calls as [| [fd ci | f] rest IH]; intros c Hc; cbv zeta.
  - cbn. auto.
  - cbn [run_calls].
    destruct (initialize c fd ci) as [r c1] eqn:K.
    assert (frame_buffer_ c1 = frame_buffer_ c /\ path_ c1 = path_ c
            /\ args_ c1 = args_ c /\ realtime_ c1 = realtime_ c)
      as (Hb & Hp & Ha & Hr).
    { unfold initialize in K. destruct (joinable (frame_thread_ c));
        injection K as _ <-; repeat split. }
    specialize (IH c1). cbv zeta in IH. rewrite Hb, Hp, Ha, Hr in IH.
    destruct (run_calls c1 rest) as [log c2]. cbn [snd] in *. now apply IH.
  - cbn [run_calls].
    assert (capacity (frame_buffer_ (snd (send c f))) = capacity (frame_buffer_ c)
            /\ (Z.of_nat (length (items (frame_buffer_ (snd (send c f)))))
                 <= capacity (frame_buffer_ c)
                \/ items (frame_buffer_ (snd (send c f))) = [])
            /\ path_ (snd (send c f)) = path_ c
            /\ args_ (snd (send c f)) = args_ c
            /\ realtime_ (snd (send c f)) = realtime_ c)
      as (Hb & Hl & Hp & Ha & Hr).
    { unfold send, try_push. unfold is_full.
      destruct (capacity (frame_buffer_ c)
                <=? Z.of_nat (length (items (frame_buffer_ c)))) eqn:F;
        cbn [snd frame_buffer_ capacity items path_ args_ realtime_].
      - repeat split. exact Hc.
      - repeat split. left. apply Z.leb_gt in F. rewrite length_app. cbn. lia. }
    specialize (IH (snd (send c f))). cbv zeta in IH.
    rewrite Hb, Hp, Ha, Hr in IH. now apply IH.
Qed.

(** X14. Whatever calls a client makes on a consumer, and when it is destroyed
    after them: the frame queue keeps the capacity the constructor set, 1 for
    a realtime consumer and 128 otherwise, and never holds more frames than
    that; the path, the arguments and the realtime flag stay as constructed. *)
Theorem queue_stays_within_capacity (path args : String.string) (realtime : bool)
    (calls : list call) :
  let c := snd (run_calls (ffmpeg_consumer_ctor crc_16 path args realtime) calls) in
  let k := if realtime then 1 else 128 in
  capacity (frame_buffer_ c) = k /\
  Z.of_nat (length (items (frame_buffer_ c))) <= k /\
  capacity (frame_buffer_ (destructor_push c)) = k /\
  Z.of_nat (length (items (frame_buffer_ (destructor_push c)))) <= k /\
  path_ c = path /\ args_ c = args /\ realtime_ c = realtime.
Proof.
  intros c k.
  destruct (run_calls_keeps_queue calls
              (ffmpeg_consumer_ctor crc_16 path args realtime))
    as (Hc & Hl & Hp & Ha & Hr); [right; reflexivity |].
  fold c in Hc, Hl, Hp, Ha, Hr.
  cbn [ffmpeg_consumer_ctor frame_buffer_ capacity path_ args_ realtime_] in *.
  fold k in Hc, Hl.
  assert (0 < k) as Hk by (unfold k; destruct realtime; lia).
  assert (Z.of_nat (length (items (frame_buffer_ c))) <= k) as Hlen.
  { destruct Hl as [Hl | ->]; [exact Hl | cbn; lia]. }
  split; [exact Hc |]. split; [exact Hlen |].
  assert (capacity (frame_buffer_ (destructor_push c)) = k /\
          Z.of_nat (length (items (frame_buffer_ (destructor_push c)))) <= k)
    as [Hdc Hdl].
  { unfold destructor_push. destruct (joinable (frame_thread_ c)); [| auto].
    cbn [frame_buffer_]. unfold try_push, is_full. rewrite Hc.
    destruct (k <=? Z.of_nat (length (items (frame_buffer_ c)))) eqn:F;
      cbn [snd capacity items]; [auto |].
    split; [reflexivity |]. apply Z.leb_gt in F. rewrite length_app. cbn. lia. }
  auto.
Qed.

End Creation.

Import consumer_model.

(** Three frames sent to the realtime consumer: the first is queued, two
    tags are left. *)
Lemma queue_keeps_the_oldest_frames_witness :
  let c' := send_frames realtime_consumer [frame_a; frame_b; frame_a] in
  items (frame_buffer_ c') = [frame_a] /\ dropped_frames c' = 2%nat.
Proof.
  destruct (queue_keeps_the_oldest_frames realtime_consumer
              [frame_a; frame_b; frame_a] eq_refl) as (Hi & Hd & _).
  split; [exact Hi | exact Hd].
Defined.

End queue_properties.

(** ** The two threads, however the frame loop ends *)

Module thread_properties.

Import ffmpeg_consumer.

Section Threads.

Context {G E OC : Type}.
Variable L : libav G E OC.

Local Abbreviation pipeline := (@pipeline OC).
Local Abbreviation packet_writer := (@packet_writer OC).
Local Abbreviation feed o its := (writer_feed L (mkWriter Writing o []) its).

(** The calls of the packet thread: packet writes, then at most the trailer
    and, after a trailer that went well on a format with a file, the close. *)
Local Abbreviation log_shape o w :=
  (exists writes finale,
      writer_log w = writes ++ finale /\
      (forall e, In e writes -> exists p r, e = W_write_frame p r) /\
      (finale = [] \/
       (exists r, finale = [W_write_trailer r]) \/
       (exists r r2, finale = [W_write_trailer r; W_closep r2] /\ 0 <= r /\
                     has_flag o AVFMT_NOFILE = false)) /\
      (status w = Writing -> finale = [])).

Lemma written_packets_app (a b : list writer_event) :
  written_packets (a ++ b) = written_packets a ++ written_packets b.
Proof. unfold written_packets. apply flat_map_app. Qed.

Lemma packets_in_app (a b : list (option AVPacket)) :
  packets_in (a ++ b) = packets_in a ++ packets_in b.
Proof. unfold packets_in. apply flat_map_app. Qed.

Lemma feed_snoc (o : AVFormatContext OC) (its : list (option AVPacket))
    (x : option AVPacket) :
  feed o (its ++ [x]) = writer_take L (feed o its) x.
Proof. unfold writer_feed. rewrite fold_left_app. reflexivity. Qed.

(** What the packet thread has done after any items. *)
Lemma feed_spec (o : AVFormatContext OC) (its : list (option AVPacket)) :
  let w := feed o its in
  oformat (writer_oc w) = oformat o /\
  log_shape o w /\
  (exists later, packets_in its = written_packets (writer_log w) ++ later) /\
  (status w = Writing -> packets_in its = written_packets (writer_log w)).
Proof.
  induction its as [| x its IH] using rev_ind; cbv zeta.
  - cbn. split; [reflexivity |]. split; [| split].
    + exists [], []. split; [reflexivity |]. split; [intros e [] |].
      split; [now left | reflexivity].
    + exists []. reflexivity.
    + reflexivity.
  - rewrite feed_snoc. cbv zeta in IH.
    destruct IH as (Ho & (writes & finale & Hlog & Hw & Hf & Hs)
                    & (later & Hp) & Hall).
    destruct (status (feed o its)) eqn:S.
    + specialize (Hs eq_refl). specialize (Hall eq_refl). subst finale.
      rewrite app_nil_r in Hlog.
      unfold writer_take, on_container. rewrite S.
      destruct x as [pkt |].
      * destruct (av_interleaved_write_frame L _ pkt) as [r o1].
        cbn [writer_oc oformat writer_log status].
        assert (packets_in (its ++ [Some pkt])
                = written_packets (writer_log (feed o its) ++ [W_write_frame pkt r]))
          as Hnew.
        { rewrite packets_in_app, written_packets_app, Hall. reflexivity. }
        split; [exact Ho |]. split; [| split].
        -- exists (writes ++ [W_write_frame pkt r]), [].
           split; [rewrite app_nil_r, Hlog; reflexivity |].
           split; [| split; [now left | reflexivity]].
           intros e He. apply in_app_or in He.
           destruct He as [He | [<- | []]]; [now apply Hw | eauto].
        -- exists []. rewrite app_nil_r. exact Hnew.
        -- intros _. exact Hnew.
      * destruct (av_write_trailer L (oc_state (writer_oc (feed o its))))
          as [r o1].
        assert (forall extra,
                  written_packets extra = [] ->
                  packets_in (its ++ [None])
                  = written_packets (writer_log (feed o its) ++ extra) ++ [])
          as Hsame.
        { intros extra Hx.
          rewrite packets_in_app, written_packets_app, Hall, Hx.
          cbn [packets_in flat_map app]. now rewrite !app_nil_r. }
        destruct (r <? 0) eqn:R.
        -- cbn [writer_oc oformat writer_log status].
           split; [exact Ho |]. split; [| split].
           ++ exists writes, [W_write_trailer r].
              split; [rewrite Hlog; reflexivity |]. split; [exact Hw |].
              split; [right; left; eauto | discriminate].
           ++ exists []. exact (Hsame [W_write_trailer r] eq_refl).
           ++ discriminate.
        -- assert (has_flag (mkFormatContext (oformat (writer_oc (feed o its))) o1)
                            AVFMT_NOFILE = has_flag o AVFMT_NOFILE) as Hflag.
           { unfold has_flag. cbn [oformat]. now rewrite Ho. }
           rewrite Hflag.
           destruct (has_flag o AVFMT_NOFILE) eqn:F; cbn [negb].
           ++ cbn [writer_oc oformat writer_log status].
              split; [exact Ho |]. split; [| split].
              ** exists writes, [W_write_trailer r].
                 split; [rewrite Hlog; reflexivity |]. split; [exact Hw |].
                 split; [right; left; eauto | discriminate].
              ** exists []. exact (Hsame [W_write_trailer r] eq_refl).
              ** discriminate.
           ++ cbn [oc_state].
              destruct (avio_closep L o1) as [r2 o2].
              cbn [writer_oc oformat writer_log status].
              split; [exact Ho |]. split; [| split].
              ** exists writes, [W_write_trailer r; W_closep r2].
                 split; [rewrite Hlog; reflexivity |]. split; [exact Hw |].
                 split.
                 --- right. right. exists r, r2.
                     split; [reflexivity |]. split; [now apply Z.ltb_ge | reflexivity].
                 --- destruct (r2 <? 0); discriminate.
              ** exists []. exact (Hsame [W_write_trailer r; W_closep r2] eq_refl).
              ** destruct (r2 <? 0); discriminate.
    + rewrite pipeline_properties.writer_take_stopped by congruence.
      split; [exact Ho |]. split; [| split].
      * exists writes, finale. rewrite S. repeat split; auto.
      * exists (later ++ packets_in [x]).
        rewrite packets_in_app, Hp, app_assoc. reflexivity.
      * rewrite S. discriminate.
    + rewrite pipeline_properties.writer_take_stopped by congruence.
      split; [exact Ho |]. split; [| split].
      * exists writes, finale. rewrite S. repeat split; auto.
      * exists (later ++ packets_in [x]).
        rewrite packets_in_app, Hp, app_assoc. reflexivity.
      * rewrite S. discriminate.
Qed.

Local Abbreviation run_inv := (run_invariant L).

(** A packet thread that was fed the null packet is not in its loop. *)
Lemma fed_eof_stops (o : AVFormatContext OC) (its : list (option AVPacket)) :
  status (feed o (its ++ [None])) <> Writing.
Proof.
  rewrite feed_snoc. destruct (status (feed o its)) eqn:S.
  - now apply pipeline_properties.writer_take_eof.
  - rewrite pipeline_properties.writer_take_stopped by congruence. congruence.
  - rewrite pipeline_properties.writer_take_stopped by congruence. congruence.
Qed.

Lemma run_inv_step (o : AVFormatContext OC) (pushes : list (option AVPacket))
    (ending : result loop_end) (s t : pipeline) :
  run_inv o pushes ending s -> step L s t -> run_inv o pushes ending t.
Proof.
  intros (Hc & Hl & Hj & (taken & He & Hw) & Hd) Hstep.
  destruct Hstep; cbn [media packet_buffer writer enqueued] in *;
    unfold run_invariant; cbn [media packet_buffer writer enqueued].
  - (* push *)
    destruct (pipeline_properties.push_spec _ _ _ H) as (C & I & F).
    destruct Hd as [-> Hp].
    split; [congruence |]. split; [rewrite I, length_app; cbn; lia |].
    split; [discriminate |]. split.
    + exists taken. rewrite I, He, <- app_assoc. auto.
    + split; [reflexivity |]. rewrite <- app_assoc. exact Hp.
  - (* break *)
    destruct Hd as [<- Hp]. rewrite app_nil_r in Hp.
    split; [exact Hc |]. split; [exact Hl |]. split; [discriminate |].
    split; [eauto |]. left. auto.
  - (* throw *)
    destruct Hd as [<- Hp]. rewrite app_nil_r in Hp.
    split; [exact Hc |]. split; [exact Hl |]. split; [discriminate |].
    split; [eauto |]. split; [eauto | exact Hp].
  - (* the null packet of the scope exit *)
    destruct (pipeline_properties.push_spec _ _ _ H) as (C & I & F).
    destruct Hd as [Hex Hp].
    split; [congruence |]. split; [rewrite I, length_app; cbn; lia |].
    split; [discriminate |]. split.
    + exists taken. rewrite I, He, <- app_assoc. auto.
    + split; [exact Hex | congruence].
  - (* abort *)
    destruct Hd as [Hex Hp].
    assert (abort_wakes_pop q w = w) as ->.
    { unfold abort_wakes_pop. destruct (status w) eqn:S; [| reflexivity ..].
      destruct (items q) eqn:I; [| reflexivity]. exfalso.
      rewrite app_nil_r in He. subst taken. rewrite Hp in Hw.
      apply (fed_eof_stops o pushes). rewrite <- Hw. exact S. }
    split; [exact Hc |]. split; [exact Hl |]. split; [discriminate |].
    split; [eauto |]. right. auto.
  - (* join *)
    split; [exact Hc |]. split; [exact Hl |]. split; [auto |].
    split; [eauto |]. exact Hd.
  - (* pop *)
    destruct (pipeline_properties.pop_spec _ _ _ H0) as (C & I).
    assert ((length (items q') < 128)%nat) as Hlt
      by (rewrite I in Hl; cbn in Hl; lia).
    assert (is_full q' = false) as Hfull.
    { unfold is_full. apply Z.leb_gt. lia. }
    assert ((if aborting w (writer_take L w x) then abort_wakes_push q' m else m)
            = m) as Hsame.
    { destruct (aborting w (writer_take L w x)); [| reflexivity].
      unfold abort_wakes_push. destruct m as [[| y p] e | | | |]; try reflexivity.
      now rewrite Hfull. }
    rewrite Hsame.
    split; [congruence |]. split; [lia |]. split.
    { intros K. specialize (Hj K). contradiction. }
    split; [| exact Hd].
    exists (taken ++ [x]). rewrite I in He.
    rewrite <- app_assoc. cbn [app]. split; [exact He |].
    rewrite feed_snoc, <- Hw. reflexivity.
Qed.

Lemma run_inv_steps (o : AVFormatContext OC) (pushes : list (option AVPacket))
    (ending : result loop_end) (t : pipeline) :
  steps L (start o pushes ending) t -> run_inv o pushes ending t.
Proof.
  assert (forall s u, steps L s u ->
            run_inv o pushes ending s -> run_inv o pushes ending u) as Hall.
  { induction 1 as [s | s u v Hstep _ IH]; intros Hs; [exact Hs |].
    apply IH. exact (run_inv_step o pushes ending s u Hs Hstep). }
  intros Hrun. apply (Hall _ _ Hrun).
  unfold run_invariant, start.
  cbn [media packet_buffer writer enqueued capacity items length].
  split; [reflexivity |]. split; [lia |].
  split; [discriminate |]. split.
  - exists []. cbn. auto.
  - split; reflexivity.
Qed.

(** What was enqueued is a first part of what the frame loop pushed, up to
    the null packet of the scope exit. *)
Lemma enqueued_packets (o : AVFormatContext OC) (pushes : list (option AVPacket))
    (ending : result loop_end) (t : pipeline) :
  run_inv o pushes ending t ->
  exists more, packets_in pushes = packets_in (enqueued t) ++ more.
Proof.
  intros (_ & _ & _ & _ & Hd).
  assert (forall l, packets_in (l ++ [None]) = packets_in l) as Hnone.
  { intros l. rewrite packets_in_app. cbn. apply app_nil_r. }
  destruct (media t) as [p e | | | |].
  - destruct Hd as [_ <-]. exists (packets_in p). apply packets_in_app.
  - destruct Hd as [_ ->]. exists []. now rewrite app_nil_r.
  - destruct Hd as [_ ->]. exists []. now rewrite Hnone, app_nil_r.
  - exists []. rewrite app_nil_r.
    destruct Hd as [[_ ->] | [_ ->]]; [reflexivity | now rewrite Hnone].
  - exists []. rewrite app_nil_r.
    destruct Hd as [[_ ->] | [_ ->]]; [reflexivity | now rewrite Hnone].
Qed.

(** X15. The calls of the packet thread on the container, in every state of
    every run: however the frame loop ended, whatever the container calls
    return and however the two threads interleave, the thread has made a run
    of packet writes followed by nothing, by the trailer, or by the trailer
    and the close of the I/O.  So the trailer is written at most once and
    after the last packet; the I/O is closed at most once, only after a
    trailer that went well and only for a format that has a file; and while
    the thread is still in its loop, neither has happened. *)
Theorem trailer_follows_the_last_packet (o : AVFormatContext OC)
    (pushes : list (option AVPacket)) (ending : result loop_end) (t : pipeline) :
  steps L (start o pushes ending) t ->
  exists writes finale,
    writer_log (writer t) = writes ++ finale /\
    (forall e, In e writes -> exists p r, e = W_write_frame p r) /\
    (finale = [] \/
     (exists r, finale = [W_write_trailer r]) \/
     (exists r r2, finale = [W_write_trailer r; W_closep r2] /\ 0 <= r /\
                   has_flag o AVFMT_NOFILE = false)) /\
    (status (writer t) = Writing -> finale = []).
Proof.
  intros Hrun.
  destruct (run_inv_steps o pushes ending t Hrun)
    as (_ & _ & _ & (taken & _ & Hw) & _).
  destruct (feed_spec o taken) as (_ & Hshape & _).
  rewrite Hw. exact Hshape.
Qed.

(** X16. Packets reach the container in the order the streams produced them.
    In every state of every run, the packets handed to
    [av_interleaved_write_frame] so far are, in order and each once, the first
    of the packets the frame loop pushed. *)
Theorem packets_are_written_in_push_order (o : AVFormatContext OC)
    (pushes : list (option AVPacket)) (ending : result loop_end) (t : pipeline) :
  steps L (start o pushes ending) t ->
  exists later,
    packets_in pushes = written_packets (writer_log (writer t)) ++ later.
Proof.
  intros Hrun.
  pose proof (run_inv_steps o pushes ending t Hrun) as Hinv.
  destruct (enqueued_packets o pushes ending t Hinv) as (more & Hmore).
  destruct Hinv as (_ & _ & _ & (taken & He & Hw) & _).
  destruct (feed_spec o taken) as (_ & _ & (later & Hp) & _).
  exists (later ++ packets_in (items (packet_buffer t)) ++ more).
  rewrite Hmore, He, packets_in_app, Hp, Hw, <- !app_assoc. reflexivity.
Qed.

(** X17. The packet queue never holds more than 128 items, and the media
    thread does not come back from its [join] while the packet thread is in
    its loop. *)
Theorem join_waits_for_the_packet_thread (o : AVFormatContext OC)
    (pushes : list (option AVPacket)) (ending : result loop_end) (t : pipeline) :
  steps L (start o pushes ending) t ->
  capacity (packet_buffer t) = 128 /\
  (length (items (packet_buffer t)) <= 128)%nat /\
  (media t = Returned -> status (writer t) <> Writing).
Proof.
  intros Hrun.
  destruct (run_inv_steps o pushes ending t Hrun) as (Hc & Hl & Hj & _).
  split; [exact Hc |]. split; [exact Hl | exact Hj].
Qed.

(** *** The frame loop *)

(** The loop pushes the null packet last and only when it is left by
    [break]. *)
Lemma frame_loop_pushes (fuel : nat) (fd : video_format_desc)
    (frames : list const_frame) :
  forall video audio : option (Stream G E),
    let '(r, _, pushes) := frame_loop L fuel frames video audio fd in
    match r with
    | Ok Exited => exists pkts, pushes = map Some pkts ++ [None]
    | _ => exists pkts, pushes = map Some pkts
    end.
Proof.
  induction frames as [| f rest IH]; intros video audio.
  - cbn [frame_loop]. exists []. reflexivity.
  - cbn [frame_loop].
    destruct (send_to L fuel video f fd) as [[rv v'] pv].
    destruct rv as [[] | e |]; [| eauto | eauto].
    destruct (send_to L fuel audio f fd) as [[ra a'] pa].
    destruct ra as [[] | e |]; [| eauto | eauto].
    destruct f as [f |]; [| eauto].
    specialize (IH v' a').
    destruct (frame_loop L fuel rest v' a' fd) as [[r streams] ps].
    destruct r as [[|] | e |]; destruct IH as [pkts ->];
      exists ((pv ++ pa) ++ pkts);
      rewrite (map_app Some (pv ++ pa) pkts), ?app_assoc; reflexivity.
Qed.

(** X18. The empty frame ends the loop: whatever is queued behind it is never
    sent to a stream, and nothing is pushed for it. *)
Theorem frames_behind_the_empty_frame_are_ignored (fuel : nat)
    (fd : video_format_desc) (frames : list frame_payload)
    (behind : list const_frame) :
  forall video audio : option (Stream G E),
    frame_loop L fuel (map Some frames ++ None :: behind) video audio fd
    = frame_loop L fuel (map Some frames ++ [None]) video audio fd /\
    fst (fst (frame_loop L fuel (map Some frames ++ None :: behind) video audio fd))
    <> Ok Waiting.
Proof.
  induction frames as [| f rest IH]; intros video audio.
  - cbn [map app frame_loop].
    destruct (send_to L fuel video None fd) as [[rv v'] pv].
    destruct rv as [[] | e |]; [| split; [reflexivity | discriminate] ..].
    destruct (send_to L fuel audio None fd) as [[ra a'] pa].
    destruct ra as [[] | e |]; split; (reflexivity || discriminate).
  - cbn [map app frame_loop].
    destruct (send_to L fuel video (Some f) fd) as [[rv v'] pv].
    destruct rv as [[] | e |]; [| split; [reflexivity | discriminate] ..].
    destruct (send_to L fuel audio (Some f) fd) as [[ra a'] pa].
    destruct ra as [[] | e |]; [| split; [reflexivity | discriminate] ..].
    destruct (IH v' a') as [Heq Hne]. rewrite Heq in Hne |- *.
    destruct (frame_loop L fuel (map Some rest ++ [None]) v' a' fd)
      as [[r streams] ps].
    split; [reflexivity | exact Hne].
Qed.

Lemma loop_with_empty_frame_ends (fuel : nat) (fd : video_format_desc)
    (frames : list const_frame) :
  forall video audio : option (Stream G E),
    In None frames ->
    fst (fst (frame_loop L fuel frames video audio fd)) <> Ok Waiting.
Proof.
  induction frames as [| f rest IH]; intros video audio Hin; [contradiction |].
  cbn [frame_loop].
  destruct (send_to L fuel video f fd) as [[rv v'] pv].
  destruct rv as [[] | e |]; [| discriminate ..].
  destruct (send_to L fuel audio f fd) as [[ra a'] pa].
  destruct ra as [[] | e |]; [| discriminate ..].
  destruct f as [f |]; [| discriminate].
  destruct Hin as [K | Hin]; [discriminate K |].
  specialize (IH v' a' Hin).
  destruct (frame_loop L fuel rest v' a' fd) as [[r streams] ps].
  exact IH.
Qed.

(** X19. The destructor ends the frame loop only if its empty frame finds
    room.  On a consumer whose thread was started, [try_push] queues the empty
    frame behind the frames already waiting when the queue is not full, and
    the frame loop over the queue then comes to an end instead of waiting for
    more frames; when the queue is full the destructor leaves the consumer,
    queue and diagnostics, exactly as it was. *)
Theorem destructor_ends_the_frame_loop (c : consumer) (fuel : nat)
    (video audio : option (Stream G E)) (fd : video_format_desc) :
  joinable (frame_thread_ c) = true ->
  (is_full (frame_buffer_ c) = false ->
   items (frame_buffer_ (destructor_push c)) = items (frame_buffer_ c) ++ [None] /\
   fst (fst (frame_loop L fuel (items (frame_buffer_ (destructor_push c)))
                        video audio fd)) <> Ok Waiting) /\
  (is_full (frame_buffer_ c) = true ->
   frame_buffer_ (destructor_push c) = frame_buffer_ c /\
   graph_ (destructor_push c) = graph_ c).
Proof.
  intros Hj. unfold destructor_push. rewrite Hj. cbn [frame_buffer_ graph_].
  split; intros Hf.
  - rewrite consumer_properties.try_push_room by exact Hf. cbn [snd items].
    split; [reflexivity |].
    apply loop_with_empty_frame_ends. apply in_or_app. right. now left.
  - rewrite consumer_properties.try_push_full by exact Hf. cbn [snd].
    split; reflexivity.
Qed.

(** *** An exception in the frame loop *)

Lemma feed_prefix_writing (o : AVFormatContext OC)
    (a b : list (option AVPacket)) :
  status (feed o (a ++ b)) = Finished -> ~ In None a ->
  status (feed o a) = Writing.
Proof.
  intros Hfin Hnone. rewrite pipeline_properties.writer_feed_app in Hfin.
  destruct (status (feed o a)) eqn:S; [reflexivity | exfalso ..].
  - rewrite pipeline_properties.writer_feed_stopped in Hfin by congruence.
    apply Hnone.
    apply (pipeline_properties.finished_fed_eof L a (mkWriter Writing o []));
      [reflexivity | exact S].
  - rewrite pipeline_properties.writer_feed_stopped in Hfin by congruence.
    congruence.
Qed.

Lemma not_in_prefix {A : Type} (x : A) (a b c : list A) :
  a ++ b = c -> ~ In x c -> ~ In x a.
Proof. intros <- H K. apply H. apply in_or_app. now left. Qed.

Lemma full_has_items (q : bounded_queue (option AVPacket)) (x : option AVPacket) :
  capacity q = 128 -> push q x = None -> items q <> [].
Proof.
  unfold push, is_full. intros -> H K. rewrite K in H. cbn in H. discriminate H.
Qed.

Lemma pop_possible (m : media_pc) (q : bounded_queue (option AVPacket))
    (w : packet_writer) (h : list (option AVPacket)) :
  status w = Writing -> items q <> [] ->
  exists t, step L (mkPipeline m q w h) t.
Proof.
  intros S I. destruct (items q) as [| x rest] eqn:K; [contradiction |].
  eexists. apply (step_pop L m x q (mkQueue (capacity q) rest) w h S).
  unfold pop. now rewrite K.
Qed.

(** Where a run ends after an exception in the frame loop, when no container
    call fails. *)
Lemma stuck_after_exception (o : AVFormatContext OC) (pkts : list AVPacket)
    (ex : exn) (t : pipeline) :
  let pushes := map Some pkts in
  status (feed o (pushes ++ [None])) = Finished ->
  run_inv o pushes (Throw ex) t -> stuck L t ->
  finalized (pushes ++ [None]) t.
Proof.
  intros pushes Hfin (Hc & Hl & Hj & (taken & He & Hw) & Hd) Hstuck.
  assert (~ In None pushes) as Hsome.
  { unfold pushes. intros K. apply in_map_iff in K.
    destruct K as (p & K & _). discriminate K. }
  destruct t as [m q w h]. cbn [media packet_buffer writer enqueued] in *.
  assert (forall a b, a ++ b = pushes -> h = taken ++ items q ->
            taken ++ items q = a -> items q <> [] -> False) as Hpop.
  { intros a b Hab _ Ha Hq.
    assert (status w = Writing) as S.
    { rewrite Hw. apply (feed_prefix_writing o taken (items q ++ b ++ [None])).
      - rewrite !app_assoc, Ha, Hab. exact Hfin.
      - apply (not_in_prefix None taken (items q ++ b) pushes);
          [rewrite app_assoc, Ha; exact Hab | exact Hsome]. }
    destruct (pop_possible m q w h S Hq) as [u Hu]. exact (Hstuck u Hu). }
  assert (forall x, push q x = None -> (forall q', push q x <> Some q')) as _
    by (intros x K q' K'; congruence).
  destruct m as [[| x p] e | | | |].
  - exfalso. destruct Hd as [-> _].
    exact (Hstuck _ (step_throw L ex q w h)).
  - exfalso. destruct Hd as [-> Hp].
    destruct (push q x) as [q' |] eqn:P.
    + exact (Hstuck _ (step_push L x p (Throw ex) q q' w h P)).
    + apply (Hpop h (x :: p) Hp He (eq_sym He)).
      exact (full_has_items q x Hc P).
  - exfalso. destruct Hd as [_ Hp].
    destruct (push q None) as [q' |] eqn:P.
    + exact (Hstuck _ (step_exit_push L q q' w h P)).
    + apply (Hpop h [] ltac:(rewrite app_nil_r; exact Hp) He (eq_sym He)).
      exact (full_has_items q None Hc P).
  - exfalso. exact (Hstuck _ (step_exit_abort L q w h)).
  - exfalso. destruct Hd as [[K _] | [_ Hp]]; [discriminate K |].
    destruct (status w) eqn:S.
    + destruct (items q) as [| y rest] eqn:I.
      * rewrite app_nil_r in He. subst taken h.
        apply (fed_eof_stops o pushes). rewrite <- Hw. exact S.
      * assert (items q <> []) as Hq by (rewrite I; discriminate).
        destruct (pop_possible Joining q w h S Hq) as [u Hu].
        exact (Hstuck u Hu).
    + apply (Hstuck (mkPipeline Returned q w h)).
      apply step_join. congruence.
    + apply (Hstuck (mkPipeline Returned q w h)).
      apply step_join. congruence.
  - destruct Hd as [[K _] | [_ Hp]]; [discriminate K |].
    specialize (Hj eq_refl).
    assert (status (feed o taken) = Finished) as Hdone.
    { assert (feed o (pushes ++ [None]) = feed o taken) as K.
      { rewrite <- Hp, He, pipeline_properties.writer_feed_app, <- Hw.
        now apply pipeline_properties.writer_feed_stopped. }
      rewrite <- K. exact Hfin. }
    assert (In None taken) as Heof.
    { apply (pipeline_properties.finished_fed_eof L taken (mkWriter Writing o []));
        [reflexivity | exact Hdone]. }
    assert (items q = []) as Hq.
    { apply (pipeline_properties.prefix_with_eof pkts taken);
        [rewrite <- He; exact Hp | exact Heof]. }
    apply (pipeline_properties.stuck_finalized L o pkts); [exact Hfin | | exact Hstuck].
    constructor; cbn [media packet_buffer writer enqueued pending].
    + exists taken. rewrite Hq, !app_nil_r in *. subst h.
      split; [exact Hp |]. split; [exact Hw | reflexivity].
    + exact Hc.
    + exact Hl.
    + right. right. reflexivity.
Qed.

(** X20. An exception in the frame loop still finalizes the container.  When a
    [Stream::send] throws in the media thread, the frame loop has pushed
    packets only; the scope exit then pushes the null packet.  If no container
    call of the packet thread fails, every run, however the two threads
    interleave, comes to an end, and at every end the media thread is back
    from its join, every packet pushed before the exception was written, and
    the trailer was written once and the I/O closed once (not at all for a
    format without a file). *)
Theorem exception_still_writes_the_trailer (fuel : nat)
    (frames : list const_frame) (video audio : option (Stream G E))
    (fd : video_format_desc) (o : AVFormatContext OC) (ex : exn)
    (streams : option (Stream G E) * option (Stream G E))
    (pushes : list (option AVPacket)) :
  frame_loop L fuel frames video audio fd = (Throw ex, streams, pushes) ->
  status (feed o (pushes ++ [None])) = Finished ->
  ~ In None pushes /\
  (forall t, steps L (start o pushes (Throw ex)) t ->
     exists u, steps L t u /\ stuck L u) /\
  (forall t, steps L (start o pushes (Throw ex)) t -> stuck L t ->
     finalized (pushes ++ [None]) t /\
     written_packets (writer_log (writer t)) = packets_in pushes).
Proof.
  intros Hloop Hfin.
  pose proof (frame_loop_pushes fuel fd frames video audio) as Hp.
  rewrite Hloop in Hp. destruct Hp as [pkts ->].
  split; [| split].
  - intros K. apply in_map_iff in K. destruct K as (p & K & _). discriminate K.
  - intros t _.
    exact (pipeline_properties.reaches_stuck L (measure t) t (le_n _)).
  - intros t Hrun Hstuck.
    pose proof (run_inv_steps o _ _ t Hrun) as Hinv.
    pose proof (stuck_after_exception o pkts ex t Hfin Hinv Hstuck) as Hend.
    split; [exact Hend |].
    destruct Hend as (_ & Hen & Hq & Hst & _).
    destruct Hinv as (_ & _ & _ & (taken & He & Hw) & _).
    rewrite Hq, app_nil_r in He. rewrite He in Hen. subst taken.
    destruct (feed_spec o (map Some pkts)) as (_ & _ & _ & Hall).
    rewrite Hw, Hen, feed_snoc.
    assert (status (feed o (map Some pkts)) = Writing) as S.
    { apply (feed_prefix_writing o _ [None]); [exact Hfin |].
      intros K. apply in_map_iff in K. destruct K as (p & K & _). discriminate K. }
    rewrite (Hall S).
    unfold writer_take, on_container. rewrite S.
    destruct (av_write_trailer L _) as [r o1].
    destruct (r <? 0); [cbn [writer_log]; rewrite written_packets_app; cbn;
                        now rewrite app_nil_r |].
    destruct (negb (has_flag _ AVFMT_NOFILE)).
    + destruct (avio_closep L _) as [r2 o2]. cbn [writer_log].
      rewrite written_packets_app. cbn. now rewrite app_nil_r.
    + cbn [writer_log]. rewrite written_packets_app. cbn. now rewrite app_nil_r.
Qed.

End Threads.

Import consumer_model.

(** A run on a file in which the frame loop pushed one packet and the null
    packet: at its end the log is the write, the trailer and the close. *)
Lemma trailer_follows_the_last_packet_witness :
  let t := run (libav_model 0) 10
               (start opened_file [Some blank_packet; None] (Ok Exited)) in
  writer_log (writer t)
  = [W_write_frame blank_packet 0; W_write_trailer 0; W_closep 0] /\
  exists writes finale,
    writer_log (writer t) = writes ++ finale /\
    (forall e, In e writes -> exists p r, e = W_write_frame p r) /\
    (finale = [] \/
     (exists r, finale = [W_write_trailer r]) \/
     (exists r r2, finale = [W_write_trailer r; W_closep r2] /\ 0 <= r /\
                   has_flag opened_file AVFMT_NOFILE = false)) /\
    (status (writer t) = Writing -> finale = []).
Proof.
  cbv zeta. split; [vm_compute; reflexivity |].
  apply (trailer_follows_the_last_packet (libav_model 0) opened_file
           [Some blank_packet; None] (Ok Exited)).
  apply pipeline_properties.run_steps.
Defined.

(** A run in which the frame loop threw after one packet: the packet is
    written, and nothing else is. *)
Lemma packets_are_written_in_push_order_witness :
  let t := run (libav_model 0) 10
               (start opened_file [Some blank_packet]
                      (Throw (ffmpeg_error_t EINVAL ""))) in
  written_packets (writer_log (writer t)) = [blank_packet] /\
  exists later,
    packets_in [Some blank_packet]
    = written_packets (writer_log (writer t)) ++ later.
Proof.
  cbv zeta. split; [vm_compute; reflexivity |].
  apply (packets_are_written_in_push_order (libav_model 0) opened_file
           [Some blank_packet] (Throw (ffmpeg_error_t EINVAL ""))).
  apply pipeline_properties.run_steps.
Defined.

(** The same run: the media thread is back from its join and the packet
    thread has finished. *)
Lemma join_waits_for_the_packet_thread_witness :
  let t := run (libav_model 0) 10
               (start opened_file [Some blank_packet]
                      (Throw (ffmpeg_error_t EINVAL ""))) in
  media t = Returned /\ status (writer t) = Finished /\
  (media t = Returned -> status (writer t) <> Writing).
Proof.
  cbv zeta. split; [vm_compute; reflexivity |].
  split; [vm_compute; reflexivity |].
  apply (join_waits_for_the_packet_thread (libav_model 0) opened_file
           [Some blank_packet] (Throw (ffmpeg_error_t EINVAL ""))).
  apply pipeline_properties.run_steps.
Defined.

(** A started consumer with one frame waiting in a queue of 128: the empty
    frame is queued behind it and the frame loop ends by [break]. *)
Lemma destructor_ends_the_frame_loop_witness :
  let c := snd (send (snd (initialize
                             (ffmpeg_consumer_ctor crc_16 "out.mov" "" false)
                             pal 1)) frame_a) in
  items (frame_buffer_ (destructor_push c)) = [frame_a; None] /\
  fst (fst (frame_loop (libav_model 0) 10
                       (items (frame_buffer_ (destructor_push c)))
                       (Some video_stream) (Some audio_stream) pal))
  = Ok Exited.
Proof.
  cbv zeta.
  destruct (destructor_ends_the_frame_loop (libav_model 0)
              (snd (send (snd (initialize
                                 (ffmpeg_consumer_ctor crc_16 "out.mov" "" false)
                                 pal 1)) frame_a))
              10 (Some video_stream) (Some audio_stream) pal eq_refl)
    as [Hroom _].
  destruct (Hroom eq_refl) as [Hitems _].
  split; [exact Hitems | vm_compute; reflexivity].
Defined.

(** The encoder of the model refuses the second frame, which has no data:
    the packet of the first frame is written, then the trailer, and the file
    is closed. *)
Lemma exception_still_writes_the_trailer_witness :
  let loop := frame_loop refusing_encoder 10 [Some frame1; Some (mkFrame [] [])]
                         (Some video_stream) None pal in
  let t := run refusing_encoder 10
               (start opened_file (snd loop) (Throw (ffmpeg_error_t EINVAL ""))) in
  fst (fst loop) = Throw (ffmpeg_error_t EINVAL "") /\
  length (snd loop) = 1%nat /\
  finalized (snd loop ++ [None]) t /\
  written_packets (writer_log (writer t)) = packets_in (snd loop).
Proof.
  cbv zeta.
  assert (frame_loop refusing_encoder 10 [Some frame1; Some (mkFrame [] [])]
                     (Some video_stream) None pal
          = (Throw (ffmpeg_error_t EINVAL ""),
             snd (fst (frame_loop refusing_encoder 10
                         [Some frame1; Some (mkFrame [] [])]
                         (Some video_stream) None pal)),
             snd (frame_loop refusing_encoder 10
                    [Some frame1; Some (mkFrame [] [])]
                    (Some video_stream) None pal))) as Hloop
    by (vm_compute; reflexivity).
  assert (status (writer_feed refusing_encoder (mkWriter Writing opened_file [])
                    (snd (frame_loop refusing_encoder 10
                            [Some frame1; Some (mkFrame [] [])]
                            (Some video_stream) None pal) ++ [None]))
          = Finished) as Hfin by (vm_compute; reflexivity).
  destruct (exception_still_writes_the_trailer refusing_encoder 10 _ _ _ pal
              opened_file _ _ _ Hloop Hfin) as (_ & _ & F).
  split; [vm_compute; reflexivity |]. split; [vm_compute; reflexivity |].
  apply F.
  - apply pipeline_properties.run_steps.
  - apply pipeline_properties.next_none. vm_compute. reflexivity.
Defined.

End thread_properties.

(** ** Stream construction and the container *)

Module container_properties.

Import ffmpeg_consumer.

Section Container.

Context {G E OC : Type}.
Variable L : libav G E OC.

Local Abbreviation cworld := (@ctor_world G OC).

(** Computations of the constructor that leave the container alone and
    call libav on the whole graph only to link: the calls they add are the
    links they add. *)
Local Abbreviation tracks c :=
  (forall w : cworld,
     exists extra,
       cw_links (snd (c w)) = cw_links w ++ extra /\
       cw_calls (snd (c w)) = cw_calls w ++ map Call_link extra /\
       cw_oc (snd (c w)) = cw_oc w).

Ltac no_links := intros w; exists []; cbn; now rewrite !app_nil_r.

Lemma tracks_ret {A : Type} (a : A) : tracks (@ret cworld A a).
Proof. no_links. Qed.

Lemma tracks_throw {A : Type} (e : exn) : tracks (@throw cworld A e).
Proof. no_links. Qed.

Lemma tracks_FF (r : Z) : tracks (@FF cworld r).
Proof. unfold FF, FF_RET. destruct (r <? 0); no_links. Qed.

Lemma tracks_gets {A : Type} (f : cworld -> A) : tracks (gets f).
Proof. no_links. Qed.

Lemma tracks_set_options (f : options -> options) :
  tracks (set_options (G := G) (OC := OC) f).
Proof. no_links. Qed.

Lemma tracks_on_graph {A : Type} (f : G -> A * G) :
  tracks (on_graph (OC := OC) f).
Proof.
  intros w. exists []. unfold on_graph. destruct (f (cw_graph w)).
  cbn. now rewrite !app_nil_r.
Qed.

Lemma tracks_link (a : nat) (b : Z) (c : nat) (d : Z) :
  tracks (link L (OC := OC) a b c d).
Proof.
  intros w. unfold link.
  destruct (avfilter_link L (cw_graph w) a b c d) as [r g].
  exists [mkLink a b c d r]. cbn. auto.
Qed.

Lemma tracks_bind {A B : Type} (c : M cworld A) (k : A -> M cworld B) :
  tracks c -> (forall a, tracks (k a)) -> tracks (bind c k).
Proof.
  intros Hc Hk w. unfold bind. destruct (Hc w) as (x1 & L1 & C1 & O1).
  destruct (c w) as [[a | e |] w1]; cbn [snd] in *;
    [| exists x1; auto ..].
  destruct (Hk a w1) as (x2 & L2 & C2 & O2).
  exists (x1 ++ x2).
  rewrite L2, C2, O2, L1, C1, O1, map_app, !app_assoc. auto.
Qed.

Ltac tracking :=
  repeat first
    [ apply tracks_ret | apply tracks_throw | apply tracks_FF
    | apply tracks_gets | apply tracks_set_options
    | apply tracks_on_graph | apply tracks_link
    | apply tracks_bind; [| intros ?]
    | match goal with |- context [match ?x with _ => _ end] => destruct x end ].

Lemma build_source_tracks (codec : AVCodec) (fd : video_format_desc)
    (inputs : list AVFilterInOut) : tracks (build_source L codec fd inputs).
Proof.
  unfold build_source, config_error.
  destruct inputs as [| cur [| more]]; [apply tracks_throw | | apply tracks_throw].
  destruct (type codec); tracking.
Qed.

Lemma build_sink_tracks (codec : AVCodec) : tracks (build_sink L codec).
Proof. unfold build_sink, config_error. destruct (type codec); tracking. Qed.

Lemma link_sink_tracks (codec : AVCodec) (outputs : list AVFilterInOut)
    (snk : nat) : tracks (link_sink L codec outputs snk).
Proof.
  unfold link_sink, config_error.
  destruct outputs as [| cur [| more]]; [apply tracks_throw | | apply tracks_throw].
  destruct (negb (media_type_eqb (pad_type cur) (type codec))); tracking.
Qed.

(** A computation that tracks and is known to have added one link has added
    that one call. *)
Lemma tracked_links {A : Type} (c : M cworld A) (w : cworld)
    (added : list link_call) :
  tracks c ->
  cw_links (snd (c w)) = cw_links w ++ added ->
  cw_calls (snd (c w)) = cw_calls w ++ map Call_link added /\
  cw_oc (snd (c w)) = cw_oc w.
Proof.
  intros Ht Hl. destruct (Ht w) as (extra & L1 & C1 & O1).
  rewrite L1 in Hl. apply app_inv_head in Hl. subst extra. auto.
Qed.

(** The second half of the constructor starts with [avformat_new_stream]
    and touches neither the container nor the whole graph after it. *)
Lemma open_encoder_calls (suffix : String.string) (codec : AVCodec)
    (so : options) (src snk : nat) (w : cworld) :
  let w' := snd (open_encoder L suffix codec so src snk w) in
  cw_oc w' = mkFormatContext (oformat (cw_oc w))
                             (snd (avformat_new_stream L (oc_state (cw_oc w)))) /\
  cw_calls w' = cw_calls w ++ [Call_new_stream] /\
  cw_links w' = cw_links w.
Proof.
  cbv zeta.
  pose proof (construction_properties.open_encoder_spec L suffix codec so src snk w)
    as Hspec.
  destruct (open_encoder L suffix codec so src snk w) as [r w'] eqn:K.
  destruct Hspec as (_ & Hl & _). cbn [snd].
  revert K. unfold open_encoder. unfold bind at 1. unfold new_stream at 1.
  destruct (avformat_new_stream L (oc_state (cw_oc w))) as [st o1]. cbn [snd].
  set (w1 := mkCtorWorld _ _ _ _ _).
  set (tail := match st with
               | Some st0 => _
               | None => _
               end).
  assert (tracks tail) as Ht.
  { unfold tail. destruct st as [st |]; [| apply tracks_throw].
    destruct (avcodec_alloc_context3 L codec) as [enc |]; [| apply tracks_throw].
    apply tracks_bind; [apply tracks_gets |]. intros g.
    destruct (configure_encoder L codec g snk st enc) as [st1 enc1].
    destruct (avcodec_open2 L enc1 codec (to_dict so)) as [[r1 dict] enc2].
    apply tracks_bind; [apply tracks_FF |]. intros _.
    apply tracks_bind; [apply tracks_set_options |]. intros _.
    destruct (avcodec_parameters_from_context L st1 enc2) as [r2 st2].
    apply tracks_bind; [apply tracks_FF |]. intros _.
    apply tracks_bind.
    { destruct (media_type_eqb (type codec) AVMEDIA_TYPE_AUDIO
                && negb (variable_frame_size codec));
        [apply tracks_on_graph | apply tracks_ret]. }
    intros _.
    apply tracks_bind; [apply tracks_gets |]. intros gh.
    apply tracks_bind; [apply tracks_gets |]. intros g2.
    apply tracks_ret. }
  intros K.
  assert (cw_links (snd (tail w1)) = cw_links w1 ++ []) as Hl'
    by (rewrite K, app_nil_r; exact Hl).
  destruct (tracked_links tail w1 [] Ht Hl') as [Hc Ho].
  rewrite K in Hc, Ho. cbn [snd map] in Hc, Ho. rewrite app_nil_r in Hc.
  rewrite Hc, Ho. auto.
Qed.

(** The constructor from the parser on.  Either the container is as it was
    and [avformat_new_stream] was not called, or the calls were, in this
    order and with these results: the parser, accepted; two links,
    accepted; the configuration of the graph, accepted; and
    [avformat_new_stream], once, on the container as it was. *)
Lemma build_calls (suffix : String.string) (codec : AVCodec)
    (fd : video_format_desc) (spec : String.string) (so : options)
    (w w' : cworld) (r : result (Stream G E)) :
  build L suffix codec fd spec so w = (r, w') ->
  exists new,
    cw_calls w' = cw_calls w ++ new /\
    ((cw_oc w' = cw_oc w /\ ~ In Call_new_stream new) \/
     (cw_oc w' = mkFormatContext (oformat (cw_oc w))
                   (snd (avformat_new_stream L (oc_state (cw_oc w)))) /\
      exists rc l1 l2 rg,
        new = [Call_parse rc; Call_link l1; Call_link l2; Call_config rg;
               Call_new_stream] /\
        cw_links w' = cw_links w ++ [l1; l2] /\
        0 <= rc /\ 0 <= link_ret l1 /\ 0 <= link_ret l2 /\ 0 <= rg)).
Proof.
  unfold build.
  unfold bind at 1. unfold on_graph at 1.
  destruct (avfilter_graph_parse2 L (cw_graph w) (effective_spec codec spec))
    as [[[rc inputs] outputs] g1].
  unfold bind at 1. unfold note at 1, modify at 1.
  cbn [cw_options cw_graph cw_oc cw_links cw_calls].
  unfold bind at 1. unfold FF, FF_RET at 1.
  destruct (rc <? 0) eqn:Hrc.
  { intros [= _ <-]. exists [Call_parse rc]. split; [reflexivity |].
    left. split; [reflexivity |]. intros [K | []]. discriminate K. }
  apply Z.ltb_ge in Hrc.
  unfold ret at 1. unfold bind at 1.
  set (w0 := mkCtorWorld (cw_options w) g1 (cw_oc w) (cw_links w) _).
  pose proof (construction_properties.build_source_spec L codec fd inputs w0) as S.
  pose proof (build_source_tracks codec fd inputs w0) as St.
  destruct (build_source L codec fd inputs w0) as [rs w1].
  destruct S as (_ & _ & Sok & _). cbn [snd] in St.
  destruct St as (x1 & L1 & C1 & O1).
  assert (forall (r0 : result (Stream G E)), r0 = r0 ->
            exists new,
              cw_calls w1 = cw_calls w ++ new /\
              cw_oc w1 = cw_oc w /\ ~ In Call_new_stream new) as Stop1.
  { intros _ _. exists (Call_parse rc :: map Call_link x1).
    split; [rewrite C1; cbn [w0 cw_calls]; now rewrite <- app_assoc |].
    split; [exact O1 |].
    intros [K | K]; [discriminate K |].
    apply in_map_iff in K. destruct K as (? & K & _). discriminate K. }
  destruct rs as [src | e |].
  2,3: intros [= _ <-]; destruct (Stop1 OutOfFuel eq_refl) as (new & ? & ? & ?);
       exists new; auto.
  clear Stop1.
  destruct (Sok _ eq_refl) as (cin & r1 & _ & Hr1 & Hl1).
  rewrite Hl1 in L1. apply app_inv_head in L1. subst x1.
  unfold bind at 1.
  pose proof (construction_properties.build_sink_spec L codec w1) as K.
  pose proof (build_sink_tracks codec w1) as Kt.
  destruct (build_sink L codec w1) as [rk w2].
  destruct K as (_ & Kl). cbn [snd] in Kt.
  assert (cw_links w2 = cw_links w1 ++ []) as Kl' by (now rewrite app_nil_r).
  destruct Kt as (x2 & L2 & C2 & O2).
  rewrite Kl' in L2. apply app_inv_head in L2. subst x2.
  cbn [map] in C2. rewrite app_nil_r in C2.
  set (l1 := mkLink src 0 (filter_ctx cin) (pad_idx cin) r1) in *.
  assert (cw_calls w2 = cw_calls w ++ [Call_parse rc; Call_link l1]) as Hc2.
  { rewrite C2, C1. cbn [w0 cw_calls map]. now rewrite <- app_assoc. }
  assert (cw_oc w2 = cw_oc w) as Ho2 by (rewrite O2, O1; reflexivity).
  destruct rk as [snk | e |].
  2,3: intros [= _ <-]; exists [Call_parse rc; Call_link l1];
       split; [exact Hc2 |]; left; split; [exact Ho2 |];
       intros [D | [D | []]]; discriminate D.
  unfold bind at 1.
  pose proof (construction_properties.link_sink_spec L codec outputs snk w2) as T.
  pose proof (link_sink_tracks codec outputs snk w2) as Tt.
  destruct (link_sink L codec outputs snk w2) as [rt w3].
  destruct T as (_ & _ & Tok & _). cbn [snd] in Tt.
  destruct Tt as (x3 & L3 & C3 & O3).
  assert (cw_calls w3 = cw_calls w ++ Call_parse rc :: Call_link l1
                                   :: map Call_link x3) as Hc3.
  { rewrite C3, Hc2, <- app_assoc. reflexivity. }
  assert (cw_oc w3 = cw_oc w) as Ho3 by (rewrite O3; exact Ho2).
  destruct rt as [[] | e |].
  2,3: intros [= _ <-]; eexists; split; [exact Hc3 |]; left;
       split; [exact Ho3 |];
       intros [D | [D | D]]; try discriminate D;
       apply in_map_iff in D; destruct D as (? & D & _); discriminate D.
  destruct (Tok _ eq_refl) as (cout & r2 & _ & _ & Hr2 & Hl3).
  rewrite Hl3 in L3. apply app_inv_head in L3. subst x3.
  set (l2 := mkLink (filter_ctx cout) (pad_idx cout) snk 0 r2) in *.
  cbn [map] in Hc3.
  unfold bind at 1. unfold on_graph at 1.
  destruct (avfilter_graph_config L (cw_graph w3)) as [rg g4].
  unfold bind at 1. unfold note at 1, modify at 1.
  cbn [cw_options cw_graph cw_oc cw_links cw_calls].
  unfold bind at 1. unfold FF, FF_RET at 1.
  destruct (rg <? 0) eqn:Hrg.
  { intros [= _ <-]. cbn [cw_calls cw_oc].
    exists [Call_parse rc; Call_link l1; Call_link l2; Call_config rg].
    split; [rewrite Hc3, <- app_assoc; reflexivity |].
    left. split; [exact Ho3 |].
    intros [D | [D | [D | [D | []]]]]; discriminate D. }
  apply Z.ltb_ge in Hrg.
  unfold ret at 1.
  set (w4 := mkCtorWorld (cw_options w3) g4 (cw_oc w3) (cw_links w3) _).
  pose proof (open_encoder_calls suffix codec so src snk w4) as O.
  destruct (open_encoder L suffix codec so src snk w4) as [ro w5].
  cbv zeta in O. cbn [snd] in O. destruct O as (Oo & Oc & Ol).
  intros [= _ <-].
  exists [Call_parse rc; Call_link l1; Call_link l2; Call_config rg;
          Call_new_stream].
  split.
  { rewrite Oc. cbn [w4 cw_calls]. rewrite Hc3, <- !app_assoc. reflexivity. }
  right. split.
  { rewrite Oo. cbn [w4 cw_oc]. rewrite Ho3. reflexivity. }
  exists rc, l1, l2, rg. split; [reflexivity |].
  split.
  { rewrite Ol. cbn [w4 cw_links]. rewrite Hl3, Kl, Hl1, <- app_assoc.
    reflexivity. }
  cbn [l1 l2 link_ret]. auto.
Qed.

(** X21. The container gets its track last.  Whatever libav answers, the
    constructor leaves the container as it was and does not call
    [avformat_new_stream], or it has made exactly these calls on the graph
    and the container, in this order: [avfilter_graph_parse2], accepted;
    [avfilter_link] twice, both accepted; [avfilter_graph_config],
    accepted; and then [avformat_new_stream], once, on the container as it
    was.  So a constructor that fails on the filter graph adds no track.  The
    container's format is never changed. *)
Theorem container_gets_its_track_last (oc : AVFormatContext OC)
    (suffix : String.string) (codec_id : AVCodecID) (fd : video_format_desc)
    (opts : options) :
  let '(_, (_, oc', links)) := Stream_ctor L oc suffix codec_id fd opts in
  let calls := Stream_ctor_calls L oc suffix codec_id fd opts in
  oformat oc' = oformat oc /\
  ((oc' = oc /\ ~ In Call_new_stream calls) \/
   (oc' = mkFormatContext (oformat oc)
                          (snd (avformat_new_stream L (oc_state oc))) /\
    exists rc l1 l2 rg,
      calls = [Call_parse rc; Call_link l1; Call_link l2; Call_config rg;
               Call_new_stream] /\
      links = [l1; l2] /\
      0 <= rc /\ 0 <= link_ret l1 /\ 0 <= link_ret l2 /\ 0 <= rg)).
Proof.
  unfold Stream_ctor, Stream_ctor_calls.
  destruct (stream_arguments L suffix codec_id opts) as [[[so spec] codec] rest].
  destruct codec as [codec |];
    [| split; [reflexivity | left; split; [reflexivity | intros []]]].
  destruct (avfilter_graph_alloc L) as [g |];
    [| split; [reflexivity | left; split; [reflexivity | intros []]]].
  destruct (build L suffix codec fd spec so (mkCtorWorld rest g oc [] []))
    as [r w'] eqn:Hb.
  destruct (build_calls suffix codec fd spec so _ _ _ Hb) as (new & Hc & H).
  cbn [cw_oc cw_links cw_calls app snd] in *. rewrite Hc.
  destruct H as [[Ho Hn] | (Ho & rc & l1 & l2 & rg & Hnew & Hl & Hr)].
  - rewrite Ho. split; [reflexivity |]. left. split; [reflexivity | exact Hn].
  - rewrite Ho. split; [reflexivity |]. right. split; [reflexivity |].
    exists rc, l1, l2, rg. split; [exact Hnew |]. split; [exact Hl | exact Hr].
Qed.

(** *** Opening the container *)

(** How the opening of a stream ends: with the stream, with an
    [ffmpeg_error_t], or, when the sample aspect ratio of the format cannot
    be formed, with [bad_rational]. *)
Local Abbreviation opening_end fd r :=
  (match r with
   | Ok _ => True
   | Throw e =>
       (exists errno msg, e = ffmpeg_error_t errno msg) \/
       (e = bad_rational /\ format_sar fd = None)
   | OutOfFuel => False
   end).

Lemma stream_ctor_outcome (oc : AVFormatContext OC) (suffix : String.string)
    (codec_id : AVCodecID) (fd : video_format_desc) (opts : options) :
  let '(r, (_, oc', _)) := Stream_ctor L oc suffix codec_id fd opts in
  opening_end fd r /\ oformat oc' = oformat oc.
Proof.
  unfold Stream_ctor.
  destruct (stream_arguments L suffix codec_id opts) as [[[so spec] codec] rest].
  destruct codec as [codec |]; [| split; [left; eauto | reflexivity]].
  destruct (avfilter_graph_alloc L) as [g |]; [| split; [left; eauto | reflexivity]].
  destruct (avfilter_graph_parse2 L g (effective_spec codec spec))
    as [[[rc inputs] outputs] g1] eqn:Hparse.
  pose proof (construction_properties.build_spec L suffix codec fd spec so
                (mkCtorWorld rest g oc [] []) rc inputs outputs g1 Hparse) as B.
  destruct (build L suffix codec fd spec so (mkCtorWorld rest g oc [] []))
    as [r w'] eqn:Hb.
  destruct B as (Hsettled & _).
  split.
  - destruct r as [s | [errno msg | msg |] |]; cbn in Hsettled |- *;
      try contradiction; try exact I; [left; eauto | right; tauto].
  - destruct (build_calls suffix codec fd spec so _ _ _ Hb)
      as (new & _ & [[H _] | [H _]]); rewrite H; reflexivity.
Qed.

Section Opening.

Variable parse_args : String.string -> options.
Variable full_path : String.string -> String.string.

Lemma open_stream_outcome (o : AVFormatContext OC) (suffix : String.string)
    (codec_id : AVCodecID) (fd : video_format_desc) (opts : options) :
  let '(r, (_, o')) := open_stream L o suffix codec_id fd opts in
  oformat o' = oformat o /\
  match r with
  | Ok s => s = None <-> codec_id = AV_CODEC_ID_NONE
  | Throw e =>
      (exists errno msg, e = ffmpeg_error_t errno msg) \/
      (e = bad_rational /\ format_sar fd = None)
  | OutOfFuel => False
  end.
Proof.
  unfold open_stream.
  destruct (codec_id =? AV_CODEC_ID_NONE) eqn:K.
  - apply Z.eqb_eq in K. split; [reflexivity |]. split; auto.
  - apply Z.eqb_neq in K.
    pose proof (stream_ctor_outcome o suffix codec_id fd opts) as H.
    destruct (Stream_ctor L o suffix codec_id fd opts) as [r [[opts' o'] links]].
    destruct H as [Hs Hf]. split; [exact Hf |].
    destruct r as [s | e |]; [| exact Hs | exact Hs].
    split; [discriminate | contradiction].
Qed.

(** X22. How the opening of the container ends.  The [format] option, when
    it has a value, names the format for [avformat_alloc_output_context2],
    which otherwise guesses from the path.  The opening either throws, an
    [ffmpeg_error_t] or, only for a format description whose sample aspect
    ratio cannot be formed, [bad_rational]; or it returns a session on the
    format that was allocated, with a video stream exactly when that format
    has a default video codec and an audio stream exactly when it has a
    default audio codec. *)
Theorem opening_builds_the_streams_of_the_format (path args : String.string)
    (fd : video_format_desc) :
  let format :=
    match map_find "format" (parse_args args) with
    | Some v => v
    | None => ""
    end in
  let '(_, fmt, _) :=
    avformat_alloc_output_context2 L
      (if is_empty format then None else Some format) path in
  match open_container L parse_args full_path path args fd with
  | Ok s =>
      oformat (oc s) = fmt /\
      (video_stream s = None <-> video_codec fmt = AV_CODEC_ID_NONE) /\
      (audio_stream s = None <-> audio_codec fmt = AV_CODEC_ID_NONE)
  | Throw e =>
      (exists errno msg, e = ffmpeg_error_t errno msg) \/
      (e = bad_rational /\ format_sar fd = None)
  | OutOfFuel => False
  end.
Proof.
  intros format. unfold open_container.
  assert ((let '(format0, _) :=
             match map_find "format" (parse_args args) with
             | Some v => (v, map_erase "format" (parse_args args))
             | None => ("", parse_args args)
             end in format0) = format) as Hformat.
  { unfold format. now destruct (map_find "format" (parse_args args)). }
  destruct (match map_find "format" (parse_args args) with
            | Some v => (v, map_erase "format" (parse_args args))
            | None => ("", parse_args args)
            end) as [format0 opts0].
  subst format0.
  destruct (avformat_alloc_output_context2 L
              (if is_empty format then None else Some format) path)
    as [[r0 fmt] o0].
  destruct (r0 <? 0); [left; eauto |].
  pose proof (open_stream_outcome (mkFormatContext fmt o0) ":v"
                (video_codec fmt) fd opts0) as Hv.
  cbn [oformat].
  destruct (open_stream L (mkFormatContext fmt o0) ":v" (video_codec fmt) fd opts0)
    as [rv [opts1 o1]].
  destruct Hv as [Hf1 Hv]. cbn [oformat] in Hf1.
  destruct rv as [video | e |]; [| exact Hv | exact Hv].
  pose proof (open_stream_outcome o1 ":a" (audio_codec (oformat o1)) fd opts1)
    as Ha.
  destruct (open_stream L o1 ":a" (audio_codec (oformat o1)) fd opts1)
    as [ra [opts2 o2]].
  destruct Ha as [Hf2 Ha]. rewrite Hf1 in Ha, Hf2.
  destruct ra as [audio | e |]; [| exact Ha | exact Ha].
  destruct (if negb (has_flag o2 AVFMT_NOFILE)
            then let '(r, dict, st) :=
                   avio_open2 L (oc_state o2) (full_path path) (to_dict opts2) in
                 (r, to_map dict, st)
            else (0, opts2, oc_state o2)) as [[r3 opts3] st3].
  destruct (r3 <? 0); [left; eauto |].
  destruct (avformat_write_header L st3 (to_dict opts3)) as [[r4 dict4] st4].
  destruct (r4 <? 0); [left; eauto |].
  cbn [oc video_stream audio_stream oformat].
  split; [exact Hf2 |]. split; [exact Hv | exact Ha].
Qed.

End Opening.

End Container.

End container_properties.
